(** * firestore-cli: a shallow embedding of [firestore-cli.go]

    The command line client reads documents of one Firestore collection
    and prints them as JSON.  This development embeds the program of
    [firestore-cli.go] function by function and proves the properties its
    specification states about it.

    Conventions.
    - A Go [string] is a [string]; a [[]byte] is a [list ascii].
    - A Go [error] value is an [option error]: [None] is [nil].  A Go
      result [(T, error)] is a pair, or a sum where only one side is
      ever read.
    - Functions that print, read the configuration or talk to the store
      run in the monad [M]: a reader of the [Invocation] (command line,
      environment, answers of the store) and a state monad over the
      [State] (viper's configuration, the globals, standard output, the
      calls made), which also records [os.Exit] and [panic].
    - Go's [int] is 64 bits wide; [c++] wraps around.
    - The libraries the program calls ([strconv], [encoding/json],
      [viper], [cobra], [firestore]) are embedded as far as the program
      relies on them; each such definition says which library function it
      stands for.  The command line is taken as cobra has parsed it; what
      cobra writes itself goes to standard error and is left out, and so
      is the passing of time: a deadline that expires is an error the
      store answers with.
    - [client.Collection] answers [nil] for a path that names no
      collection (an ID is empty, or the IDs end in a document);
      [documents] and [where] dereference the reference and panic there,
      [get] does not.  The statements about a stream say that the
      configured path names a collection. *)

From Stdlib Require Import ZArith NArith List String Ascii Bool Lia.
From Stdlib Require Import DecimalString.
From Stdlib Require DecimalPos.
Import ListNotations.
Local Open Scope Z_scope.
Local Open Scope list_scope.

Infix "+++" := String.append (right associativity, at level 60).

(** ** Bytes and characters *)

Definition bytes := list ascii.

Definition bytesOf (s : string) : bytes := list_ascii_of_string s.

Definition dquote : ascii := "034"%char.
Definition backslash : ascii := "092"%char.
Definition newlineChar : ascii := "010"%char.

(** [s] between two double quotes. *)
Definition quoted (s : string) : string :=
  String dquote (s +++ String dquote EmptyString).

(** ** Errors *)

(** The error values the program builds or receives: [fmt.Errorf] and
    [errors.New] values, [errors.Wrap] (package [github.com/pkg/errors]),
    viper's [ConfigFileNotFoundError] and [encoding/json]'s
    [UnsupportedValueError]. *)
Inductive error : Type :=
| errorString (s : string)
| withMessage (cause : error) (msg : string)
| ConfigFileNotFoundError (name locations : string)
| UnsupportedValueError (str : string).

(** [err.Error()]. *)
Fixpoint Error (e : error) : string :=
  match e with
  | errorString s => s
  | withMessage cause msg => msg +++ ": " +++ Error cause
  | ConfigFileNotFoundError name locations =>
      "Config File " +++ quoted name +++ " Not Found in " +++ quoted locations
  | UnsupportedValueError str => "json: unsupported value: " +++ str
  end.

(** [errors.Wrap(err, message)]: "If err is nil, Wrap returns nil." *)
Definition Wrap (err : option error) (message : string) : option error :=
  match err with
  | None => None
  | Some e => Some (withMessage e message)
  end.

(** ** Document values *)

(** A [float64] is not-a-number, an infinity, or finite.  A finite double
    is carried as the decimal literal that [strconv.AppendFloat] prints
    for it, so that no floating-point arithmetic is needed. *)
Inductive float64 : Type :=
| NaN
| Inf (negative : bool)
| Finite (d : Decimal.decimal).

(** The dynamically typed values ([interface{}]) of a document's field
    map, as [DocumentSnapshot.Data] returns them: [nil], [bool], [int64],
    [float64], [string], [[]interface{}] and [map[string]interface{}].
    A Go map is carried as an association list.  Timestamps, byte
    strings, geographical points and document references are left out:
    the encoder writes them with the same tokens, as strings and
    objects. *)
#[warnings="-register-all"]
Inductive value : Type :=
| VNull
| VBool (b : bool)
| VInt (n : Z)
| VFloat (f : float64)
| VString (s : string)
| VArray (elems : list value)
| VMap (fields : list (string * value)).

Definition docData := list (string * value).

(** ** [encoding/json]: the compact encoder *)

(** [strconv.AppendInt(b, n, 10)]. *)
Definition FormatInt (n : Z) : bytes :=
  bytesOf (NilZero.string_of_int (Z.to_int n)).

(** The exponent of a literal in [e] notation: the sign is always
    written. *)
Definition formatExponent (e : Decimal.signed_int) : bytes :=
  match e with
  | Decimal.Pos d => "+"%char :: bytesOf (NilZero.string_of_uint d)
  | Decimal.Neg d => "-"%char :: bytesOf (NilZero.string_of_uint d)
  end.

Definition formatFraction (f : Decimal.uint) : bytes :=
  match f with
  | Decimal.Nil => []
  | _ => "."%char :: bytesOf (NilEmpty.string_of_uint f)
  end.

(** The text of a finite double. *)
Definition FormatFloat (d : Decimal.decimal) : bytes :=
  match d with
  | Decimal.Decimal i f =>
      bytesOf (NilZero.string_of_int i) ++ formatFraction f
  | Decimal.DecimalExp i f e =>
      bytesOf (NilZero.string_of_int i) ++ formatFraction f
        ++ "e"%char :: formatExponent e
  end.

(** [htmlSafeSet]: the ASCII bytes the encoder copies unchanged. *)
Definition htmlSafe (b : ascii) : bool :=
  let n := N_of_ascii b in
  ((32 <=? n) && (n <? 128) && negb (n =? 34) && negb (n =? 92)
   && negb (n =? 60) && negb (n =? 62) && negb (n =? 38))%N.

(** [hex[n]] for [hex = "0123456789abcdef"]. *)
Definition hexDigit (n : N) : ascii :=
  nth (N.to_nat n) (bytesOf "0123456789abcdef") "0"%char.

(** What [encodeState.string] writes for one byte below [utf8.RuneSelf]. *)
Definition escapeByte (b : ascii) : bytes :=
  if htmlSafe b then [b]
  else if Ascii.eqb b backslash || Ascii.eqb b dquote then [backslash; b]
  else if Ascii.eqb b newlineChar then [backslash; "n"%char]
  else if Ascii.eqb b "013"%char then [backslash; "r"%char]
  else if Ascii.eqb b "009"%char then [backslash; "t"%char]
  else
    backslash :: "u"%char :: "0"%char :: "0"%char
      :: [hexDigit (N.shiftr (N_of_ascii b) 4);
          hexDigit (N.land (N_of_ascii b) 15)].

(** The body of [encodeState.string(s, escapeHTML = true)], byte by
    byte.  U+2028 and U+2029 (the bytes E2 80 A8 and E2 80 A9) are
    written as escapes; every other byte from [utf8.RuneSelf] up is
    copied.  Firestore strings are valid UTF-8, so the replacement of
    invalid encodings by [\ufffd] never applies and is left out. *)
Fixpoint escapeString (s : bytes) : bytes :=
  match s with
  | [] => []
  | b :: rest =>
      if (N_of_ascii b <? 128)%N then escapeByte b ++ escapeString rest
      else
        match rest with
        | b2 :: b3 :: rest' =>
            if Ascii.eqb b "226"%char && Ascii.eqb b2 "128"%char
               && (Ascii.eqb b3 "168"%char || Ascii.eqb b3 "169"%char)
            then
              backslash :: "u"%char :: "2"%char :: "0"%char :: "2"%char
                :: hexDigit (N.land (N_of_ascii b3) 15) :: escapeString rest'
            else b :: escapeString rest
        | _ => b :: escapeString rest
        end
  end.

Definition encodeString (s : string) : bytes :=
  dquote :: escapeString (bytesOf s) ++ [dquote].

(** The first error of a list of results, or all the values. *)
Fixpoint sequence {A : Type} (l : list (error + A)) : error + list A :=
  match l with
  | [] => inr []
  | inl e :: _ => inl e
  | inr a :: rest =>
      match sequence rest with
      | inl e => inl e
      | inr as_ => inr (a :: as_)
      end
  end.

(** Map keys are written in increasing byte order
    ([sort.Slice(sv, func(i, j) bool { return sv[i].s < sv[j].s })]). *)
Fixpoint insertKey {A : Type} (k : string) (a : A) (l : list (string * A))
  : list (string * A) :=
  match l with
  | [] => [(k, a)]
  | (k', a') :: rest =>
      if String.ltb k k' then (k, a) :: l else (k', a') :: insertKey k a rest
  end.

Fixpoint sortKeys {A : Type} (l : list (string * A)) : list (string * A) :=
  match l with
  | [] => []
  | (k, a) :: rest => insertKey k a (sortKeys rest)
  end.

(** [a sep b sep c]. *)
Fixpoint join {A : Type} (sep : list A) (l : list (list A)) : list A :=
  match l with
  | [] => []
  | [x] => x
  | x :: rest => x ++ sep ++ join sep rest
  end.

Definition encodeField (kv : string * bytes) : bytes :=
  encodeString (fst kv) ++ ":"%char :: snd kv.

Definition withKey {A : Type} (kv : string * (error + A))
  : error + (string * A) :=
  match snd kv with
  | inl e => inl e
  | inr a => inr (fst kv, a)
  end.

(** What [json.Marshal] writes for a value, or the error it stops with:
    [NaN] and the infinities are [UnsupportedValueError]s, everything else
    encodes. *)
Fixpoint encode (v : value) : error + bytes :=
  match v with
  | VNull => inr (bytesOf "null")
  | VBool b => inr (bytesOf (if b then "true" else "false"))
  | VInt n => inr (FormatInt n)
  | VFloat NaN => inl (UnsupportedValueError "NaN")
  | VFloat (Inf negative) =>
      inl (UnsupportedValueError (if negative then "-Inf" else "+Inf"))
  | VFloat (Finite d) => inr (FormatFloat d)
  | VString s => inr (encodeString s)
  | VArray elems =>
      match sequence (map encode elems) with
      | inl e => inl e
      | inr bs => inr ("["%char :: join [","%char] bs ++ ["]"%char])
      end
  | VMap fields =>
      let encoded :=
        sortKeys (map (fun kv => (fst kv, encode (snd kv))) fields) in
      match sequence (map withKey encoded) with
      | inl e => inl e
      | inr kvs =>
          inr ("{"%char :: join [","%char] (map encodeField kvs) ++ ["}"%char])
      end
  end.

(** [json.Marshal(docData)]. *)
Definition Marshal (d : docData) : error + bytes := encode (VMap d).

(** ** [encoding/json]: [Indent] *)

(** The scanner, as far as [Indent] consults it on the output of
    [Marshal]: where a byte stands (between tokens, inside a literal,
    inside a string, after a backslash in a string) and what it is.  The
    scanner's syntax check is left out: [Marshal] writes valid JSON, on
    which [Indent] never fails. *)
Inductive scanState : Type :=
| stateBetween
| stateInLiteral
| stateInString
| stateInStringEsc.

Inductive scanCode : Type :=
| scanContinue
| scanBeginLiteral
| scanBeginObject
| scanObjectKey
| scanNextValue
| scanEndObject
| scanBeginArray
| scanEndArray
| scanSkipSpace.

Definition isSpace (c : ascii) : bool :=
  Ascii.eqb c " "%char || Ascii.eqb c "009"%char
  || Ascii.eqb c "013"%char || Ascii.eqb c newlineChar.

Definition step (st : scanState) (c : ascii) : scanState * scanCode :=
  match st with
  | stateInString =>
      if Ascii.eqb c dquote then (stateBetween, scanContinue)
      else if Ascii.eqb c backslash then (stateInStringEsc, scanContinue)
      else (stateInString, scanContinue)
  | stateInStringEsc => (stateInString, scanContinue)
  | _ =>
      if isSpace c then (stateBetween, scanSkipSpace)
      else if Ascii.eqb c "{"%char then (stateBetween, scanBeginObject)
      else if Ascii.eqb c "}"%char then (stateBetween, scanEndObject)
      else if Ascii.eqb c "["%char then (stateBetween, scanBeginArray)
      else if Ascii.eqb c "]"%char then (stateBetween, scanEndArray)
      else if Ascii.eqb c ","%char then (stateBetween, scanNextValue)
      else if Ascii.eqb c ":"%char then (stateBetween, scanObjectKey)
      else if Ascii.eqb c dquote then (stateInString, scanBeginLiteral)
      else
        (stateInLiteral,
         match st with
         | stateInLiteral => scanContinue
         | _ => scanBeginLiteral
         end)
  end.

(** [newline(dst, prefix, indent, depth)]. *)
Definition newline (prefix indent : bytes) (depth : Z) : bytes :=
  newlineChar :: prefix ++ List.concat (repeat indent (Z.to_nat depth)).

Definition isEnd (v : scanCode) : bool :=
  match v with
  | scanEndObject | scanEndArray => true
  | _ => false
  end.

(** The loop of [Indent] over [src].  [depth] is a Go [int]; it stays
    below the length of [src], so it never wraps. *)
Fixpoint indentLoop (prefix indent : bytes) (st : scanState)
    (needIndent : bool) (depth : Z) (src : bytes) : bytes :=
  match src with
  | [] => []
  | c :: src' =>
      let (st', v) := step st c in
      match v with
      | scanSkipSpace => indentLoop prefix indent st' needIndent depth src'
      | _ =>
          let fire := needIndent && negb (isEnd v) in
          let needIndent := if fire then false else needIndent in
          let depth := if fire then depth + 1 else depth in
          (if fire then newline prefix indent depth else [])
          ++
          match v with
          | scanContinue =>
              c :: indentLoop prefix indent st' needIndent depth src'
          | _ =>
              if Ascii.eqb c "{"%char || Ascii.eqb c "["%char then
                c :: indentLoop prefix indent st' true depth src'
              else if Ascii.eqb c ","%char then
                c :: newline prefix indent depth
                  ++ indentLoop prefix indent st' needIndent depth src'
              else if Ascii.eqb c ":"%char then
                c :: " "%char
                  :: indentLoop prefix indent st' needIndent depth src'
              else if Ascii.eqb c "}"%char || Ascii.eqb c "]"%char then
                if needIndent then
                  c :: indentLoop prefix indent st' false depth src'
                else
                  newline prefix indent (depth - 1)
                    ++ c :: indentLoop prefix indent st' false (depth - 1) src'
              else c :: indentLoop prefix indent st' needIndent depth src'
          end
      end
  end.

(** [json.Indent(dst, src, prefix, indent)] into an empty buffer. *)
Definition Indent (src : bytes) (prefix indent : string) : bytes :=
  indentLoop (bytesOf prefix) (bytesOf indent) stateBetween false 0 src.

(** [json.MarshalIndent(docData, prefix, indent)]: [Marshal], then
    [Indent]. *)
Definition MarshalIndent (d : docData) (prefix indent : string)
  : error + bytes :=
  match Marshal d with
  | inl err => inl err
  | inr b => inr (Indent b prefix indent)
  end.

(** ** [strconv.ParseInt] *)

(** [*NumError.Err]: [ErrSyntax] or [ErrRange]. *)
Inductive numError : Type :=
| ErrSyntax
| ErrRange.

Definition maxUint64 : Z := 2 ^ 64 - 1.

(** Arithmetic of [uint64] and [int64]. *)
Definition uint64 (n : Z) : Z := n mod 2 ^ 64.
Definition int64 (n : Z) : Z := (n + 2 ^ 63) mod 2 ^ 64 - 2 ^ 63.

(** The digit a byte stands for, in any base up to 36. *)
Definition digitOf (c : ascii) : option Z :=
  let n := Z.of_N (N_of_ascii c) in
  if (48 <=? n) && (n <=? 57) then Some (n - 48)
  else if (97 <=? n) && (n <=? 122) then Some (n - 97 + 10)
  else if (65 <=? n) && (n <=? 90) then Some (n - 65 + 10)
  else None.

(** The loop of [ParseUint] in base 10. *)
Fixpoint parseUintLoop (cutoff maxVal : Z) (s : bytes) (n : Z)
  : Z * option numError :=
  match s with
  | [] => (n, None)
  | c :: rest =>
      match digitOf c with
      | None => (0, Some ErrSyntax)
      | Some d =>
          if d >=? 10 then (0, Some ErrSyntax)
          else if n >=? cutoff then (maxVal, Some ErrRange)
          else
            let n := uint64 (n * 10) in
            let n1 := uint64 (n + d) in
            if (n1 <? n) || (n1 >? maxVal) then (maxVal, Some ErrRange)
            else parseUintLoop cutoff maxVal rest n1
      end
  end.

(** [strconv.ParseUint(s, 10, bitSize)] for [0 < bitSize <= 64]. *)
Definition ParseUint (s : bytes) (bitSize : Z) : Z * option numError :=
  match s with
  | [] => (0, Some ErrSyntax)
  | _ =>
      let cutoff := maxUint64 / 10 + 1 in
      let maxVal := uint64 (uint64 (Z.shiftl 1 bitSize) - 1) in
      parseUintLoop cutoff maxVal s 0
  end.

(** [strconv.ParseInt(s, 10, bitSize)] for [0 < bitSize <= 64]. *)
Definition ParseInt (s : string) (bitSize : Z) : Z * option numError :=
  match bytesOf s with
  | [] => (0, Some ErrSyntax)
  | c :: rest =>
      let neg := Ascii.eqb c "-"%char in
      let s' := if Ascii.eqb c "+"%char || neg then rest else c :: rest in
      let (un, err) := ParseUint s' bitSize in
      match err with
      | Some ErrSyntax => (0, err)
      | _ =>
          let cutoff := uint64 (Z.shiftl 1 (bitSize - 1)) in
          if negb neg && (un >=? cutoff) then (int64 (cutoff - 1), Some ErrRange)
          else if neg && (un >? cutoff) then (int64 (- int64 cutoff), Some ErrRange)
          else
            let n := int64 un in
            (if neg then int64 (- n) else n, None)
      end
  end.

(** ** The world the program runs in *)

(** A configuration file as viper reads it: the keys the program looks
    up. *)
Record ConfigFile : Type := {
  file_project : option string;
  file_collection : option string;
  file_prettyprint : option bool
}.

(** [firestore.Query]: a collection, with at most one [Where] filter. *)
Record Query : Type := {
  q_collection : string;
  q_where : option (string * string * value)
}.

Record DocumentSnapshot : Type := { Data : docData }.

(** The items a [DocumentIterator] has left: what the next calls of
    [Next] return, one by one, before [iterator.Done]. *)
Definition DocumentIterator := list (error + DocumentSnapshot).

(** One run of the program: the command line as cobra has parsed it, the
    environment, and what the remote store answers.  [Some v] for a
    persistent flag means that the flag was given.  [config_file] is
    [None] when none of the searched directories holds a configuration
    file and [Some (inl err)] when the file found cannot be read. *)
Record Invocation : Type := {
  flag_collection : option string;
  flag_project : option string;
  flag_prettyprint : option bool;
  flag_verbose : bool;
  flag_limit : Z;
  flag_unlimited : bool;
  FIRESTORE_EMULATOR_HOST : string;
  home_dir : error + string;
  config_file : option (error + ConfigFile);
  new_client : option error;
  store_get : string -> string -> error + DocumentSnapshot;
  store_documents : Query -> DocumentIterator
}.

(** The calls the program makes to the store. *)
Inductive Call : Type :=
| CallNewClient (project : string)
| CallGet (collectionPath documentID : string)
| CallDocuments (q : Query)
| CallNext
| CallStop.

(** What the program changes while it runs: the configuration viper
    holds, the globals [client] and [verbose], standard output (one
    entry for each call of [fmt.Print], [fmt.Println] or [fmt.Printf])
    and the calls made to the store. *)
Record State : Type := {
  viper_config : option ConfigFile;
  client : option string;
  verbose : bool;
  stdout : list string;
  calls : list Call
}.

Definition initial : State :=
  {| viper_config := None; client := None; verbose := false;
     stdout := []; calls := [] |}.

Definition set_viper_config (c : option ConfigFile) (s : State) : State :=
  {| viper_config := c; client := client s; verbose := verbose s;
     stdout := stdout s; calls := calls s |}.

Definition set_client (c : option string) (s : State) : State :=
  {| viper_config := viper_config s; client := c; verbose := verbose s;
     stdout := stdout s; calls := calls s |}.

Definition set_verbose (v : bool) (s : State) : State :=
  {| viper_config := viper_config s; client := client s; verbose := v;
     stdout := stdout s; calls := calls s |}.

Definition write (text : string) (s : State) : State :=
  {| viper_config := viper_config s; client := client s;
     verbose := verbose s; stdout := stdout s ++ [text]; calls := calls s |}.

Definition record (c : Call) (s : State) : State :=
  {| viper_config := viper_config s; client := client s;
     verbose := verbose s; stdout := stdout s; calls := calls s ++ [c] |}.

(** ** The monad of the program *)

(** How a computation ends: it returns, the process exits ([os.Exit]),
    or it panics. *)
Inductive Outcome (A : Type) : Type :=
| Returned (a : A) (s : State)
| Exited (code : Z) (s : State)
| Panicked (v : string) (s : State).

Arguments Returned {A} a s.
Arguments Exited {A} code s.
Arguments Panicked {A} v s.

Definition M (A : Type) : Type := Invocation -> State -> Outcome A.

Definition ret {A : Type} (a : A) : M A := fun _ s => Returned a s.

Definition bind {A B : Type} (m : M A) (k : A -> M B) : M B :=
  fun inv s =>
    match m inv s with
    | Returned a s' => k a inv s'
    | Exited code s' => Exited code s'
    | Panicked v s' => Panicked v s'
    end.

Notation "x <- m ;; k" := (bind m (fun x => k))
  (at level 61, m at next level, right associativity).
Notation "m ;; k" := (bind m (fun _ => k))
  (at level 61, right associativity).

Definition ask : M Invocation := fun inv s => Returned inv s.
Definition get_state : M State := fun _ s => Returned s s.
Definition modify (f : State -> State) : M unit :=
  fun _ s => Returned tt (f s).

Definition os_Exit {A : Type} (code : Z) : M A := fun _ s => Exited code s.
Definition panic {A : Type} (v : string) : M A := fun _ s => Panicked v s.

(** [defer cleanup] before [body]: [cleanup] runs when [body] returns
    or panics, and not when the process exits. *)
Definition defer {A : Type} (cleanup : M unit) (body : M A) : M A :=
  fun inv s =>
    match body inv s with
    | Returned a s' =>
        match cleanup inv s' with
        | Returned _ s'' => Returned a s''
        | Exited code s'' => Exited code s''
        | Panicked v s'' => Panicked v s''
        end
    | Exited code s' => Exited code s'
    | Panicked v s' =>
        match cleanup inv s' with
        | Returned _ s'' => Panicked v s''
        | Exited code s'' => Exited code s''
        | Panicked v' s'' => Panicked v' s''
        end
    end.

Definition fmt_Print (text : string) : M unit := modify (write text).

Definition fmt_Println (text : string) : M unit :=
  modify (write (text +++ String newlineChar EmptyString)).

(** ** cobra and viper, as the program uses them *)

(** The runnable commands of [rootCmd]. *)
Inductive Command : Type :=
| getCmd
| whereCmd
| documentsCmd.

(** [init] adds the flags [limit] and [unlimited] to [whereCmd] and
    [documentsCmd] only. *)
Definition hasBoundFlags (cmd : Command) : bool :=
  match cmd with
  | getCmd => false
  | _ => true
  end.

Definition flagNotDefined (name : string) : error :=
  errorString ("flag accessed but not defined: " +++ name).

Definition flagOfType (wanted name : string) : error :=
  errorString ("trying to get " +++ wanted +++ " value of flag " +++ name).

(** [cmd.Flags().GetInt(name)]. *)
Definition Flags_GetInt (cmd : Command) (name : string)
  : M (Z * option error) :=
  inv <- ask ;;
  if (name =? "limit")%string then
    if hasBoundFlags cmd then ret (flag_limit inv, None)
    else ret (0, Some (flagNotDefined name))
  else if (name =? "unlimited")%string then
    if hasBoundFlags cmd then ret (0, Some (flagOfType "int" name))
    else ret (0, Some (flagNotDefined name))
  else if (name =? "verbose")%string || (name =? "prettyprint")%string then
    ret (0, Some (flagOfType "int" name))
  else if (name =? "collection")%string || (name =? "project")%string then
    ret (0, Some (flagOfType "int" name))
  else ret (0, Some (flagNotDefined name)).

(** [cmd.Flags().GetBool(name)]. *)
Definition Flags_GetBool (cmd : Command) (name : string)
  : M (bool * option error) :=
  inv <- ask ;;
  if (name =? "verbose")%string then ret (flag_verbose inv, None)
  else if (name =? "prettyprint")%string then
    ret (match flag_prettyprint inv with Some b => b | None => false end, None)
  else if (name =? "unlimited")%string then
    if hasBoundFlags cmd then ret (flag_unlimited inv, None)
    else ret (false, Some (flagNotDefined name))
  else if (name =? "limit")%string then
    if hasBoundFlags cmd then ret (false, Some (flagOfType "bool" name))
    else ret (false, Some (flagNotDefined name))
  else if (name =? "collection")%string || (name =? "project")%string then
    ret (false, Some (flagOfType "bool" name))
  else ret (false, Some (flagNotDefined name)).

(** The value of a flag bound to viper ([viper.BindPFlag]), when the flag
    was given. *)
Definition boundString (inv : Invocation) (key : string) : option string :=
  if (key =? "collection")%string then flag_collection inv
  else if (key =? "project")%string then flag_project inv
  else None.

Definition fileString (f : ConfigFile) (key : string) : option string :=
  if (key =? "project")%string then file_project f
  else if (key =? "collection")%string then file_collection f
  else None.

(** The merged setting of a string key: the flag when given, else the
    configuration file's value, else the flag's default, the empty
    string. *)
Definition setting (inv : Invocation) (s : State) (key : string) : string :=
  match boundString inv key with
  | Some v => v
  | None =>
      match viper_config s with
      | Some f =>
          match fileString f key with
          | Some v => v
          | None => EmptyString
          end
      | None => EmptyString
      end
  end.

(** [viper.GetString(key)]. *)
Definition viper_GetString (key : string) : M string :=
  fun inv s => Returned (setting inv s key) s.

Definition prettyprint (inv : Invocation) (s : State) : bool :=
  match flag_prettyprint inv with
  | Some b => b
  | None =>
      match viper_config s with
      | Some f =>
          match file_prettyprint f with
          | Some b => b
          | None => false
          end
      | None => false
      end
  end.

(** [viper.GetBool("prettyprint")]. *)
Definition viper_GetBool_prettyprint : M bool :=
  fun inv s => Returned (prettyprint inv s) s.

(** The directories [initConfig] adds with [viper.AddConfigPath]. *)
Definition configPaths (home : string) : string :=
  "[. " +++ home +++ " " +++ home +++ "/.config/firestore-cli]".

(** [viper.ReadInConfig()] after [initConfig] has named the file and
    the directories. *)
Definition viper_ReadInConfig (home : string) : M (option error) :=
  inv <- ask ;;
  match config_file inv with
  | None => ret (Some (ConfigFileNotFoundError "firestore-cli" (configPaths home)))
  | Some (inl err) => ret (Some err)
  | Some (inr f) => modify (set_viper_config (Some f)) ;; ret None
  end.

(** [homedir.Dir()]. *)
Definition homedir_Dir : M (error + string) :=
  inv <- ask ;; ret (home_dir inv).

(** ** The store *)

(** [firestore.NewClient(rootCtx, projectID)]: sets the global
    [client]. *)
Definition firestore_NewClient (projectID : string) : M (option error) :=
  inv <- ask ;;
  modify (record (CallNewClient projectID)) ;;
  match new_client inv with
  | Some err => modify (set_client None) ;; ret (Some err)
  | None => modify (set_client (Some projectID)) ;; ret None
  end.

(** [q.Documents(ctx)]. *)
Definition Documents (q : Query) : M DocumentIterator :=
  inv <- ask ;;
  modify (record (CallDocuments q)) ;;
  ret (store_documents inv q).

(** [iter.Stop()]. *)
Definition Stop (iter : DocumentIterator) : M unit :=
  modify (record CallStop).

(** [strings.Split(path, "/")]: the parts between the slashes, the
    empty ones too. *)
Fixpoint splitLoop (current : string) (s : string) : list string :=
  match s with
  | EmptyString => [current]
  | String c rest =>
      if Ascii.eqb c "/"%char then current :: splitLoop EmptyString rest
      else splitLoop (current +++ String c EmptyString) rest
  end.

Definition Split (path : string) : list string := splitLoop EmptyString path.

(** The walk of [idsToRef] over the IDs of a path: a collection, a
    document in it, a collection under that document, and so on.  The
    IDs name a collection when the walk ends in one. *)
Fixpoint endsInCollection (IDs : list string) : bool :=
  match IDs with
  | [] => false
  | [_] => true
  | _ :: _ :: rest => endsInCollection rest
  end.

(** The paths for which [client.Collection] answers a reference: no ID
    is empty, and the IDs end in a collection (their number is odd). *)
Definition namesCollection (path : string) : bool :=
  let IDs := Split path in
  forallb (fun id => negb (id =? EmptyString)%string) IDs
  && endsInCollection IDs.

(** [*firestore.CollectionRef]: [nil], or the reference of a collection.
    The path that was asked for is kept with [nil] too: the answer of
    [Get] is looked up by it. *)
Record CollectionRef : Type := {
  ref_path : string;
  ref_nil : bool
}.

(** [client.Collection(path)]: "Returns nil if path contains an even
    number of IDs or any ID is empty." *)
Definition Client_Collection (path : string) : CollectionRef :=
  {| ref_path := path; ref_nil := negb (namesCollection path) |}.

Definition nilDereference : string :=
  "runtime error: invalid memory address or nil pointer dereference".

(** The [Query] embedded in a collection reference.  [col.Documents] and
    [col.Where] are methods of that [Query], reached through the
    pointer: a [nil] reference is dereferenced there, and the program
    panics. *)
Definition CollectionRef_Query (col : CollectionRef) : M Query :=
  if ref_nil col then panic nilDereference
  else ret {| q_collection := ref_path col; q_where := None |}.

(** [collection.Doc(documentID).Get(ctx)].  [Doc] and [Get] test their
    receiver: of a [nil] collection reference [Doc] is the [nil] document
    reference, and [Get] answers an error for it and does not panic.
    That error is among the answers of [store_get]. *)
Definition Doc_Get (col : CollectionRef) (documentID : string)
  : M (error + DocumentSnapshot) :=
  inv <- ask ;;
  modify (record (CallGet (ref_path col) documentID)) ;;
  ret (store_get inv (ref_path col) documentID).

(** [q.Where(path, op, value)]. *)
Definition Where (col : Query) (path op : string) (v : value) : Query :=
  {| q_collection := q_collection col; q_where := Some (path, op, v) |}.

(** ** The program *)

(** Go's [int] (64 bits). *)
Definition int (n : Z) : Z := int64 n.

(** [emulator], which [init] sets from the environment. *)
Definition emulator (inv : Invocation) : bool :=
  negb (FIRESTORE_EMULATOR_HOST inv =? EmptyString)%string.

Definition formatBool (b : bool) : string :=
  if b then "true" else "false".

(** [%v] of a query value. *)
Definition formatValue (v : value) : string :=
  match v with
  | VInt n => string_of_list_ascii (FormatInt n)
  | VString s => s
  | _ => EmptyString
  end.

Definition configNotFound : string :=
  "Config file not found! Consider creating one.
" +++ "
Possible locations:
-------------------
  ./firestore.yaml
  ~/firestore.yaml
  ~/.config/firestore-cli/firestore-cli.yaml

Example configuration:
----------------------
project: my-awesome-gcp-project
collection: my_documents

You can also use --project and --collection switches to override these settings.
".

Definition initConfig : M unit :=
  r <- homedir_Dir ;;
  match r with
  | inl err => fmt_Println (Error err) ;; os_Exit 1
  | inr home =>
      err <- viper_ReadInConfig home ;;
      match err with
      | Some (ConfigFileNotFoundError _ _) => fmt_Print configNotFound
      | Some err =>
          panic ("Fatal error config file: " +++ Error err +++ " "
                 +++ String newlineChar EmptyString)
      | None => ret tt
      end
  end.

(** The loop of [validateRequiredParams] over the keys. *)
Fixpoint validateKeys (keys : list string) : M (option error) :=
  match keys with
  | [] => ret None
  | key :: rest =>
      v <- viper_GetString key ;;
      if (v =? EmptyString)%string
      then ret (Some (errorString (key +++ " undefined")))
      else validateKeys rest
  end.

Definition validateRequiredParams : M (option error) :=
  validateKeys ["project"; "collection"]%string.

Definition initFirestoreClient : M (option error) :=
  project <- viper_GetString "project" ;;
  err <- firestore_NewClient project ;;
  ret (Wrap err "unable to create firestore client").

Definition preRunE (cmd : Command) (args : list string) : M (option error) :=
  err <- validateRequiredParams ;;
  match err with
  | Some _ => ret (Wrap err "unable to validate required params")
  | None =>
      r <- Flags_GetBool cmd "verbose" ;;
      modify (set_verbose (fst r)) ;;
      match snd r with
      | Some _ => ret (Wrap (snd r) ("unable to get flag " +++ quoted "verbose"))
      | None =>
          err <- initFirestoreClient ;;
          match err with
          | Some _ => ret (Wrap err "unable to create firestore client")
          | None => ret None
          end
      end
  end.

(** [collection()]: what [client.Collection] answers for the configured
    path, [nil] when the path names no collection; a [nil] client is
    dereferenced there. *)
Definition collection : M CollectionRef :=
  collectionPath <- viper_GetString "collection" ;;
  s <- get_state ;;
  match client s with
  | None => panic nilDereference
  | Some _ => ret (Client_Collection collectionPath)
  end.

Definition jsonString (d : docData) : M (string * option error) :=
  pp <- viper_GetBool_prettyprint ;;
  match (if pp then MarshalIndent d "" "  " else Marshal d) with
  | inl err =>
      ret (EmptyString, Wrap (Some err) "unable to marshal document to json")
  | inr jsonData => ret (string_of_list_ascii jsonData, None)
  end.

Definition get (_ : Command) (args : list string) : M (option error) :=
  match args with
  | [] => panic "runtime error: index out of range"
  | documentID :: _ =>
      s <- get_state ;;
      (if verbose s then
         project <- viper_GetString "project" ;;
         collectionPath <- viper_GetString "collection" ;;
         inv <- ask ;;
         fmt_Print ("Finding (ProjectID:" +++ project +++ ", CollectionPath:"
                    +++ collectionPath +++ ", ID:" +++ documentID
                    +++ ", Emulator:" +++ formatBool (emulator inv) +++ ")"
                    +++ String newlineChar EmptyString)
       else ret tt) ;;
      col <- collection ;;
      r <- Doc_Get col documentID ;;
      match r with
      | inl err => ret (Wrap (Some err) "unable to get document")
      | inr docSnap =>
          r <- jsonString (Data docSnap) ;;
          match snd r with
          | Some err => ret (Some err)
          | None => fmt_Println (fst r) ;; ret None
          end
      end
  end.

(** The [for] loop of [iterate].  Matching on [iter] is [iter.Next()]:
    the empty iterator answers [iterator.Done]. *)
Fixpoint iterateLoop (limit : Z) (unlimited : bool) (iter : DocumentIterator)
    (c : Z) : M (option error) :=
  modify (record CallNext) ;;
  match iter with
  | [] => ret None
  | inl err :: _ => ret (Wrap (Some err) "unable to iterate documents")
  | inr doc :: iter' =>
      r <- jsonString (Data doc) ;;
      match snd r with
      | Some err => ret (Some err)
      | None =>
          fmt_Println (fst r) ;;
          if negb unlimited && (c >=? limit) then ret None
          else iterateLoop limit unlimited iter' (int (c + 1))
      end
  end.

Definition iterate (cmd : Command) (iter : DocumentIterator)
  : M (option error) :=
  r <- Flags_GetInt cmd "limit" ;;
  match snd r with
  | Some _ => ret (Wrap (snd r) ("unable to parse flag " +++ quoted "limit"))
  | None =>
      let limit := fst r in
      r <- Flags_GetBool cmd "unlimited" ;;
      match snd r with
      | Some _ =>
          ret (Wrap (snd r) ("unable to parse flag " +++ quoted "unlimited"))
      | None => iterateLoop limit (fst r) iter 1
      end
  end.

Definition documents (cmd : Command) (_ : list string) : M (option error) :=
  col <- collection ;;
  q <- CollectionRef_Query col ;;
  iter <- Documents q ;;
  defer (Stop iter) (iterate cmd iter).

(** The [value] that [where] passes to the query for its third
    argument. *)
Definition whereValue (arg : string) : value :=
  let (intValue, err) := ParseInt arg 32 in
  match err with
  | None => VInt intValue
  | Some _ => VString arg
  end.

Definition where_ (cmd : Command) (args : list string) : M (option error) :=
  match args with
  | path :: op :: arg2 :: _ =>
      let v := whereValue arg2 in
      r <- Flags_GetBool cmd "verbose" ;;
      (match r with
       | (true, None) =>
           project <- viper_GetString "project" ;;
           collectionPath <- viper_GetString "collection" ;;
           fmt_Print ("Querying (project:" +++ project +++ ", collection:"
                      +++ collectionPath +++ ", query:" +++ path +++ " "
                      +++ op +++ " " +++ formatValue v +++ ")"
                      +++ String newlineChar EmptyString)
       | _ => ret tt
       end) ;;
      col <- collection ;;
      q <- CollectionRef_Query col ;;
      iter <- Documents (Where q path op v) ;;
      defer (Stop iter) (iterate cmd iter)
  | _ => panic "runtime error: index out of range"
  end.

(** [Args]: [cobra.ExactArgs(n)] for [getCmd] and [whereCmd]; none for
    [documentsCmd], which takes any arguments. *)
Definition ValidateArgs (cmd : Command) (args : list string) : option error :=
  let exact (n : nat) :=
    if Nat.eqb (List.length args) n then None
    else Some (errorString
                 ("accepts " +++ NilZero.string_of_uint (Nat.to_uint n)
                  +++ " arg(s), received "
                  +++ NilZero.string_of_uint (Nat.to_uint (List.length args)))) in
  match cmd with
  | getCmd => exact 1%nat
  | whereCmd => exact 3%nat
  | documentsCmd => None
  end.

Definition RunE (cmd : Command) : list string -> M (option error) :=
  match cmd with
  | getCmd => get cmd
  | whereCmd => where_ cmd
  | documentsCmd => documents cmd
  end.

(** [rootCmd.Execute()] for the command and the arguments the command
    line names: cobra runs the initializers ([cobra.OnInitialize]),
    checks the arguments, then runs [PreRunE] and [RunE], and returns
    the first error. *)
Definition Execute (cmd : Command) (args : list string) : M (option error) :=
  initConfig ;;
  match ValidateArgs cmd args with
  | Some err => ret (Some err)
  | None =>
      err <- preRunE cmd args ;;
      match err with
      | Some _ => ret err
      | None => RunE cmd args
      end
  end.

Definition main (cmd : Command) (args : list string) : M unit :=
  err <- Execute cmd args ;;
  match err with
  | Some e => fmt_Println (Error e) ;; os_Exit 1
  | None => ret tt
  end.

(** The exit status of the process: 0 when [main] returns, the argument
    of [os.Exit], 2 after a panic. *)
Definition exitCode {A : Type} (o : Outcome A) : Z :=
  match o with
  | Returned _ _ => 0
  | Exited code _ => code
  | Panicked _ _ => 2
  end.

Definition finalState {A : Type} (o : Outcome A) : State :=
  match o with
  | Returned _ s => s
  | Exited _ s => s
  | Panicked _ s => s
  end.

(** ** Vocabulary of the statements *)

Definition nl : string := String newlineChar EmptyString.

(** The JSON text of a field map under a setting of [prettyprint]. *)
Definition json (pp : bool) (d : docData) : error + bytes :=
  if pp then MarshalIndent d "" "  " else Marshal d.

(** A document serializes when the encoder returns its text. *)
Definition serializes (pp : bool) (doc : DocumentSnapshot) : Prop :=
  exists b, json pp (Data doc) = inr b.

(** The line the program prints for a document that serializes. *)
Definition line (pp : bool) (doc : DocumentSnapshot) : string :=
  match json pp (Data doc) with
  | inr b => string_of_list_ascii b +++ nl
  | inl _ => EmptyString
  end.

(** The state after the loop of [iterate] has fetched and printed
    [docs], one after the other. *)
Definition printed (pp : bool) (docs : list DocumentSnapshot) (s : State)
  : State :=
  fold_left (fun s doc => write (line pp doc) (record CallNext s)) docs s.

(** The counter of the loop after [n] rounds. *)
Definition counter (n : nat) (c : Z) : Z :=
  Nat.iter n (fun c => int (c + 1)) c.

(** The range of Go's [int]. *)
Definition isInt (n : Z) : Prop := - 2 ^ 63 <= n <= 2 ^ 63 - 1.

Definition isStop (c : Call) : bool :=
  match c with
  | CallStop => true
  | _ => false
  end.

Definition isDocuments (c : Call) : bool :=
  match c with
  | CallDocuments _ => true
  | _ => false
  end.

(** What [where] prints before it opens the stream. *)
Definition announced (inv : Invocation) (s : State) (path op arg : string)
  : State :=
  if flag_verbose inv then
    write ("Querying (project:" +++ setting inv s "project"
           +++ ", collection:" +++ setting inv s "collection"
           +++ ", query:" +++ path +++ " " +++ op +++ " "
           +++ formatValue (whereValue arg) +++ ")" +++ nl) s
  else s.

(** The query of [documents] and the query of [where]. *)
Definition allDocuments (inv : Invocation) (s : State) : Query :=
  {| q_collection := setting inv s "collection"; q_where := None |}.

Definition filtered (inv : Invocation) (s : State) (path op arg : string)
  : Query :=
  {| q_collection := setting inv s "collection";
     q_where := Some (path, op, whereValue arg) |}.

(** A configuration file that sets nothing, and an invocation with
    another outcome of the search for the configuration file. *)
Definition noSettings : ConfigFile :=
  {| file_project := None; file_collection := None;
     file_prettyprint := None |}.

Definition withConfigFile (c : option (error + ConfigFile))
    (inv : Invocation) : Invocation :=
  {| flag_collection := flag_collection inv;
     flag_project := flag_project inv;
     flag_prettyprint := flag_prettyprint inv;
     flag_verbose := flag_verbose inv;
     flag_limit := flag_limit inv;
     flag_unlimited := flag_unlimited inv;
     FIRESTORE_EMULATOR_HOST := FIRESTORE_EMULATOR_HOST inv;
     home_dir := home_dir inv;
     config_file := c;
     new_client := new_client inv;
     store_get := store_get inv;
     store_documents := store_documents inv |}.

(** Sample runs, for the instances below: three documents that
    serialize, one that does not, and an invocation built from the
    settings that vary. *)
Definition sampleDoc (n : Z) : DocumentSnapshot :=
  {| Data := [("age"%string, VInt n); ("name"%string, VString "Ada")] |}.

Definition unserializable : DocumentSnapshot :=
  {| Data := [("ratio"%string, VFloat NaN)] |}.

Definition sampleRun (project collection : option string) (limit : Z)
    (unlimited : bool) (home : error + string)
    (file : option (error + ConfigFile)) (items : DocumentIterator)
  : Invocation :=
  {| flag_collection := collection;
     flag_project := project;
     flag_prettyprint := None;
     flag_verbose := false;
     flag_limit := limit;
     flag_unlimited := unlimited;
     FIRESTORE_EMULATOR_HOST := EmptyString;
     home_dir := home;
     config_file := file;
     new_client := None;
     store_get := fun _ _ => inl (errorString "not found");
     store_documents := fun _ => items |}.

Definition sampleStream : DocumentIterator :=
  [inr (sampleDoc 30); inr (sampleDoc 41); inr (sampleDoc 52)].

(** A run of the stream with the settings given by flags. *)
Definition streaming (limit : Z) (unlimited : bool) (items : DocumentIterator)
  : Invocation :=
  sampleRun (Some "demo"%string) (Some "users"%string) limit unlimited
    (inr "/home/ada"%string) None items.

(** The state after [preRunE] in such a run. *)
Definition ready : State := set_client (Some "demo"%string) initial.

(** The words of the specification for the query value: a literal
    "parses as a base-10 integer" when it is an optional sign followed by
    one or more decimal digits, and then denotes that integer; the
    32-bit range is that of [int32]. *)
Definition isDigit (c : ascii) : bool :=
  let n := Z.of_N (N_of_ascii c) in (48 <=? n) && (n <=? 57).

Definition digitValue (c : ascii) : Z := Z.of_N (N_of_ascii c) - 48.

Definition digitsFrom (n : Z) (ds : bytes) : Z :=
  fold_left (fun n c => 10 * n + digitValue c) ds n.

Definition unsignedDecimal (ds : bytes) : option Z :=
  match ds with
  | [] => None
  | _ => if forallb isDigit ds then Some (digitsFrom 0 ds) else None
  end.

Definition decimalInteger (s : string) : option Z :=
  match bytesOf s with
  | [] => None
  | c :: rest =>
      if Ascii.eqb c "-"%char then option_map Z.opp (unsignedDecimal rest)
      else if Ascii.eqb c "+"%char then unsignedDecimal rest
      else unsignedDecimal (c :: rest)
  end.

Definition inInt32 (n : Z) : bool :=
  (- 2 ^ 31 <=? n) && (n <=? 2 ^ 31 - 1).

(** ** Reading JSON text back *)

(** The tokens of a JSON text.  A string token carries the bytes between
    its quotes, escapes included; a literal token (a number, [true],
    [false], [null]) carries its bytes. *)
Inductive token : Type :=
| TBeginObject
| TEndObject
| TBeginArray
| TEndArray
| TComma
| TColon
| TString (body : bytes)
| TLiteral (text : bytes)
| TUnterminated.

Definition punctuation (c : ascii) : option token :=
  if Ascii.eqb c "{"%char then Some TBeginObject
  else if Ascii.eqb c "}"%char then Some TEndObject
  else if Ascii.eqb c "["%char then Some TBeginArray
  else if Ascii.eqb c "]"%char then Some TEndArray
  else if Ascii.eqb c ","%char then Some TComma
  else if Ascii.eqb c ":"%char then Some TColon
  else None.

Inductive lexState : Type :=
| lexBetween
| lexLiteral (text : bytes)
| lexString (body : bytes)
| lexEscape (body : bytes).

(** What the lexer emits when a byte ends the token it is in. *)
Definition flush (st : lexState) : list token :=
  match st with
  | lexLiteral text => [TLiteral text]
  | _ => []
  end.

(** The lexer: white space between tokens (space, tab, carriage return,
    line feed) is dropped, and nothing else is. *)
Fixpoint lex (st : lexState) (src : bytes) : list token :=
  match src with
  | [] =>
      match st with
      | lexBetween => []
      | lexLiteral text => [TLiteral text]
      | _ => [TUnterminated]
      end
  | c :: rest =>
      match st with
      | lexString body =>
          if Ascii.eqb c dquote then TString body :: lex lexBetween rest
          else if Ascii.eqb c backslash then lex (lexEscape (body ++ [c])) rest
          else lex (lexString (body ++ [c])) rest
      | lexEscape body => lex (lexString (body ++ [c])) rest
      | _ =>
          if isSpace c then flush st ++ lex lexBetween rest
          else
            match punctuation c with
            | Some t => flush st ++ t :: lex lexBetween rest
            | None =>
                if Ascii.eqb c dquote then flush st ++ lex (lexString []) rest
                else
                  lex (lexLiteral
                         (match st with
                          | lexLiteral text => text ++ [c]
                          | _ => [c]
                          end)) rest
            end
      end
  end.

(** The text of a token, and a token list written out with nothing
    between the tokens. *)
Definition tokenText (t : token) : bytes :=
  match t with
  | TBeginObject => ["{"%char]
  | TEndObject => ["}"%char]
  | TBeginArray => ["["%char]
  | TEndArray => ["]"%char]
  | TComma => [","%char]
  | TColon => [":"%char]
  | TString body => dquote :: body ++ [dquote]
  | TLiteral text => text
  | TUnterminated => []
  end.

Definition withoutSpace (ts : list token) : bytes :=
  List.concat (map tokenText ts).

(** A parsed JSON text.  The field map of a document is the list of
    fields of its [JObject]: the keys and, for each key, a value whose
    constructor is the type of the value. *)
#[warnings="-register-all"]
Inductive jtree : Type :=
| JLiteral (text : bytes)
| JString (body : bytes)
| JArray (elems : list jtree)
| JObject (fields : list (bytes * jtree)).

Definition andThen {A B : Type} (a : option A) (k : A -> option B)
  : option B :=
  match a with
  | Some x => k x
  | None => None
  end.

(** The parser, by recursive descent; [fuel] bounds the depth of the
    recursion and [parseJSON] supplies more than a text can use. *)
Fixpoint parseValue (fuel : nat) (ts : list token)
  : option (jtree * list token) :=
  match fuel with
  | O => None
  | S fuel =>
      match ts with
      | TLiteral text :: ts' => Some (JLiteral text, ts')
      | TString body :: ts' => Some (JString body, ts')
      | TBeginArray :: TEndArray :: ts' => Some (JArray [], ts')
      | TBeginArray :: ts' =>
          andThen (parseValue fuel ts') (fun r =>
          andThen (parseElems fuel (snd r)) (fun rs =>
          Some (JArray (fst r :: fst rs), snd rs)))
      | TBeginObject :: TEndObject :: ts' => Some (JObject [], ts')
      | TBeginObject :: TString key :: TColon :: ts' =>
          andThen (parseValue fuel ts') (fun r =>
          andThen (parseFields fuel (snd r)) (fun rs =>
          Some (JObject ((key, fst r) :: fst rs), snd rs)))
      | _ => None
      end
  end
with parseElems (fuel : nat) (ts : list token)
  : option (list jtree * list token) :=
  match fuel with
  | O => None
  | S fuel =>
      match ts with
      | TEndArray :: ts' => Some ([], ts')
      | TComma :: ts' =>
          andThen (parseValue fuel ts') (fun r =>
          andThen (parseElems fuel (snd r)) (fun rs =>
          Some (fst r :: fst rs, snd rs)))
      | _ => None
      end
  end
with parseFields (fuel : nat) (ts : list token)
  : option (list (bytes * jtree) * list token) :=
  match fuel with
  | O => None
  | S fuel =>
      match ts with
      | TEndObject :: ts' => Some ([], ts')
      | TComma :: TString key :: TColon :: ts' =>
          andThen (parseValue fuel ts') (fun r =>
          andThen (parseFields fuel (snd r)) (fun rs =>
          Some ((key, fst r) :: fst rs, snd rs)))
      | _ => None
      end
  end.

(** Parsing a JSON text: all of it must be one value. *)
Definition parseJSON (text : string) : option jtree :=
  let ts := lex lexBetween (bytesOf text) in
  match parseValue (S (List.length ts)) ts with
  | Some (t, []) => Some t
  | _ => None
  end.

(** The tokens and the compact text of a parsed value. *)
Fixpoint tokensOf (t : jtree) : list token :=
  match t with
  | JLiteral text => [TLiteral text]
  | JString body => [TString body]
  | JArray elems =>
      TBeginArray :: join [TComma] (map tokensOf elems) ++ [TEndArray]
  | JObject fields =>
      TBeginObject
        :: join [TComma]
             (map (fun kv => TString (fst kv) :: TColon :: tokensOf (snd kv))
                fields)
        ++ [TEndObject]
  end.

Definition renderField (kv : bytes * bytes) : bytes :=
  dquote :: fst kv ++ dquote :: ":"%char :: snd kv.

Fixpoint render (t : jtree) : bytes :=
  match t with
  | JLiteral text => text
  | JString body => dquote :: body ++ [dquote]
  | JArray elems => "["%char :: join [","%char] (map render elems) ++ ["]"%char]
  | JObject fields =>
      "{"%char
        :: join [","%char]
             (map (fun kv => renderField (fst kv, render (snd kv))) fields)
        ++ ["}"%char]
  end.

(** The bytes a literal is made of: no white space, no punctuation, no
    quote. *)
Definition literalByte (c : ascii) : bool :=
  negb (isSpace c)
  && match punctuation c with Some _ => false | None => true end
  && negb (Ascii.eqb c dquote).

(** A string body is closed when every quote in it is escaped and it
    does not end inside an escape; [esc] says that the byte before was a
    backslash that starts an escape. *)
Fixpoint closed (esc : bool) (body : bytes) : bool :=
  match body with
  | [] => negb esc
  | c :: rest =>
      if esc then closed false rest
      else if Ascii.eqb c dquote then false
      else if Ascii.eqb c backslash then closed true rest
      else closed false rest
  end.

(** Well-formed trees: the ones whose text the lexer reads back. *)
Fixpoint wellFormed (t : jtree) : bool :=
  match t with
  | JLiteral text =>
      match text with
      | [] => false
      | _ => forallb literalByte text
      end
  | JString body => closed false body
  | JArray elems => forallb wellFormed elems
  | JObject fields =>
      forallb (fun kv => closed false (fst kv) && wellFormed (snd kv)) fields
  end.

(** ** Vocabulary of the proofs *)

(** The calls of a streaming operation: the stream is opened, [Next] is
    called [n] times, and [Stop] comes last. *)
Definition streamed (q : Query) (n : nat) : list Call :=
  CallDocuments q :: repeat CallNext n ++ [CallStop].

(** The query a streaming command opens, and the state in which it
    opens it. *)
Definition opQuery (inv : Invocation) (s : State) (cmd : Command)
    (args : list string) : Query :=
  match cmd, args with
  | whereCmd, path :: op :: arg :: _ => filtered inv s path op arg
  | _, _ => allDocuments inv s
  end.

Definition opStart (inv : Invocation) (s : State) (cmd : Command)
    (args : list string) : State :=
  match cmd, args with
  | whereCmd, path :: op :: arg :: _ => announced inv s path op arg
  | _, _ => s
  end.

(** The key [validateRequiredParams] reports: the first of [project]
    and [collection] whose merged setting is empty. *)
Definition undefinedKey (inv : Invocation) (s : State) : option string :=
  if (setting inv s "project" =? EmptyString)%string then Some "project"%string
  else if (setting inv s "collection" =? EmptyString)%string
       then Some "collection"%string
       else None.

Definition undefined (key : string) : error :=
  errorString (key +++ " undefined").

(** The state [preRunE] leaves when the settings are defined: [verbose]
    is set from the flag and the client is asked for. *)
Definition prepared (inv : Invocation) (s : State) : State :=
  set_client
    (match new_client inv with
     | Some _ => None
     | None => Some (setting inv s "project")
     end)
    (record (CallNewClient (setting inv s "project"))
       (set_verbose (flag_verbose inv) s)).


(** What [ParseInt] makes of the result of [ParseUint], by the sign. *)
Definition signedOf (neg : bool) (r : Z * option numError)
  : Z * option numError :=
  let (un, err) := r in
  match err with
  | Some ErrSyntax => (0, err)
  | _ =>
      let cutoff := uint64 (Z.shiftl 1 (32 - 1)) in
      if negb neg && (un >=? cutoff) then (int64 (cutoff - 1), Some ErrRange)
      else if neg && (un >? cutoff) then (int64 (- int64 cutoff), Some ErrRange)
      else
        let n := int64 un in
        (if neg then int64 (- n) else n, None)
  end.

(** A rest that does not continue a literal. *)
Definition ends (rest : bytes) : bool :=
  match rest with
  | [] => true
  | c :: _ => negb (literalByte c)
  end.

(** A rest that may follow the text of a value: nothing, a comma, or a
    closing bracket. *)
Definition follows (rest : bytes) : bool :=
  match rest with
  | [] => true
  | c :: _ =>
      Ascii.eqb c ","%char || Ascii.eqb c "}"%char || Ascii.eqb c "]"%char
  end.

(** A text [text] reads as [toks] under [Indent] when the lexer finds
    [toks] in what [Indent] writes for it, whatever comes before and
    after. *)
Definition indentReads (pre ind : bytes) (text : bytes) (toks : list token)
  : Prop :=
  forall (ni : bool) (d : Z) (rest : bytes),
    follows rest = true ->
    lex lexBetween (indentLoop pre ind stateBetween ni d (text ++ rest))
    = toks
        ++ lex lexBetween
             (indentLoop pre ind stateBetween false (if ni then d + 1 else d)
                rest).

(** A value that encodes is the compact text of a well-formed tree. *)
Definition encodesTree (v : value) : Prop :=
  forall b, encode v = inr b ->
            exists t, wellFormed t = true /\ render t = b.

(** A tree parses back from its tokens, with any fuel that is not less
    than their number. *)
Definition parsesBack (t : jtree) : Prop :=
  forall fuel rest,
    (List.length (tokensOf t) <= fuel)%nat ->
    parseValue fuel (tokensOf t ++ rest) = Some (t, rest).


(** The text of the sample document under a setting of [prettyprint]. *)
Definition sampleText (pp : bool) : string :=
  match json pp (Data (sampleDoc 30)) with
  | inr b => string_of_list_ascii b
  | inl _ => EmptyString
  end.

(** A state whose configuration file sets [prettyprint]. *)
Definition prettyState : State :=
  set_viper_config
    (Some {| file_project := None; file_collection := None;
             file_prettyprint := Some true |}) initial.


(** The bound lets the loop fetch one more item after [n] documents. *)
Definition reaches (inv : Invocation) (n : nat) : Prop :=
  flag_unlimited inv = true
  \/ Z.of_nat n < flag_limit inv <= 2 ^ 63 - 1.

(** ** Vocabulary of the further properties *)

(** An invocation with another [--limit]. *)
Definition withLimit (limit : Z) (inv : Invocation) : Invocation :=
  {| flag_collection := flag_collection inv;
     flag_project := flag_project inv;
     flag_prettyprint := flag_prettyprint inv;
     flag_verbose := flag_verbose inv;
     flag_limit := limit;
     flag_unlimited := flag_unlimited inv;
     FIRESTORE_EMULATOR_HOST := FIRESTORE_EMULATOR_HOST inv;
     home_dir := home_dir inv;
     config_file := config_file inv;
     new_client := new_client inv;
     store_get := store_get inv;
     store_documents := store_documents inv |}.

(** What [get] prints first when [verbose] is set, and the state in
    which it has asked the store for the document. *)
Definition finding (inv : Invocation) (s : State) (documentID : string)
  : string :=
  "Finding (ProjectID:" +++ setting inv s "project" +++ ", CollectionPath:"
  +++ setting inv s "collection" +++ ", ID:" +++ documentID
  +++ ", Emulator:" +++ formatBool (emulator inv) +++ ")" +++ nl.

Definition fetching (inv : Invocation) (s : State) (documentID : string)
  : State :=
  record (CallGet (setting inv s "collection") documentID)
    (if verbose s then write (finding inv s documentID) s else s).

(** The lines [get] has printed by then. *)
Definition found (inv : Invocation) (documentID : string) (s1 : State)
  : list string :=
  if flag_verbose inv then [finding inv s1 documentID] else [].

(** An invocation with [--verbose] given or not. *)
Definition withVerbose (b : bool) (inv : Invocation) : Invocation :=
  {| flag_collection := flag_collection inv;
     flag_project := flag_project inv;
     flag_prettyprint := flag_prettyprint inv;
     flag_verbose := b;
     flag_limit := flag_limit inv;
     flag_unlimited := flag_unlimited inv;
     FIRESTORE_EMULATOR_HOST := FIRESTORE_EMULATOR_HOST inv;
     home_dir := home_dir inv;
     config_file := config_file inv;
     new_client := new_client inv;
     store_get := store_get inv;
     store_documents := store_documents inv |}.

(** An invocation with [--prettyprint] given, as [true] or [false]. *)
Definition withPrettyprint (b : bool) (inv : Invocation) : Invocation :=
  {| flag_collection := flag_collection inv;
     flag_project := flag_project inv;
     flag_prettyprint := Some b;
     flag_verbose := flag_verbose inv;
     flag_limit := flag_limit inv;
     flag_unlimited := flag_unlimited inv;
     FIRESTORE_EMULATOR_HOST := FIRESTORE_EMULATOR_HOST inv;
     home_dir := home_dir inv;
     config_file := config_file inv;
     new_client := new_client inv;
     store_get := store_get inv;
     store_documents := store_documents inv |}.

(** The setting of a string key as the command line and the
    configuration file give it: the flag when it was given, else the
    value in the configuration file that was found, else the empty
    string. *)
Definition merged (inv : Invocation) (key : string) : string :=
  match boundString inv key with
  | Some v => v
  | None =>
      match config_file inv with
      | Some (inr f) =>
          match fileString f key with
          | Some v => v
          | None => EmptyString
          end
      | _ => EmptyString
      end
  end.

(** A sample run with a configuration file that names a project and a
    collection, and the flags as given. *)
Definition configuredRun (project collection : option string)
    (items : DocumentIterator) : Invocation :=
  sampleRun project collection 100 false (inr "/home/ada"%string)
    (Some (inr {| file_project := Some "filed"%string;
                  file_collection := Some "archive"%string;
                  file_prettyprint := None |}))
    items.

(** A sample run of [get]: the settings given by flags, and a store that
    answers [answer] to every fetch. *)
Definition fetchRun (verbose : bool) (answer : error + DocumentSnapshot)
  : Invocation :=
  {| flag_collection := Some "users"%string;
     flag_project := Some "demo"%string;
     flag_prettyprint := None;
     flag_verbose := verbose;
     flag_limit := 100;
     flag_unlimited := false;
     FIRESTORE_EMULATOR_HOST := EmptyString;
     home_dir := inr "/home/ada"%string;
     config_file := None;
     new_client := None;
     store_get := fun _ _ => answer;
     store_documents := fun _ => [] |}.

(** * Proofs *)

(** ** The loop of [iterate] *)

Lemma prettyprint_write inv text s :
  prettyprint inv (write text s) = prettyprint inv s.
Proof. reflexivity. Qed.

Lemma prettyprint_record inv c s :
  prettyprint inv (record c s) = prettyprint inv s.
Proof. reflexivity. Qed.

Lemma iterateLoop_done limit unlimited c inv s :
  iterateLoop limit unlimited [] c inv s = Returned None (record CallNext s).
Proof. reflexivity. Qed.

Lemma iterateLoop_error limit unlimited err rest c inv s :
  iterateLoop limit unlimited (inl err :: rest) c inv s
  = Returned (Some (withMessage err "unable to iterate documents"))
      (record CallNext s).
Proof. reflexivity. Qed.

Lemma iterateLoop_doc limit unlimited doc rest c inv s :
  iterateLoop limit unlimited (inr doc :: rest) c inv s
  = match json (prettyprint inv s) (Data doc) with
    | inl err =>
        Returned (Some (withMessage err "unable to marshal document to json"))
          (record CallNext s)
    | inr b =>
        let s' := write (string_of_list_ascii b +++ nl) (record CallNext s) in
        if negb unlimited && (c >=? limit) then Returned None s'
        else iterateLoop limit unlimited rest (int (c + 1)) inv s'
    end.
Proof.
  cbn [iterateLoop]. unfold bind at 1. cbn [modify].
  unfold bind at 1. unfold jsonString, bind at 1.
  unfold viper_GetBool_prettyprint. rewrite prettyprint_record.
  unfold json. destruct (prettyprint inv s).
  - destruct (MarshalIndent (Data doc) "" "  ") as [err | b];
      [reflexivity |].
    unfold ret, bind, fmt_Println, modify; cbn [snd fst].
    now destruct (negb unlimited && (c >=? limit)).
  - destruct (Marshal (Data doc)) as [err | b]; [reflexivity |].
    unfold ret, bind, fmt_Println, modify; cbn [snd fst].
    now destruct (negb unlimited && (c >=? limit)).
Qed.

Lemma printed_app pp docs1 docs2 s :
  printed pp (docs1 ++ docs2) s = printed pp docs2 (printed pp docs1 s).
Proof. apply fold_left_app. Qed.

Lemma printed_stdout pp docs s :
  stdout (printed pp docs s) = stdout s ++ map (line pp) docs.
Proof.
  revert s. induction docs as [| doc docs IH]; intros s; cbn.
  - now rewrite app_nil_r.
  - unfold printed in IH. rewrite IH. cbn. now rewrite <- app_assoc.
Qed.

Lemma printed_calls pp docs s :
  calls (printed pp docs s) = calls s ++ repeat CallNext (List.length docs).
Proof.
  revert s. induction docs as [| doc docs IH]; intros s; cbn.
  - now rewrite app_nil_r.
  - unfold printed in IH. rewrite IH. cbn. now rewrite <- app_assoc.
Qed.

Lemma printed_rest pp docs s :
  viper_config (printed pp docs s) = viper_config s
  /\ client (printed pp docs s) = client s
  /\ verbose (printed pp docs s) = verbose s.
Proof.
  revert s. induction docs as [| doc docs IH]; intros s; cbn.
  - auto.
  - unfold printed in IH. destruct (IH (write (line pp doc) (record CallNext s)))
      as (H1 & H2 & H3). rewrite H1, H2, H3. auto.
Qed.

Lemma prettyprint_printed inv pp docs s :
  prettyprint inv (printed pp docs s) = prettyprint inv s.
Proof.
  unfold prettyprint. now destruct (printed_rest pp docs s) as (-> & _).
Qed.

(** As long as the bound does not stop it, the loop prints one document
    after the other. *)
Lemma iterateLoop_run limit unlimited docs rest c inv s :
  Forall (serializes (prettyprint inv s)) docs ->
  (forall i, (i < List.length docs)%nat ->
             negb unlimited && (counter i c >=? limit) = false) ->
  iterateLoop limit unlimited (map inr docs ++ rest) c inv s
  = iterateLoop limit unlimited rest (counter (List.length docs) c) inv
      (printed (prettyprint inv s) docs s).
Proof.
  revert c s. induction docs as [| doc docs IH]; intros c s Hser Hgo.
  - reflexivity.
  - inversion Hser as [| ? ? [b Hb] Hser']; subst.
    cbn [map app]. rewrite iterateLoop_doc, Hb. cbn zeta.
    pose proof (Hgo 0%nat ltac:(cbn; lia)) as H0.
    change (counter 0 c) with c in H0. rewrite H0.
    rewrite IH.
    + cbn [List.length]. unfold printed at 2. cbn [fold_left].
      unfold line. rewrite Hb.
      replace (counter (S (List.length docs)) c)
        with (counter (List.length docs) (int (c + 1))).
      * reflexivity.
      * unfold counter. now rewrite Nat.iter_succ_r.
    + exact Hser'.
    + intros i Hi. specialize (Hgo (S i)).
      unfold counter in *. rewrite Nat.iter_succ_r in Hgo.
      apply Hgo. cbn. lia.
Qed.

Lemma counter_small n c :
  - 2 ^ 63 <= c -> c + Z.of_nat n <= 2 ^ 63 - 1 ->
  counter n c = c + Z.of_nat n.
Proof.
  revert c. induction n as [| n IH]; intros c Hlo Hhi.
  - cbn. lia.
  - unfold counter. rewrite Nat.iter_succ_r. fold (counter n (int (c + 1))).
    assert (Hc : int (c + 1) = c + 1).
    { unfold int, int64. rewrite Z.mod_small; lia. }
    rewrite Hc, IH; lia.
Qed.

(** The loop always returns: it neither exits the process nor panics. *)
Lemma iterateLoop_returns limit unlimited iter c inv s :
  exists r s', iterateLoop limit unlimited iter c inv s = Returned r s'.
Proof.
  revert c s. induction iter as [| [err | doc] rest IH]; intros c s.
  - eexists _, _. apply iterateLoop_done.
  - eexists _, _. apply iterateLoop_error.
  - rewrite iterateLoop_doc.
    destruct (json (prettyprint inv s) (Data doc)) as [err | b].
    + eexists _, _. reflexivity.
    + cbn zeta. destruct (negb unlimited && (c >=? limit)).
      * eexists _, _. reflexivity.
      * apply IH.
Qed.

(** ** The two streaming operations *)

Lemma iterate_bound cmd iter inv s :
  hasBoundFlags cmd = true ->
  iterate cmd iter inv s
  = iterateLoop (flag_limit inv) (flag_unlimited inv) iter 1 inv s.
Proof.
  intros Hcmd. unfold iterate, Flags_GetInt, Flags_GetBool, bind, ask, ret.
  cbn. rewrite Hcmd. reflexivity.
Qed.

(** [defer iter.Stop()] around a loop that returns. *)
Lemma defer_Stop_returned iter (body : M (option error)) inv s r s' :
  body inv s = Returned r s' ->
  defer (Stop iter) body inv s = Returned r (record CallStop s').
Proof. intros H. unfold defer. now rewrite H. Qed.

Lemma documents_opens args inv s r s' :
  client s <> None ->
  namesCollection (setting inv s "collection") = true ->
  iterateLoop (flag_limit inv) (flag_unlimited inv)
    (store_documents inv (allDocuments inv s)) 1 inv
    (record (CallDocuments (allDocuments inv s)) s) = Returned r s' ->
  documents documentsCmd args inv s = Returned r (record CallStop s').
Proof.
  intros Hclient Hpath Hloop.
  destruct (client s) as [p |] eqn:Hp; [| congruence].
  unfold documents, collection, viper_GetString, Documents.
  unfold CollectionRef_Query, Client_Collection.
  unfold bind, ret, ask, get_state, modify. rewrite Hp.
  cbn [ref_nil ref_path]. rewrite Hpath. cbn [negb].
  apply defer_Stop_returned.
  rewrite iterate_bound by reflexivity. exact Hloop.
Qed.

Lemma where_opens path op arg more inv s r s' :
  client s <> None ->
  namesCollection (setting inv s "collection") = true ->
  iterateLoop (flag_limit inv) (flag_unlimited inv)
    (store_documents inv (filtered inv s path op arg)) 1 inv
    (record (CallDocuments (filtered inv s path op arg))
       (announced inv s path op arg)) = Returned r s' ->
  where_ whereCmd (path :: op :: arg :: more) inv s
  = Returned r (record CallStop s').
Proof.
  intros Hclient Hpath Hloop.
  destruct (client s) as [p |] eqn:Hp; [| congruence].
  unfold where_, Flags_GetBool, collection, viper_GetString, Documents.
  unfold CollectionRef_Query, Client_Collection.
  unfold fmt_Print, bind, ret, ask, get_state, modify.
  cbn [String.eqb Ascii.eqb Bool.eqb].
  unfold announced, filtered in Hloop.
  destruct (flag_verbose inv); cbn [client write]; rewrite Hp;
    cbn [ref_nil ref_path];
    match goal with
    | |- context [namesCollection ?path] =>
        change path with (setting inv s "collection")
    end;
    rewrite Hpath; cbn [negb];
    apply defer_Stop_returned; rewrite iterate_bound by reflexivity;
    exact Hloop.
Qed.

(** A path that names no collection: the [nil] reference is
    dereferenced where the stream would be opened, after the notice of
    [where]. *)
Lemma operation_nil cmd args inv s :
  cmd <> getCmd -> ValidateArgs cmd args = None -> client s <> None ->
  namesCollection (setting inv s "collection") = false ->
  RunE cmd args inv s = Panicked nilDereference (opStart inv s cmd args).
Proof.
  intros Hcmd Hargs Hclient Hpath.
  destruct (client s) as [p |] eqn:Hp; [| congruence].
  destruct cmd; [congruence | |]; cbn [RunE].
  - destruct args as [| path [| op [| arg [| x more]]]]; try discriminate.
    unfold where_, Flags_GetBool, collection, viper_GetString.
    unfold CollectionRef_Query, Client_Collection.
    unfold fmt_Print, bind, ret, ask, get_state, modify, panic.
    cbn [String.eqb Ascii.eqb Bool.eqb opStart]. unfold announced.
    destruct (flag_verbose inv); cbn [client write]; rewrite Hp;
      cbn [ref_nil ref_path];
      match goal with
      | |- context [namesCollection ?path] =>
          change path with (setting inv s "collection")
      end;
      rewrite Hpath; reflexivity.
  - unfold documents, collection, viper_GetString.
    unfold CollectionRef_Query, Client_Collection.
    unfold bind, ret, ask, get_state, modify, panic. rewrite Hp.
    cbn [ref_nil ref_path]. rewrite Hpath.
    destruct args as [| path [| op [| arg more]]]; reflexivity.
Qed.

Lemma repeat_snoc {A : Type} (x : A) n l :
  repeat x n ++ x :: l = x :: repeat x n ++ l.
Proof. induction n as [| n IH]; cbn; [| rewrite IH]; reflexivity. Qed.

Lemma filter_isStop_repeat n : filter isStop (repeat CallNext n) = [].
Proof. induction n; cbn; auto. Qed.

Lemma filter_isDocuments_repeat n :
  filter isDocuments (repeat CallNext n) = [].
Proof. induction n; cbn; auto. Qed.

Lemma streamed_once q n :
  List.length (filter isStop (streamed q n)) = 1%nat
  /\ List.length (filter isDocuments (streamed q n)) = 1%nat
  /\ last (streamed q n) CallNext = CallStop.
Proof.
  unfold streamed. cbn [filter isStop isDocuments].
  rewrite !filter_app, filter_isStop_repeat, filter_isDocuments_repeat.
  repeat split.
  now rewrite app_comm_cons, last_last.
Qed.

(** The loop on a run of documents that serialize, from counter 1 and
    a state [s]: how it ends, by what follows the run. *)
Section Loop.

Variable inv : Invocation.
Variable s : State.
Variable docs : list DocumentSnapshot.

Let pp := prettyprint inv s.
Let limit := flag_limit inv.
Let unlimited := flag_unlimited inv.

Hypothesis Hser : Forall (serializes pp) docs.

(** Unlimited: the loop does not stop at the bound. *)
Lemma run_unlimited rest :
  unlimited = true ->
  iterateLoop limit unlimited (map inr docs ++ rest) 1 inv s
  = iterateLoop limit unlimited rest (counter (List.length docs) 1) inv
      (printed pp docs s).
Proof.
  intros Hun. apply iterateLoop_run; [exact Hser |].
  intros i _. now rewrite Hun.
Qed.

(** Limited: the loop does not stop while the counter is below the
    limit. *)
Lemma run_below rest :
  Z.of_nat (List.length docs) < limit -> limit <= 2 ^ 63 - 1 ->
  iterateLoop limit unlimited (map inr docs ++ rest) 1 inv s
  = iterateLoop limit unlimited rest (1 + Z.of_nat (List.length docs)) inv
      (printed pp docs s).
Proof.
  intros Hlt Hmax. rewrite iterateLoop_run; [| exact Hser |].
  - rewrite counter_small by lia. reflexivity.
  - intros i Hi. rewrite counter_small by lia.
    rewrite Z.geb_leb. replace (limit <=? 1 + Z.of_nat i) with false.
    + apply andb_false_r.
    + symmetry. apply Z.leb_gt. lia.
Qed.

End Loop.

(** The loop stops after the document that brings the counter to the
    limit. *)
Lemma iterateLoop_stops limit doc rest c inv s :
  serializes (prettyprint inv s) doc -> limit <= c ->
  iterateLoop limit false (inr doc :: rest) c inv s
  = Returned None (printed (prettyprint inv s) [doc] s).
Proof.
  intros [b Hb] Hc. rewrite iterateLoop_doc, Hb. cbn zeta.
  rewrite Z.geb_leb. replace (limit <=? c) with true.
  - cbn. unfold line. now rewrite Hb.
  - symmetry. apply Z.leb_le. exact Hc.
Qed.

(** The loop ends with the error of a document that does not
    serialize. *)
Lemma iterateLoop_unserializable limit unlimited doc err rest c inv s :
  json (prettyprint inv s) (Data doc) = inl err ->
  iterateLoop limit unlimited (inr doc :: rest) c inv s
  = Returned (Some (withMessage err "unable to marshal document to json"))
      (record CallNext s).
Proof. intros H. now rewrite iterateLoop_doc, H. Qed.

(** The loop leaves the configuration and the globals alone; all it
    adds to the calls are calls of [Next]. *)
Lemma iterateLoop_calls limit unlimited iter c inv s r s' :
  iterateLoop limit unlimited iter c inv s = Returned r s' ->
  exists n, calls s' = calls s ++ repeat CallNext (S n).
Proof.
  revert c s. induction iter as [| [err | doc] rest IH]; intros c s H.
  - rewrite iterateLoop_done in H. inversion H; subst. now exists 0%nat.
  - rewrite iterateLoop_error in H. inversion H; subst. now exists 0%nat.
  - rewrite iterateLoop_doc in H.
    destruct (json (prettyprint inv s) (Data doc)) as [err | b].
    + inversion H; subst. now exists 0%nat.
    + cbn zeta in H. destruct (negb unlimited && (c >=? limit)).
      * inversion H; subst. now exists 0%nat.
      * apply IH in H. destruct H as [n Hn]. exists (S n).
        rewrite Hn. cbn [calls write record]. rewrite <- app_assoc.
        reflexivity.
Qed.

(** ** The streaming operations, uniformly *)

Lemma opStart_same inv s cmd args :
  exists notice,
    stdout (opStart inv s cmd args) = stdout s ++ notice
    /\ calls (opStart inv s cmd args) = calls s
    /\ prettyprint inv (opStart inv s cmd args) = prettyprint inv s
    /\ (cmd = documentsCmd -> notice = []).
Proof.
  unfold opStart.
  assert (Hs : exists notice : list string,
             stdout s = stdout s ++ notice /\ calls s = calls s
             /\ prettyprint inv s = prettyprint inv s
             /\ (cmd = documentsCmd -> notice = [])).
  { exists []. now rewrite app_nil_r. }
  destruct cmd; try exact Hs.
  destruct args as [| path [| op [| arg more]]]; try exact Hs.
  unfold announced. destruct (flag_verbose inv).
  - eexists. cbn. repeat split. discriminate.
  - exists []. rewrite app_nil_r. repeat split.
Qed.

Lemma operation_opens cmd args inv s r s' :
  cmd <> getCmd -> ValidateArgs cmd args = None -> client s <> None ->
  namesCollection (setting inv s "collection") = true ->
  iterateLoop (flag_limit inv) (flag_unlimited inv)
    (store_documents inv (opQuery inv s cmd args)) 1 inv
    (record (CallDocuments (opQuery inv s cmd args)) (opStart inv s cmd args))
  = Returned r s' ->
  RunE cmd args inv s = Returned r (record CallStop s').
Proof.
  intros Hcmd Hargs Hclient Hpath Hloop. destruct cmd; [congruence | |].
  - destruct args as [| path [| op [| arg [| x more]]]]; try discriminate.
    now apply where_opens.
  - apply documents_opens; [exact Hclient | exact Hpath |].
    destruct args as [| path [| op [| arg more]]]; exact Hloop.
Qed.

(** ** Claims about the iteration bound *)

(** C1.  [documents] with a positive limit [N], [unlimited] unset, on a
    collection (the configured path names one) that holds at least [N]
    documents: the counter starts at
    1, each of the first [N] documents is fetched and printed, in the
    store's order, and the loop stops when the counter reaches the
    limit, so exactly [N] lines are printed and [Next] is called [N]
    times. *)
Theorem documents_limit_renders_limit :
  forall (inv : Invocation) (s : State) (args : list string)
         (docs : list DocumentSnapshot) (rest : DocumentIterator),
    client s <> None ->
    namesCollection (setting inv s "collection") = true ->
    flag_unlimited inv = false ->
    0 < flag_limit inv <= 2 ^ 63 - 1 ->
    Z.of_nat (List.length docs) = flag_limit inv ->
    store_documents inv (allDocuments inv s) = map inr docs ++ rest ->
    Forall (serializes (prettyprint inv s)) docs ->
    exists s',
      documents documentsCmd args inv s = Returned None s'
      /\ stdout s' = stdout s ++ map (line (prettyprint inv s)) docs
      /\ Z.of_nat (List.length (map (line (prettyprint inv s)) docs))
         = flag_limit inv
      /\ counter (List.length docs - 1) 1 = flag_limit inv
      /\ calls s'
         = calls s ++ streamed (allDocuments inv s) (List.length docs).
Proof.
  intros inv s args docs rest Hclient Hpath Hun Hlimit Hlen Hstore Hser.
  destruct (exists_last (l := docs)) as (front & doc & ->).
  { intros ->. cbn in Hlen. lia. }
  rewrite length_app in Hlen. cbn [List.length] in Hlen.
  apply Forall_app in Hser. destruct Hser as [Hfront Hdoc].
  inversion Hdoc as [| ? ? Hdoc' _]; subst.
  set (s0 := record (CallDocuments (allDocuments inv s)) s).
  assert (Hloop :
    iterateLoop (flag_limit inv) (flag_unlimited inv)
      (store_documents inv (allDocuments inv s)) 1 inv s0
    = Returned None (printed (prettyprint inv s) (front ++ [doc]) s0)).
  { rewrite Hstore, map_app, <- app_assoc. cbn [map app].
    rewrite (run_below inv s0 front Hfront) by lia.
    rewrite Hun, iterateLoop_stops.
    - rewrite prettyprint_printed, printed_app. reflexivity.
    - now rewrite prettyprint_printed.
    - lia. }
  eexists. split; [| split; [| split; [| split]]].
  - apply (documents_opens args inv s _ _ Hclient Hpath Hloop).
  - cbn [stdout record]. now rewrite printed_stdout.
  - rewrite length_map, length_app. cbn [List.length]. lia.
  - rewrite length_app. cbn [List.length].
    rewrite counter_small by lia. lia.
  - cbn [calls record]. rewrite printed_calls. subst s0. cbn [calls record].
    unfold streamed. rewrite <- !app_assoc. reflexivity.
Qed.

(** C10.  With [unlimited] unset and a limit of zero or less, a
    streaming operation on a collection (the configured path names one)
    whose stream starts with a document still prints that document, and
    only that one: the bound is tested after the document is printed. *)
Theorem nonpositive_limit_renders_one :
  forall (cmd : Command) (args : list string) (inv : Invocation) (s : State)
         (doc : DocumentSnapshot) (rest : DocumentIterator),
    cmd <> getCmd ->
    ValidateArgs cmd args = None ->
    client s <> None ->
    namesCollection (setting inv s "collection") = true ->
    flag_unlimited inv = false ->
    flag_limit inv <= 0 ->
    store_documents inv (opQuery inv s cmd args) = inr doc :: rest ->
    serializes (prettyprint inv s) doc ->
    exists s',
      RunE cmd args inv s = Returned None s'
      /\ stdout s'
         = stdout (opStart inv s cmd args) ++ [line (prettyprint inv s) doc]
      /\ calls s' = calls s ++ streamed (opQuery inv s cmd args) 1.
Proof.
  intros cmd args inv s doc rest Hcmd Hargs Hclient Hpath Hun Hlimit Hstore Hser.
  destruct (opStart_same inv s cmd args) as (notice & Hout & Hcalls & Hpp & _).
  set (s0 := record (CallDocuments (opQuery inv s cmd args))
               (opStart inv s cmd args)).
  assert (Hloop :
    iterateLoop (flag_limit inv) (flag_unlimited inv)
      (store_documents inv (opQuery inv s cmd args)) 1 inv s0
    = Returned None (printed (prettyprint inv s) [doc] s0)).
  { rewrite Hstore, Hun, iterateLoop_stops.
    - subst s0. now rewrite prettyprint_record, Hpp.
    - subst s0. now rewrite prettyprint_record, Hpp.
    - lia. }
  eexists. split; [| split].
  - apply (operation_opens cmd args inv s _ _ Hcmd Hargs Hclient Hpath Hloop).
  - cbn [stdout record]. rewrite printed_stdout. reflexivity.
  - cbn [calls record]. rewrite printed_calls. subst s0. cbn [calls record].
    rewrite Hcalls. unfold streamed. rewrite <- !app_assoc. reflexivity.
Qed.

(** C6.  When the [k]-th document of the stream of a streaming operation
    on a collection (the configured path names one) does not serialize,
    and the [k - 1] documents before it do and the bound lets the loop
    reach it, the operation returns the encoder's
    error (wrapped by [jsonString]); the [k - 1] lines printed before
    stay on standard output, [Next] was called [k] times and never
    again, and the stream is stopped. *)
Theorem serialization_error_aborts_stream :
  forall (cmd : Command) (args : list string) (inv : Invocation) (s : State)
         (before : list DocumentSnapshot) (doc : DocumentSnapshot)
         (err : error) (rest : DocumentIterator),
    cmd <> getCmd ->
    ValidateArgs cmd args = None ->
    client s <> None ->
    namesCollection (setting inv s "collection") = true ->
    store_documents inv (opQuery inv s cmd args)
    = map inr before ++ inr doc :: rest ->
    Forall (serializes (prettyprint inv s)) before ->
    json (prettyprint inv s) (Data doc) = inl err ->
    flag_unlimited inv = true
    \/ Z.of_nat (List.length before) < flag_limit inv <= 2 ^ 63 - 1 ->
    exists s',
      RunE cmd args inv s
      = Returned (Some (withMessage err "unable to marshal document to json"))
          s'
      /\ stdout s'
         = stdout (opStart inv s cmd args)
             ++ map (line (prettyprint inv s)) before
      /\ calls s'
         = calls s
             ++ streamed (opQuery inv s cmd args) (S (List.length before)).
Proof.
  intros cmd args inv s before doc err rest Hcmd Hargs Hclient Hpath Hstore
    Hser Hbad Hreach.
  destruct (opStart_same inv s cmd args) as (notice & Hout & Hcalls & Hpp & _).
  set (s0 := record (CallDocuments (opQuery inv s cmd args))
               (opStart inv s cmd args)).
  assert (Hpp0 : prettyprint inv s0 = prettyprint inv s).
  { subst s0. now rewrite prettyprint_record. }
  assert (Hloop :
    iterateLoop (flag_limit inv) (flag_unlimited inv)
      (store_documents inv (opQuery inv s cmd args)) 1 inv s0
    = Returned (Some (withMessage err "unable to marshal document to json"))
        (record CallNext (printed (prettyprint inv s) before s0))).
  { rewrite Hstore. rewrite <- Hpp0 in Hser.
    destruct Hreach as [Hun | Hlt].
    - rewrite (run_unlimited inv s0 before Hser) by exact Hun.
      rewrite iterateLoop_unserializable with (err := err).
      + now rewrite Hpp0.
      + now rewrite prettyprint_printed, Hpp0.
    - rewrite (run_below inv s0 before Hser) by lia.
      rewrite iterateLoop_unserializable with (err := err).
      + now rewrite Hpp0.
      + now rewrite prettyprint_printed, Hpp0. }
  eexists. split; [| split].
  - apply (operation_opens cmd args inv s _ _ Hcmd Hargs Hclient Hpath Hloop).
  - cbn [stdout record]. rewrite printed_stdout. reflexivity.
  - cbn [calls record]. rewrite printed_calls. subst s0. cbn [calls record].
    rewrite Hcalls. unfold streamed. cbn [repeat].
    rewrite <- !app_assoc. cbn [app]. now rewrite repeat_snoc.
Qed.

(** C8.  A run of [documents] or [where] on a collection (the
    configured path names one) opens one stream and stops it exactly
    once, after the last call of [Next], however the loop ends:
    at the end of the stream, at an error of the stream or of the
    encoder, or at the bound. *)
Theorem stream_stopped_exactly_once :
  forall (cmd : Command) (args : list string) (inv : Invocation) (s : State),
    cmd <> getCmd ->
    ValidateArgs cmd args = None ->
    client s <> None ->
    namesCollection (setting inv s "collection") = true ->
    exists r s' n,
      RunE cmd args inv s = Returned r s'
      /\ calls s' = calls s ++ streamed (opQuery inv s cmd args) n
      /\ List.length (filter isDocuments (streamed (opQuery inv s cmd args) n))
         = 1%nat
      /\ List.length (filter isStop (streamed (opQuery inv s cmd args) n))
         = 1%nat
      /\ last (calls s') CallNext = CallStop.
Proof.
  intros cmd args inv s Hcmd Hargs Hclient Hpath.
  destruct (opStart_same inv s cmd args) as (notice & _ & Hcalls & _ & _).
  set (s0 := record (CallDocuments (opQuery inv s cmd args))
               (opStart inv s cmd args)).
  destruct (iterateLoop_returns (flag_limit inv) (flag_unlimited inv)
              (store_documents inv (opQuery inv s cmd args)) 1 inv s0)
    as (r & s1 & Hloop).
  destruct (iterateLoop_calls _ _ _ _ _ _ _ _ Hloop) as [n Hn].
  destruct (streamed_once (opQuery inv s cmd args) (S n)) as (H1 & H2 & H3).
  exists r, (record CallStop s1), (S n).
  assert (Hc : calls (record CallStop s1)
               = calls s ++ streamed (opQuery inv s cmd args) (S n)).
  { cbn [calls record]. rewrite Hn. subst s0. cbn [calls record].
    rewrite Hcalls. unfold streamed. rewrite <- !app_assoc. reflexivity. }
  split; [| split; [| split; [| split]]].
  - apply (operation_opens cmd args inv s _ _ Hcmd Hargs Hclient Hpath Hloop).
  - exact Hc.
  - exact H2.
  - exact H1.
  - cbn [calls record]. apply last_last.
Qed.

(** ** Configuration and validation *)

(** How [initConfig] ends, by what it finds. *)
Lemma initConfig_no_home inv s err :
  home_dir inv = inl err ->
  initConfig inv s = Exited 1 (write (Error err +++ nl) s).
Proof.
  intros H. unfold initConfig, homedir_Dir, bind, ask, ret. now rewrite H.
Qed.

Lemma initConfig_not_found inv s home :
  home_dir inv = inr home -> config_file inv = None ->
  initConfig inv s = Returned tt (write configNotFound s).
Proof.
  intros H1 H2. unfold initConfig, homedir_Dir, viper_ReadInConfig.
  unfold bind, ask, ret. now rewrite H1, H2.
Qed.

Lemma initConfig_loaded inv s home f :
  home_dir inv = inr home -> config_file inv = Some (inr f) ->
  initConfig inv s = Returned tt (set_viper_config (Some f) s).
Proof.
  intros H1 H2. unfold initConfig, homedir_Dir, viper_ReadInConfig.
  unfold bind, ask, ret. now rewrite H1, H2.
Qed.

Lemma initConfig_unreadable inv s home err :
  home_dir inv = inr home -> config_file inv = Some (inl err) ->
  (forall name locations, err <> ConfigFileNotFoundError name locations) ->
  initConfig inv s
  = Panicked ("Fatal error config file: " +++ Error err +++ " " +++ nl) s.
Proof.
  intros H1 H2 H3. unfold initConfig, homedir_Dir, viper_ReadInConfig.
  unfold bind, ask, ret. rewrite H1, H2.
  destruct err; try reflexivity. now destruct (H3 name locations).
Qed.

(** When [initConfig] returns, it has printed at most the notice, and
    has made no call and set no global. *)
Lemma initConfig_returned inv s s1 :
  initConfig inv s = Returned tt s1 ->
  calls s1 = calls s /\ client s1 = client s /\ verbose s1 = verbose s
  /\ (stdout s1 = stdout s \/ stdout s1 = stdout s ++ [configNotFound]).
Proof.
  unfold initConfig, homedir_Dir, viper_ReadInConfig, bind, ask, ret.
  destruct (home_dir inv) as [err | home]; [discriminate |].
  destruct (config_file inv) as [[err | f] |].
  - destruct err; try discriminate.
    intros H. inversion H; subst. cbn. auto.
  - intros H. inversion H; subst. cbn. auto.
  - intros H. inversion H; subst. cbn. auto.
Qed.

Lemma validateRequiredParams_spec inv s :
  validateRequiredParams inv s
  = Returned (option_map undefined (undefinedKey inv s)) s.
Proof.
  unfold validateRequiredParams, validateKeys, undefinedKey.
  unfold viper_GetString, bind, ret.
  destruct (setting inv s "project" =? EmptyString)%string; [reflexivity |].
  destruct (setting inv s "collection" =? EmptyString)%string; reflexivity.
Qed.

Lemma undefinedKey_some inv s :
  setting inv s "project" = EmptyString
  \/ setting inv s "collection" = EmptyString ->
  exists key,
    undefinedKey inv s = Some key
    /\ In key ["project"; "collection"]%string
    /\ setting inv s key = EmptyString.
Proof.
  intros H. unfold undefinedKey.
  destruct (String.eqb_spec (setting inv s "project") EmptyString) as [Hp | Hp].
  - exists "project"%string. cbn. auto.
  - destruct H as [H | H]; [congruence |].
    exists "collection"%string. rewrite H. cbn. auto.
Qed.

Lemma undefinedKey_none inv s :
  setting inv s "project" <> EmptyString ->
  setting inv s "collection" <> EmptyString ->
  undefinedKey inv s = None.
Proof.
  intros Hp Hc. unfold undefinedKey.
  destruct (String.eqb_spec (setting inv s "project") EmptyString);
    [congruence |].
  destruct (String.eqb_spec (setting inv s "collection") EmptyString);
    [congruence | reflexivity].
Qed.

(** [preRunE] stops at an undefined key before it touches anything. *)
Lemma preRunE_undefined cmd args inv s key :
  undefinedKey inv s = Some key ->
  preRunE cmd args inv s
  = Returned
      (Some (withMessage (undefined key) "unable to validate required params"))
      s.
Proof.
  intros H. unfold preRunE, bind at 1.
  rewrite validateRequiredParams_spec, H. reflexivity.
Qed.

Lemma preRunE_defined cmd args inv s :
  undefinedKey inv s = None ->
  preRunE cmd args inv s
  = Returned
      (match new_client inv with
       | Some err =>
           Some (withMessage
                   (withMessage err "unable to create firestore client")
                   "unable to create firestore client")
       | None => None
       end)
      (prepared inv s).
Proof.
  intros H. unfold preRunE, bind at 1.
  rewrite validateRequiredParams_spec, H. cbn [option_map].
  unfold Flags_GetBool, initFirestoreClient, firestore_NewClient.
  unfold viper_GetString, bind, ask, ret, modify, prepared.
  cbn [String.eqb Ascii.eqb Bool.eqb fst snd].
  destruct (new_client inv); reflexivity.
Qed.

Lemma prepared_same inv s :
  stdout (prepared inv s) = stdout s
  /\ calls (prepared inv s) = calls s ++ [CallNewClient (setting inv s "project")]
  /\ prettyprint inv (prepared inv s) = prettyprint inv s
  /\ (forall key, setting inv (prepared inv s) key = setting inv s key)
  /\ verbose (prepared inv s) = flag_verbose inv.
Proof. unfold prepared. repeat split. Qed.

(** ** From [Execute] to the exit status *)

Lemma append_assoc (a b c : string) : (a +++ b) +++ c = a +++ b +++ c.
Proof. induction a as [| x a IH]; cbn; [| rewrite IH]; reflexivity. Qed.

Lemma Execute_after_init cmd args inv s s1 :
  initConfig inv s = Returned tt s1 ->
  Execute cmd args inv s
  = match ValidateArgs cmd args with
    | Some err => Returned (Some err) s1
    | None =>
        match preRunE cmd args inv s1 with
        | Returned (Some err) s2 => Returned (Some err) s2
        | Returned None s2 => RunE cmd args inv s2
        | Exited code s2 => Exited code s2
        | Panicked v s2 => Panicked v s2
        end
    end.
Proof.
  intros H. unfold Execute, bind at 1. rewrite H.
  destruct (ValidateArgs cmd args); [reflexivity |].
  unfold bind. destruct (preRunE cmd args inv s1) as [[err |] s2 | |];
    reflexivity.
Qed.

Lemma main_of_Execute cmd args inv s r s' :
  Execute cmd args inv s = Returned r s' ->
  main cmd args inv s
  = match r with
    | Some err => Exited 1 (write (Error err +++ nl) s')
    | None => Returned tt s'
    end.
Proof.
  intros H. unfold main, bind at 1. rewrite H. now destruct r.
Qed.

(** C4.  If, once the configuration is merged, [project] or
    [collection] is empty, then [preRunE] returns the error that names
    the first such key and leaves the state as it was, whatever the
    command and the other flags; [main] exits with status 1 without a
    call to the store and without a client; and for arguments the
    command accepts the message it prints is that error's. *)
Theorem missing_setting_stops_in_preRunE :
  forall (cmd : Command) (args : list string) (inv : Invocation) (s1 : State),
    initConfig inv initial = Returned tt s1 ->
    setting inv s1 "project" = EmptyString
    \/ setting inv s1 "collection" = EmptyString ->
    exists key s',
      In key ["project"; "collection"]%string
      /\ setting inv s1 key = EmptyString
      /\ preRunE cmd args inv s1
         = Returned
             (Some (withMessage (errorString (key +++ " undefined"))
                      "unable to validate required params"))
             s1
      /\ main cmd args inv initial = Exited 1 s'
      /\ exitCode (main cmd args inv initial) = 1
      /\ calls s' = []
      /\ client s' = None
      /\ (ValidateArgs cmd args = None ->
          stdout s'
          = stdout s1
              ++ ["unable to validate required params: " +++ key
                  +++ " undefined" +++ nl]).
Proof.
  intros cmd args inv s1 Hinit Hempty.
  destruct (undefinedKey_some inv s1 Hempty) as (key & Hkey & Hin & Hset).
  destruct (initConfig_returned _ _ _ Hinit) as (Hcalls & Hclient & _ & _).
  pose proof (preRunE_undefined cmd args inv s1 key Hkey) as Hpre.
  pose proof (Execute_after_init cmd args inv initial s1 Hinit) as Hexec.
  rewrite Hpre in Hexec.
  destruct (ValidateArgs cmd args) as [err |] eqn:Hargs.
  - exists key, (write (Error err +++ nl) s1).
    rewrite (main_of_Execute _ _ _ _ _ _ Hexec).
    repeat split; auto; discriminate.
  - exists key,
      (write (Error (withMessage (undefined key)
                       "unable to validate required params") +++ nl) s1).
    rewrite (main_of_Execute _ _ _ _ _ _ Hexec).
    repeat split; auto.
    intros _. cbn [stdout write Error undefined].
    now rewrite !append_assoc.
Qed.

(** C2.  [documents] with [unlimited] set, in a run whose configuration
    resolves and names a project and a collection (the path is that of a
    collection), whose client is created, and whose stream yields the documents [docs], all of which
    serialize: the program prints exactly one line for each document of
    the collection, in the order of the stream, and ends with status 0.
    On the empty collection it prints nothing and still ends with
    status 0. *)
Theorem documents_unlimited_renders_all :
  forall (inv : Invocation) (args : list string) (s1 : State)
         (docs : list DocumentSnapshot),
    initConfig inv initial = Returned tt s1 ->
    setting inv s1 "project" <> EmptyString ->
    setting inv s1 "collection" <> EmptyString ->
    namesCollection (setting inv s1 "collection") = true ->
    new_client inv = None ->
    flag_unlimited inv = true ->
    store_documents inv (allDocuments inv s1) = map inr docs ->
    Forall (serializes (prettyprint inv s1)) docs ->
    exists s',
      main documentsCmd args inv initial = Returned tt s'
      /\ exitCode (main documentsCmd args inv initial) = 0
      /\ stdout s' = stdout s1 ++ map (line (prettyprint inv s1)) docs
      /\ List.length (map (line (prettyprint inv s1)) docs) = List.length docs
      /\ (docs = [] -> stdout s' = stdout s1).
Proof.
  intros inv args s1 docs Hinit Hp Hc Hpath Hnew Hun Hstore Hser.
  pose proof (Execute_after_init documentsCmd args inv initial s1 Hinit)
    as Hexec.
  cbn [ValidateArgs] in Hexec.
  rewrite (preRunE_defined _ _ _ _ (undefinedKey_none inv s1 Hp Hc)) in Hexec.
  rewrite Hnew in Hexec. cbn [RunE] in Hexec.
  set (s2 := prepared inv s1) in *.
  set (s3 := record (CallDocuments (allDocuments inv s2)) s2).
  assert (Hpp : prettyprint inv s3 = prettyprint inv s1) by reflexivity.
  assert (Hloop :
    iterateLoop (flag_limit inv) (flag_unlimited inv)
      (store_documents inv (allDocuments inv s2)) 1 inv s3
    = Returned None (record CallNext (printed (prettyprint inv s1) docs s3))).
  { change (allDocuments inv s2) with (allDocuments inv s1).
    rewrite Hstore, <- (app_nil_r (map inr docs)).
    rewrite <- Hpp in Hser.
    rewrite (run_unlimited inv s3 docs Hser) by exact Hun.
    now rewrite iterateLoop_done, Hpp. }
  assert (Hclient : client s2 <> None).
  { subst s2. unfold prepared. rewrite Hnew. discriminate. }
  rewrite (documents_opens args inv s2 _ _ Hclient Hpath Hloop) in Hexec.
  rewrite (main_of_Execute _ _ _ _ _ _ Hexec).
  eexists. split; [reflexivity |]. split; [reflexivity |].
  assert (Hout :
    stdout (record CallStop
              (record CallNext (printed (prettyprint inv s1) docs s3)))
    = stdout s1 ++ map (line (prettyprint inv s1)) docs).
  { cbn [stdout record]. now rewrite printed_stdout. }
  split; [exact Hout |]. split; [apply length_map |].
  intros ->. rewrite Hout. apply app_nil_r.
Qed.

(** ** How errors travel *)




Lemma Command_eq_getCmd cmd : cmd = getCmd \/ cmd <> getCmd.
Proof. destruct cmd; auto; right; discriminate. Qed.




(** With the settings defined and a client, [Execute] is [RunE]. *)
Lemma Execute_runs cmd args inv s1 :
  initConfig inv initial = Returned tt s1 ->
  ValidateArgs cmd args = None ->
  undefinedKey inv s1 = None ->
  new_client inv = None ->
  Execute cmd args inv initial = RunE cmd args inv (prepared inv s1)
  /\ client (prepared inv s1) <> None.
Proof.
  intros Hinit Hargs Hkey Hnew.
  rewrite (Execute_after_init cmd args inv initial s1 Hinit), Hargs.
  rewrite (preRunE_defined _ _ _ _ Hkey), Hnew. split; [reflexivity |].
  unfold prepared. rewrite Hnew. discriminate.
Qed.

(** The loop gets through documents that serialize while the bound lets
    it. *)
Lemma loop_reaches inv s docs tail :
  Forall (serializes (prettyprint inv s)) docs ->
  reaches inv (List.length docs) ->
  exists c,
    iterateLoop (flag_limit inv) (flag_unlimited inv) (map inr docs ++ tail)
      1 inv s
    = iterateLoop (flag_limit inv) (flag_unlimited inv) tail c inv
        (printed (prettyprint inv s) docs s).
Proof.
  intros Hser [Hun | Hlt].
  - eexists. now apply run_unlimited.
  - eexists. apply run_below; [exact Hser | lia | lia].
Qed.


(** What ends [initConfig] ends [main]. *)
Lemma main_stops_in_initConfig cmd args inv s :
  (forall code s', initConfig inv s = Exited code s' ->
                   main cmd args inv s = Exited code s')
  /\ (forall v s', initConfig inv s = Panicked v s' ->
                   main cmd args inv s = Panicked v s').
Proof.
  split; intros x s' H; unfold main, Execute, bind; now rewrite H.
Qed.

(** A panic in [Execute] is not recovered in [main]. *)
Lemma main_of_Execute_panicked cmd args inv s v s' :
  Execute cmd args inv s = Panicked v s' ->
  main cmd args inv s = Panicked v s'.
Proof. intros H. unfold main, bind. now rewrite H. Qed.


(** ** The value of a [where] query *)

Lemma digitOf_digit c :
  isDigit c = true ->
  digitOf c = Some (digitValue c) /\ 0 <= digitValue c <= 9.
Proof.
  unfold isDigit, digitOf, digitValue. intros H. rewrite H.
  apply andb_true_iff in H. destruct H as [H1 H2].
  apply Z.leb_le in H1. apply Z.leb_le in H2. split; [reflexivity | lia].
Qed.

Lemma digitOf_other c :
  isDigit c = false ->
  digitOf c = None \/ exists d, digitOf c = Some d /\ 10 <= d.
Proof.
  unfold isDigit, digitOf. intros H. rewrite H.
  set (n := Z.of_N (N_of_ascii c)) in *.
  destruct ((97 <=? n) && (n <=? 122)) eqn:H1.
  - right. eexists. split; [reflexivity |].
    apply andb_true_iff in H1. destruct H1 as [H1 _].
    apply Z.leb_le in H1. lia.
  - destruct ((65 <=? n) && (n <=? 90)) eqn:H2.
    + right. eexists. split; [reflexivity |].
      apply andb_true_iff in H2. destruct H2 as [H2 _].
      apply Z.leb_le in H2. lia.
    + now left.
Qed.

Lemma digitsFrom_ge ds n : 0 <= n ->
  Forall (fun c => isDigit c = true) ds -> n <= digitsFrom n ds.
Proof.
  revert n. induction ds as [| c ds IH]; intros n Hn Hds.
  - cbn. lia.
  - inversion Hds as [| ? ? Hc Hds']; subst.
    destruct (digitOf_digit c Hc) as [_ Hd].
    change (digitsFrom n (c :: ds)) with (digitsFrom (10 * n + digitValue c) ds).
    specialize (IH (10 * n + digitValue c) ltac:(lia) Hds'). lia.
Qed.

(** On digits, the loop of [ParseUint] computes the number, or reports
    that it exceeds [maxVal]. *)
Lemma parseUintLoop_digits maxVal ds n :
  0 <= n <= maxVal -> maxVal <= 2 ^ 32 - 1 ->
  Forall (fun c => isDigit c = true) ds ->
  parseUintLoop (maxUint64 / 10 + 1) maxVal ds n
  = if digitsFrom n ds <=? maxVal then (digitsFrom n ds, None)
    else (maxVal, Some ErrRange).
Proof.
  revert n. induction ds as [| c ds IH]; intros n Hn Hmax Hds.
  - cbn. replace (n <=? maxVal) with true; [reflexivity |].
    symmetry. apply Z.leb_le. lia.
  - inversion Hds as [| ? ? Hc Hds']; subst.
    destruct (digitOf_digit c Hc) as [Hd Hrange].
    change (digitsFrom n (c :: ds)) with (digitsFrom (10 * n + digitValue c) ds).
    cbn [parseUintLoop]. rewrite Hd.
    replace (digitValue c >=? 10) with false
      by (symmetry; rewrite Z.geb_leb; apply Z.leb_gt; lia).
    assert (Hcut : maxUint64 / 10 + 1 = 1844674407370955162) by reflexivity.
    rewrite Hcut.
    replace (n >=? 1844674407370955162) with false
      by (symmetry; rewrite Z.geb_leb; apply Z.leb_gt; lia).
    change (2 ^ 32) with 4294967296 in Hmax.
    assert (H10 : uint64 (n * 10) = n * 10).
    { unfold uint64. change (2 ^ 64) with 18446744073709551616.
      apply Z.mod_small. lia. }
    assert (H1 : uint64 (n * 10 + digitValue c) = 10 * n + digitValue c).
    { unfold uint64. change (2 ^ 64) with 18446744073709551616.
      rewrite Z.mod_small; lia. }
    cbn zeta. rewrite H10, H1.
    replace (10 * n + digitValue c <? n * 10) with false
      by (symmetry; apply Z.ltb_ge; lia).
    cbn [orb].
    destruct (Z.gtb_spec (10 * n + digitValue c) maxVal) as [Hgt | Hle].
    + pose proof (digitsFrom_ge ds (10 * n + digitValue c) ltac:(lia) Hds').
      replace (digitsFrom (10 * n + digitValue c) ds <=? maxVal) with false
        by (symmetry; apply Z.leb_gt; lia).
      reflexivity.
    + rewrite <- Hcut. apply IH; [lia | lia | exact Hds'].
Qed.

(** On anything else, it reports a syntax error, or a range error with
    [maxVal]. *)
Lemma parseUintLoop_not_digits maxVal ds n :
  forallb isDigit ds = false ->
  parseUintLoop (maxUint64 / 10 + 1) maxVal ds n = (0, Some ErrSyntax)
  \/ parseUintLoop (maxUint64 / 10 + 1) maxVal ds n = (maxVal, Some ErrRange).
Proof.
  revert n. induction ds as [| c ds IH]; intros n Hds; [discriminate |].
  cbn [forallb] in Hds. cbn [parseUintLoop].
  destruct (isDigit c) eqn:Hc.
  - destruct (digitOf_digit c Hc) as [Hd Hrange]. rewrite Hd.
    replace (digitValue c >=? 10) with false
      by (symmetry; rewrite Z.geb_leb; apply Z.leb_gt; lia).
    destruct (n >=? maxUint64 / 10 + 1); [now right |].
    cbn zeta.
    match goal with
    | |- context [if ?b then _ else _] => destruct b
    end; [now right |].
    apply IH. exact Hds.
  - destruct (digitOf_other c Hc) as [-> | (d & -> & Hd)]; [now left |].
    replace (d >=? 10) with true
      by (symmetry; rewrite Z.geb_leb; apply Z.leb_le; lia).
    now left.
Qed.

Lemma ParseUint_decimal ds v :
  unsignedDecimal ds = Some v ->
  ParseUint ds 32
  = if v <=? 4294967295 then (v, None) else (4294967295, Some ErrRange).
Proof.
  unfold unsignedDecimal, ParseUint. destruct ds as [| c ds]; [discriminate |].
  destruct (forallb isDigit (c :: ds)) eqn:Hds; [| discriminate].
  intros [= <-].
  change (uint64 (uint64 (Z.shiftl 1 32) - 1)) with 4294967295.
  apply (parseUintLoop_digits 4294967295 (c :: ds) 0).
  - lia.
  - change (2 ^ 32) with 4294967296. lia.
  - apply Forall_forall. now apply forallb_forall.
Qed.

Lemma ParseUint_not_decimal ds :
  unsignedDecimal ds = None ->
  ParseUint ds 32 = (0, Some ErrSyntax)
  \/ ParseUint ds 32 = (4294967295, Some ErrRange).
Proof.
  unfold unsignedDecimal, ParseUint. destruct ds as [| c ds]; [now left |].
  destruct (forallb isDigit (c :: ds)) eqn:Hds; [discriminate |].
  intros _.
  change (uint64 (uint64 (Z.shiftl 1 32) - 1)) with 4294967295.
  now apply parseUintLoop_not_digits.
Qed.

Lemma unsignedDecimal_nonneg ds v : unsignedDecimal ds = Some v -> 0 <= v.
Proof.
  unfold unsignedDecimal. destruct ds as [| c ds]; [discriminate |].
  destruct (forallb isDigit (c :: ds)) eqn:Hds; [| discriminate].
  intros [= <-]. apply (digitsFrom_ge (c :: ds) 0); [lia |].
  apply Forall_forall. now apply forallb_forall.
Qed.

Lemma ParseInt_signedOf s :
  ParseInt s 32
  = match bytesOf s with
    | [] => (0, Some ErrSyntax)
    | c :: rest =>
        signedOf (Ascii.eqb c "-"%char)
          (ParseUint
             (if Ascii.eqb c "+"%char || Ascii.eqb c "-"%char then rest
              else c :: rest) 32)
    end.
Proof. unfold ParseInt. destruct (bytesOf s); reflexivity. Qed.

Lemma int64_small n :
  - 2 ^ 63 <= n <= 2 ^ 63 - 1 -> int64 n = n.
Proof.
  intros H. unfold int64. change (2 ^ 63) with 9223372036854775808 in *.
  change (2 ^ 64) with 18446744073709551616.
  rewrite Z.mod_small; lia.
Qed.

Lemma signedOf_decimal (neg : bool) (ds : bytes) (v : Z) :
  unsignedDecimal ds = Some v ->
  let n := if neg then - v else v in
  (inInt32 n = true -> signedOf neg (ParseUint ds 32) = (n, None))
  /\ (inInt32 n = false -> snd (signedOf neg (ParseUint ds 32)) <> None).
Proof.
  intros Hv n.
  pose proof (unsignedDecimal_nonneg ds v Hv) as Hnn.
  rewrite (ParseUint_decimal ds v Hv).
  unfold signedOf, inInt32.
  change (uint64 (Z.shiftl 1 (32 - 1))) with 2147483648.
  change (- 2 ^ 31) with (-2147483648).
  change (2 ^ 31 - 1) with 2147483647.
  rewrite andb_true_iff, andb_false_iff, !Z.leb_le, !Z.leb_gt.
  destruct (Z.leb_spec v 4294967295) as [Hle | Hgt].
  - assert (Hi : int64 v = v).
    { apply int64_small. change (2 ^ 63) with 9223372036854775808. lia. }
    assert (Hm : int64 (- v) = - v).
    { apply int64_small. change (2 ^ 63) with 9223372036854775808. lia. }
    subst n. destruct neg; cbn [negb andb].
    + destruct (Z.gtb_spec v 2147483648) as [H | H].
      * split; [lia | discriminate].
      * cbn zeta. rewrite Hi, Hm. split; [reflexivity | lia].
    + rewrite Z.geb_leb. destruct (Z.leb_spec 2147483648 v) as [H | H].
      * split; [lia | discriminate].
      * cbn zeta. rewrite Hi. split; [reflexivity | lia].
  - subst n. destruct neg; cbn [negb andb].
    + split; [lia | discriminate].
    + split; [lia | discriminate].
Qed.

Lemma signedOf_not_decimal neg ds :
  unsignedDecimal ds = None -> snd (signedOf neg (ParseUint ds 32)) <> None.
Proof.
  intros Hv. destruct (ParseUint_not_decimal ds Hv) as [-> | ->].
  - discriminate.
  - unfold signedOf.
    change (uint64 (Z.shiftl 1 (32 - 1))) with 2147483648.
    destruct neg; discriminate.
Qed.

Lemma value_of_signed (neg : bool) (ds : bytes) (arg : string) :
  (let (intValue, err) := signedOf neg (ParseUint ds 32) in
   match err with
   | None => VInt intValue
   | Some _ => VString arg
   end)
  = match unsignedDecimal ds with
    | Some u =>
        if inInt32 (if neg then - u else u)
        then VInt (if neg then - u else u)
        else VString arg
    | None => VString arg
    end.
Proof.
  destruct (unsignedDecimal ds) as [u |] eqn:Hu.
  - destruct (signedOf_decimal neg ds u Hu) as [Hin Hout]. cbn zeta in *.
    destruct (inInt32 (if neg then - u else u)).
    + now rewrite Hin.
    + specialize (Hout eq_refl).
      destruct (signedOf neg (ParseUint ds 32)) as [x [e |]];
        [reflexivity | now destruct Hout].
  - pose proof (signedOf_not_decimal neg ds Hu) as Hne.
    destruct (signedOf neg (ParseUint ds 32)) as [x [e |]];
      [reflexivity | now destruct Hne].
Qed.


(** ** A missing configuration file *)

Lemma unset_undefined inv s :
  viper_config s = None ->
  flag_project inv = None \/ flag_collection inv = None ->
  exists key,
    undefinedKey inv s = Some key /\ In key ["project"; "collection"]%string.
Proof.
  intros Hcfg Hflag.
  destruct (undefinedKey_some inv s) as (key & Hkey & Hin & _).
  - unfold setting. rewrite Hcfg. cbn.
    destruct Hflag as [-> | ->]; auto.
  - now exists key.
Qed.

Lemma noSettings_undefined inv s key :
  viper_config s = None ->
  undefinedKey inv (write configNotFound s) = Some key ->
  undefinedKey (withConfigFile (Some (inr noSettings)) inv)
    (set_viper_config (Some noSettings) s) = Some key.
Proof.
  intros Hcfg. unfold undefinedKey, setting. cbn. rewrite Hcfg.
  destruct (flag_project inv), (flag_collection inv); auto.
Qed.

(** C9, as the program has it.  When none of the searched directories
    holds a configuration file, [initConfig] prints its notice and
    returns: configuration resolution does not fail.  If, besides, a
    flag does not supply [project] or [collection], the command fails in
    [preRunE] with the error of the first undefined key, the very error
    it fails with when a configuration file is found that sets nothing;
    the process ends with status 1.  There is no separate error for the
    missing file. *)
Theorem missing_config_file_is_a_validation_error :
  forall (cmd : Command) (args : list string) (inv : Invocation)
         (home : string),
    home_dir inv = inr home ->
    config_file inv = None ->
    flag_project inv = None \/ flag_collection inv = None ->
    ValidateArgs cmd args = None ->
    exists key,
      In key ["project"; "collection"]%string
      /\ initConfig inv initial = Returned tt (write configNotFound initial)
      /\ Execute cmd args inv initial
         = Returned
             (Some (withMessage (errorString (key +++ " undefined"))
                      "unable to validate required params"))
             (write configNotFound initial)
      /\ Execute cmd args (withConfigFile (Some (inr noSettings)) inv) initial
         = Returned
             (Some (withMessage (errorString (key +++ " undefined"))
                      "unable to validate required params"))
             (set_viper_config (Some noSettings) initial)
      /\ exitCode (main cmd args inv initial) = 1.
Proof.
  intros cmd args inv home Hhome Hcfg Hflag Hargs.
  pose proof (initConfig_not_found inv initial home Hhome Hcfg) as Hinit.
  destruct (unset_undefined inv (write configNotFound initial) eq_refl Hflag)
    as (key & Hkey & Hin).
  assert (Hexec :
    Execute cmd args inv initial
    = Returned (Some (withMessage (undefined key)
                        "unable to validate required params"))
        (write configNotFound initial)).
  { rewrite (Execute_after_init cmd args inv initial _ Hinit), Hargs.
    now rewrite (preRunE_undefined _ _ _ _ _ Hkey). }
  exists key. split; [exact Hin |]. split; [exact Hinit |].
  split; [exact Hexec |]. split.
  - assert (Hinit' :
      initConfig (withConfigFile (Some (inr noSettings)) inv) initial
      = Returned tt (set_viper_config (Some noSettings) initial)).
    { apply initConfig_loaded with (home := home); [exact Hhome | reflexivity]. }
    rewrite (Execute_after_init cmd args _ initial _ Hinit'), Hargs.
    rewrite (preRunE_undefined _ _ _ _ key); [reflexivity |].
    now apply noSettings_undefined.
  - now rewrite (main_of_Execute _ _ _ _ _ _ Hexec).
Qed.

(** ** Instances *)

(** The query values of the specification's examples, and the ends of
    the 32-bit range. *)
Example namesCollection_top : namesCollection "users" = true.
Proof. reflexivity. Qed.

Example namesCollection_document : namesCollection "users/ada" = false.
Proof. reflexivity. Qed.

Example namesCollection_nested : namesCollection "users/ada/posts" = true.
Proof. reflexivity. Qed.

Example namesCollection_empty_ID : namesCollection "users//posts" = false.
Proof. reflexivity. Qed.

Example whereValue_30 : whereValue "30" = VInt 30.
Proof. reflexivity. Qed.

Example whereValue_30abc : whereValue "30abc" = VString "30abc".
Proof. reflexivity. Qed.

Example whereValue_least : whereValue "-2147483648" = VInt (-2147483648).
Proof. reflexivity. Qed.

Example whereValue_beyond : whereValue "2147483648" = VString "2147483648".
Proof. reflexivity. Qed.

Example whereValue_signed : whereValue "+7" = VInt 7.
Proof. reflexivity. Qed.

Example whereValue_sign_only : whereValue "-" = VString "-".
Proof. reflexivity. Qed.

(** The compact text of a small document, and its lines when indented. *)
Example Marshal_small :
  Marshal [("n"%string, VInt 1); ("a"%string, VArray [])]
  = inr (bytesOf "{" ++ dquote :: bytesOf "a" ++ dquote :: bytesOf ":[],"
         ++ dquote :: bytesOf "n" ++ dquote :: bytesOf ":1}").
Proof. reflexivity. Qed.

Example MarshalIndent_small :
  MarshalIndent [("n"%string, VInt 1); ("a"%string, VArray [])] "" "  "
  = inr (bytesOf "{" ++ newlineChar
         :: bytesOf "  " ++ dquote :: bytesOf "a" ++ dquote :: bytesOf ": [],"
         ++ newlineChar
         :: bytesOf "  " ++ dquote :: bytesOf "n" ++ dquote :: bytesOf ": 1"
         ++ newlineChar :: bytesOf "}").
Proof. reflexivity. Qed.

Lemma sampleDoc_serializes n : serializes false (sampleDoc n).
Proof. eexists. reflexivity. Qed.

(** [documents --limit 2] on three documents prints the first two. *)
Lemma documents_limit_renders_limit_witness :
  exists s',
    documents documentsCmd [] (streaming 2 false sampleStream) ready
    = Returned None s'
    /\ stdout s' = map (line false) [sampleDoc 30; sampleDoc 41].
Proof.
  destruct (documents_limit_renders_limit
              (streaming 2 false sampleStream) ready []
              [sampleDoc 30; sampleDoc 41] [inr (sampleDoc 52)])
    as (s' & Hrun & Hout & _).
  - discriminate.
  - reflexivity.
  - reflexivity.
  - cbn. lia.
  - reflexivity.
  - reflexivity.
  - repeat constructor; apply sampleDoc_serializes.
  - exists s'. split; [exact Hrun | exact Hout].
Defined.

(** [where age == 30 --limit 0] on three documents prints the first. *)
Lemma nonpositive_limit_renders_one_witness :
  exists s',
    RunE whereCmd ["age"; "=="; "30"]%string
      (streaming 0 false sampleStream) ready
    = Returned None s'
    /\ stdout s' = [line false (sampleDoc 30)].
Proof.
  destruct (nonpositive_limit_renders_one whereCmd
              ["age"; "=="; "30"]%string
              (streaming 0 false sampleStream) ready
              (sampleDoc 30) [inr (sampleDoc 41); inr (sampleDoc 52)])
    as (s' & Hrun & Hout & _).
  - discriminate.
  - reflexivity.
  - discriminate.
  - reflexivity.
  - reflexivity.
  - cbn. lia.
  - reflexivity.
  - apply sampleDoc_serializes.
  - exists s'. split; [exact Hrun | exact Hout].
Defined.

(** The second of three documents does not serialize: the first stays
    printed, [Next] is called twice. *)
Lemma serialization_error_aborts_stream_witness :
  exists s',
    RunE documentsCmd []
      (streaming 100 false
         [inr (sampleDoc 30); inr unserializable; inr (sampleDoc 52)]) ready
    = Returned
        (Some (withMessage (UnsupportedValueError "NaN")
                 "unable to marshal document to json")) s'
    /\ stdout s' = [line false (sampleDoc 30)]
    /\ calls s'
       = [CallDocuments {| q_collection := "users"; q_where := None |};
          CallNext; CallNext; CallStop].
Proof.
  destruct (serialization_error_aborts_stream documentsCmd []
              (streaming 100 false
                 [inr (sampleDoc 30); inr unserializable; inr (sampleDoc 52)])
              ready [sampleDoc 30] unserializable
              (UnsupportedValueError "NaN") [inr (sampleDoc 52)])
    as (s' & Hrun & Hout & Hcalls).
  - discriminate.
  - reflexivity.
  - discriminate.
  - reflexivity.
  - reflexivity.
  - repeat constructor; apply sampleDoc_serializes.
  - reflexivity.
  - right. cbn. lia.
  - exists s'. split; [exact Hrun |]. split; [exact Hout | exact Hcalls].
Defined.

(** A run of [documents] over the sample stream stops its stream once. *)
Lemma stream_stopped_exactly_once_witness :
  exists r s' n,
    RunE documentsCmd [] (streaming 100 false sampleStream) ready
    = Returned r s'
    /\ calls s'
       = streamed {| q_collection := "users"; q_where := None |} n.
Proof.
  destruct (stream_stopped_exactly_once documentsCmd []
              (streaming 100 false sampleStream) ready)
    as (r & s' & n & Hrun & Hcalls & _).
  - discriminate.
  - reflexivity.
  - discriminate.
  - reflexivity.
  - exists r, s', n. split; [exact Hrun | exact Hcalls].
Defined.

(** [documents --unlimited] prints the three documents and ends with
    status 0. *)
Lemma documents_unlimited_renders_all_witness :
  exists s',
    main documentsCmd [] (streaming 1 true sampleStream) initial
    = Returned tt s'
    /\ stdout s'
       = configNotFound
           :: map (line false) [sampleDoc 30; sampleDoc 41; sampleDoc 52]
    /\ exitCode (main documentsCmd [] (streaming 1 true sampleStream) initial)
       = 0.
Proof.
  destruct (documents_unlimited_renders_all
              (streaming 1 true sampleStream) []
              (write configNotFound initial)
              [sampleDoc 30; sampleDoc 41; sampleDoc 52])
    as (s' & Hrun & Hexit & Hout & _).
  - reflexivity.
  - discriminate.
  - discriminate.
  - reflexivity.
  - reflexivity.
  - reflexivity.
  - reflexivity.
  - repeat constructor; apply sampleDoc_serializes.
  - exists s'. split; [exact Hrun |]. split; [exact Hout | exact Hexit].
Defined.

(** No configuration file and no [--project]: [get] stops in
    [preRunE]. *)
Lemma missing_setting_stops_in_preRunE_witness :
  exists key s',
    In key ["project"; "collection"]%string
    /\ main getCmd ["id"%string]
         (sampleRun None (Some "users"%string) 100 false
            (inr "/home/ada"%string) None []) initial
       = Exited 1 s'
    /\ calls s' = [].
Proof.
  destruct (missing_setting_stops_in_preRunE getCmd ["id"%string]
              (sampleRun None (Some "users"%string) 100 false
                 (inr "/home/ada"%string) None [])
              (write configNotFound initial))
    as (key & s' & Hin & _ & _ & Hmain & _ & Hcalls & _).
  - reflexivity.
  - left. reflexivity.
  - exists key, s'. split; [exact Hin |]. split; [exact Hmain | exact Hcalls].
Defined.


(** No configuration file, no flags. *)
Lemma missing_config_file_is_a_validation_error_witness :
  exists key,
    Execute documentsCmd []
      (sampleRun None None 100 false (inr "/home/ada"%string) None [])
      initial
    = Returned
        (Some (withMessage (errorString (key +++ " undefined"))
                 "unable to validate required params"))
        (write configNotFound initial).
Proof.
  destruct (missing_config_file_is_a_validation_error documentsCmd []
              (sampleRun None None 100 false (inr "/home/ada"%string) None [])
              "/home/ada"%string)
    as (key & _ & _ & Hexec & _).
  - reflexivity.
  - reflexivity.
  - left. reflexivity.
  - reflexivity.
  - exists key. exact Hexec.
Defined.

(** ** Where the specification and the program part *)


(** C9 as the specification states it fails: with no configuration file
    and no flags, [initConfig] returns, and the run ends with the error
    of the validation, which is also the error of a run that finds a
    configuration file without settings. *)
Lemma missing_config_file_raises_no_config_error :
  initConfig (sampleRun None None 100 false (inr "/home/ada"%string) None [])
    initial
  = Returned tt (write configNotFound initial)
  /\ Execute documentsCmd []
       (sampleRun None None 100 false (inr "/home/ada"%string) None [])
       initial
     = Returned
         (Some (withMessage (errorString "project undefined")
                  "unable to validate required params"))
         (write configNotFound initial)
  /\ Execute documentsCmd []
       (sampleRun None None 100 false (inr "/home/ada"%string)
          (Some (inr noSettings)) [])
       initial
     = Returned
         (Some (withMessage (errorString "project undefined")
                  "unable to validate required params"))
         (set_viper_config (Some noSettings) initial).
Proof. repeat split. Qed.

(** ** The two layouts of the JSON text *)

(** Induction on values and on parsed trees, under their lists. *)
Lemma value_nested_ind (P : value -> Prop) :
  P VNull ->
  (forall b, P (VBool b)) ->
  (forall n, P (VInt n)) ->
  (forall f, P (VFloat f)) ->
  (forall s, P (VString s)) ->
  (forall elems, Forall P elems -> P (VArray elems)) ->
  (forall fields, Forall (fun kv => P (snd kv)) fields -> P (VMap fields)) ->
  forall v, P v.
Proof.
  intros Hnull Hbool Hint Hfloat Hstring Harray Hmap.
  fix IH 1. intros [| b | n | f | s | elems | fields].
  - exact Hnull.
  - apply Hbool.
  - apply Hint.
  - apply Hfloat.
  - apply Hstring.
  - apply Harray. induction elems as [| e elems IHl]; constructor.
    + apply IH.
    + exact IHl.
  - apply Hmap. induction fields as [| [k e] fields IHl]; constructor.
    + apply IH.
    + exact IHl.
Qed.

Lemma jtree_nested_ind (P : jtree -> Prop) :
  (forall text, P (JLiteral text)) ->
  (forall body, P (JString body)) ->
  (forall elems, Forall P elems -> P (JArray elems)) ->
  (forall fields, Forall (fun kv => P (snd kv)) fields -> P (JObject fields)) ->
  forall t, P t.
Proof.
  intros Hlit Hstr Harr Hobj.
  fix IH 1. intros [text | body | elems | fields].
  - apply Hlit.
  - apply Hstr.
  - apply Harr. induction elems as [| e elems IHl]; constructor.
    + apply IH.
    + exact IHl.
  - apply Hobj. induction fields as [| [k e] fields IHl]; constructor.
    + apply IH.
    + exact IHl.
Qed.

(** *** The lexer on the pieces of a text *)

Lemma lex_spaces ws rest :
  forallb isSpace ws = true ->
  lex lexBetween (ws ++ rest) = lex lexBetween rest.
Proof.
  induction ws as [| c ws IH]; intros H; [reflexivity |].
  cbn [forallb] in H. apply andb_true_iff in H. destruct H as [Hc Hws].
  cbn [app lex]. rewrite Hc. cbn [flush app]. now apply IH.
Qed.

Lemma lex_literal_end text rest :
  ends rest = true ->
  lex (lexLiteral text) rest = TLiteral text :: lex lexBetween rest.
Proof.
  destruct rest as [| c rest]; [reflexivity |].
  unfold ends, literalByte. intros H. cbn [lex].
  destruct (isSpace c); [reflexivity |].
  destruct (punctuation c); [reflexivity |].
  destruct (Ascii.eqb c dquote); [reflexivity | discriminate].
Qed.

Lemma lex_literal_more text more rest :
  forallb literalByte more = true ->
  lex (lexLiteral text) (more ++ rest) = lex (lexLiteral (text ++ more)) rest.
Proof.
  revert text. induction more as [| c more IH]; intros text H.
  - now rewrite app_nil_r.
  - cbn [forallb] in H. apply andb_true_iff in H. destruct H as [Hc Hmore].
    cbn [app lex]. unfold literalByte in Hc.
    destruct (isSpace c); [discriminate |].
    destruct (punctuation c); [discriminate |].
    destruct (Ascii.eqb c dquote); [discriminate |].
    rewrite IH by exact Hmore. now rewrite <- app_assoc.
Qed.

Lemma lex_literal text rest :
  text <> [] -> forallb literalByte text = true -> ends rest = true ->
  lex lexBetween (text ++ rest) = TLiteral text :: lex lexBetween rest.
Proof.
  destruct text as [| c text]; [congruence |]. intros _ H Hrest.
  cbn [forallb] in H. apply andb_true_iff in H. destruct H as [Hc Htext].
  cbn [app lex]. unfold literalByte in Hc.
  destruct (isSpace c); [discriminate |].
  destruct (punctuation c); [discriminate |].
  destruct (Ascii.eqb c dquote); [discriminate |].
  rewrite lex_literal_more by exact Htext. now apply lex_literal_end.
Qed.

Lemma lex_string_body esc body acc rest :
  closed esc body = true ->
  lex (if esc then lexEscape acc else lexString acc) (body ++ dquote :: rest)
  = TString (acc ++ body) :: lex lexBetween rest.
Proof.
  revert esc acc. induction body as [| c body IH]; intros esc acc H.
  - destruct esc; [discriminate |]. cbn [app lex].
    rewrite Ascii.eqb_refl. now rewrite app_nil_r.
  - cbn [closed] in H. cbn [app]. destruct esc.
    + cbn [lex]. rewrite (IH false (acc ++ [c]) H).
      now rewrite <- app_assoc.
    + cbn [lex]. destruct (Ascii.eqb c dquote); [discriminate |].
      destruct (Ascii.eqb c backslash).
      * rewrite (IH true (acc ++ [c]) H). now rewrite <- app_assoc.
      * rewrite (IH false (acc ++ [c]) H). now rewrite <- app_assoc.
Qed.

Lemma lex_string body rest :
  closed false body = true ->
  lex lexBetween (dquote :: body ++ dquote :: rest)
  = TString body :: lex lexBetween rest.
Proof.
  intros H. cbn [lex]. change (isSpace dquote) with false.
  change (punctuation dquote) with (@None token).
  rewrite Ascii.eqb_refl. cbn [flush app].
  apply (lex_string_body false body [] rest H).
Qed.

Lemma lex_punctuation c t rest :
  punctuation c = Some t ->
  lex lexBetween (c :: rest) = t :: lex lexBetween rest.
Proof.
  intros H. cbn [lex].
  assert (Hs : isSpace c = false).
  { unfold punctuation in H. unfold isSpace.
    destruct (Ascii.eqb_spec c "{"%char); [now subst |].
    destruct (Ascii.eqb_spec c "}"%char); [now subst |].
    destruct (Ascii.eqb_spec c "["%char); [now subst |].
    destruct (Ascii.eqb_spec c "]"%char); [now subst |].
    destruct (Ascii.eqb_spec c ","%char); [now subst |].
    destruct (Ascii.eqb_spec c ":"%char); [now subst | discriminate]. }
  now rewrite Hs, H.
Qed.

Lemma punctuation_ends c t rest :
  punctuation c = Some t -> ends (c :: rest) = true.
Proof.
  intros H. unfold ends, literalByte. rewrite H.
  now rewrite andb_false_r.
Qed.

Lemma join_two {A : Type} (sep x : list A) y l :
  join sep (x :: y :: l) = x ++ sep ++ join sep (y :: l).
Proof. reflexivity. Qed.

(** Reading the members of an array or of an object up to the closing
    bracket, when each member reads as its tokens. *)
Lemma lex_members {A : Type} (r : A -> bytes) (tk : A -> list token)
    (ms : list A) (close : ascii) (closeTok : token) (rest : bytes) :
  Forall (fun m => forall rest, ends rest = true ->
                   lex lexBetween (r m ++ rest)
                   = tk m ++ lex lexBetween rest) ms ->
  punctuation close = Some closeTok ->
  lex lexBetween (join [","%char] (map r ms) ++ close :: rest)
  = join [TComma] (map tk ms) ++ closeTok :: lex lexBetween rest.
Proof.
  intros Hms Hclose. induction Hms as [| m ms Hm Hms IH].
  - cbn [map join app]. now apply lex_punctuation.
  - destruct ms as [| m' ms'].
    + cbn [map join].
      rewrite (Hm (close :: rest)) by (eapply punctuation_ends; eassumption).
      f_equal. now apply lex_punctuation.
    + cbn [map]. rewrite (join_two [","%char]), (join_two [TComma]).
      rewrite <- !app_assoc.
      rewrite Hm by reflexivity. f_equal.
      cbn [app]. rewrite (lex_punctuation ","%char TComma) by reflexivity.
      f_equal. exact IH.
Qed.

(** The lexer reads the compact text of a well-formed tree as the tokens
    of the tree. *)
Lemma lex_render t :
  wellFormed t = true ->
  forall rest, ends rest = true ->
  lex lexBetween (render t ++ rest) = tokensOf t ++ lex lexBetween rest.
Proof.
  induction t as [text | body | elems IH | fields IH] using jtree_nested_ind;
    intros Hwf rest Hrest.
  - cbn [wellFormed] in Hwf. cbn [render tokensOf app].
    destruct text as [| c text]; [discriminate |].
    apply lex_literal; [discriminate | exact Hwf | exact Hrest].
  - cbn [wellFormed] in Hwf. cbn [render tokensOf app].
    rewrite <- app_assoc. cbn [app]. now apply lex_string.
  - cbn [wellFormed] in Hwf. cbn [render tokensOf]. cbn [app].
    rewrite (lex_punctuation "["%char TBeginArray) by reflexivity.
    f_equal. rewrite <- !app_assoc. cbn [app].
    apply lex_members; [| reflexivity].
    rewrite forallb_forall in Hwf. rewrite Forall_forall in IH |- *.
    intros e He. apply IH; [exact He | now apply Hwf].
  - cbn [wellFormed] in Hwf. cbn [render tokensOf]. cbn [app].
    rewrite (lex_punctuation "{"%char TBeginObject) by reflexivity.
    f_equal. rewrite <- !app_assoc. cbn [app].
    apply (lex_members
             (fun kv => renderField (fst kv, render (snd kv)))
             (fun kv => TString (fst kv) :: TColon :: tokensOf (snd kv)));
      [| reflexivity].
    rewrite forallb_forall in Hwf. rewrite Forall_forall in IH |- *.
    intros kv Hkv rest' Hrest'.
    specialize (Hwf kv Hkv). apply andb_true_iff in Hwf.
    destruct Hwf as [Hkey Hval].
    unfold renderField. cbn [fst snd app]. rewrite <- app_assoc. cbn [app].
    rewrite lex_string by exact Hkey. f_equal.
    cbn [app]. rewrite (lex_punctuation ":"%char TColon) by reflexivity.
    f_equal. now apply IH.
Qed.

(** *** [Indent], one byte at a time *)

Lemma join_cons {A : Type} (sep x : list A) l :
  join sep (x :: l) = x ++ List.concat (map (fun y => sep ++ y) l).
Proof.
  revert x. induction l as [| y l IH]; intros x.
  - cbn. now rewrite app_nil_r.
  - rewrite join_two, IH. cbn [map List.concat]. now rewrite <- app_assoc.
Qed.

Section Layout.

Variable pre ind : bytes.
Hypothesis Hpre : forallb isSpace pre = true.
Hypothesis Hind : forallb isSpace ind = true.

Lemma newline_spaces d : forallb isSpace (newline pre ind d) = true.
Proof.
  unfold newline. cbn [forallb]. change (isSpace newlineChar) with true.
  cbn [andb]. rewrite forallb_app, Hpre. cbn [andb].
  induction (Z.to_nat d) as [| n IH]; [reflexivity |].
  cbn [repeat List.concat]. rewrite forallb_app, Hind. exact IH.
Qed.

Lemma lex_newline d rest :
  lex lexBetween (newline pre ind d ++ rest) = lex lexBetween rest.
Proof. apply lex_spaces, newline_spaces. Qed.

Lemma lex_fired (ni : bool) d rest :
  lex lexBetween ((if ni then newline pre ind d else []) ++ rest)
  = lex lexBetween rest.
Proof. destruct ni; [apply lex_newline | reflexivity]. Qed.

Lemma indent_literal_first c ni d src :
  literalByte c = true ->
  indentLoop pre ind stateBetween ni d (c :: src)
  = (if ni then newline pre ind (d + 1) else [])
      ++ c :: indentLoop pre ind stateInLiteral false
                (if ni then d + 1 else d) src.
Proof.
  unfold literalByte, punctuation. intros H. cbn [indentLoop step].
  destruct (isSpace c); [discriminate |].
  destruct (Ascii.eqb c "{"%char); [discriminate |].
  destruct (Ascii.eqb c "}"%char); [discriminate |].
  destruct (Ascii.eqb c "["%char); [discriminate |].
  destruct (Ascii.eqb c "]"%char); [discriminate |].
  destruct (Ascii.eqb c ","%char); [discriminate |].
  destruct (Ascii.eqb c ":"%char); [discriminate |].
  destruct (Ascii.eqb c dquote); [discriminate |].
  cbn [isEnd negb andb orb]. rewrite andb_true_r.
  destruct ni; reflexivity.
Qed.

Lemma indent_literal_more text d src :
  forallb literalByte text = true ->
  indentLoop pre ind stateInLiteral false d (text ++ src)
  = text ++ indentLoop pre ind stateInLiteral false d src.
Proof.
  induction text as [| c text IH]; intros H; [reflexivity |].
  cbn [forallb] in H. apply andb_true_iff in H. destruct H as [Hc Htext].
  cbn [app indentLoop step]. unfold literalByte, punctuation in Hc.
  destruct (isSpace c); [discriminate |].
  destruct (Ascii.eqb c "{"%char); [discriminate |].
  destruct (Ascii.eqb c "}"%char); [discriminate |].
  destruct (Ascii.eqb c "["%char); [discriminate |].
  destruct (Ascii.eqb c "]"%char); [discriminate |].
  destruct (Ascii.eqb c ","%char); [discriminate |].
  destruct (Ascii.eqb c ":"%char); [discriminate |].
  destruct (Ascii.eqb c dquote); [discriminate |].
  cbn [isEnd negb andb app]. now rewrite IH.
Qed.

Lemma indent_string_body esc body d rest :
  closed esc body = true ->
  indentLoop pre ind (if esc then stateInStringEsc else stateInString)
    false d (body ++ dquote :: rest)
  = body ++ dquote :: indentLoop pre ind stateBetween false d rest.
Proof.
  revert esc. induction body as [| c body IH]; intros esc H.
  - destruct esc; [discriminate |]. cbn [app indentLoop step].
    rewrite Ascii.eqb_refl. reflexivity.
  - cbn [closed] in H. cbn [app]. destruct esc.
    + cbn [indentLoop step isEnd negb andb app]. f_equal.
      apply (IH false H).
    + cbn [indentLoop step]. destruct (Ascii.eqb c dquote); [discriminate |].
      destruct (Ascii.eqb c backslash); cbn [isEnd negb andb app]; f_equal.
      * apply (IH true H).
      * apply (IH false H).
Qed.

Lemma indent_string body ni d rest :
  closed false body = true ->
  indentLoop pre ind stateBetween ni d (dquote :: body ++ dquote :: rest)
  = (if ni then newline pre ind (d + 1) else [])
      ++ dquote :: body
      ++ dquote :: indentLoop pre ind stateBetween false
                      (if ni then d + 1 else d) rest.
Proof.
  intros H. cbn [indentLoop]. change (step stateBetween dquote)
    with (stateInString, scanBeginLiteral).
  cbn [isEnd negb andb]. rewrite andb_true_r.
  change (Ascii.eqb dquote "{"%char || Ascii.eqb dquote "["%char) with false.
  change (Ascii.eqb dquote ","%char) with false.
  change (Ascii.eqb dquote ":"%char) with false.
  change (Ascii.eqb dquote "}"%char || Ascii.eqb dquote "]"%char) with false.
  cbn match.
  destruct ni; cbn match;
    now rewrite (indent_string_body false body _ rest H).
Qed.

(** The brackets, the comma and the colon. *)
Lemma indent_open (obj ni : bool) d src :
  indentLoop pre ind stateBetween ni d
    ((if obj then "{" else "[")%char :: src)
  = (if ni then newline pre ind (d + 1) else [])
      ++ (if obj then "{" else "[")%char
      :: indentLoop pre ind stateBetween true (if ni then d + 1 else d) src.
Proof. destruct obj, ni; reflexivity. Qed.

Lemma indent_close_empty (obj : bool) d src :
  indentLoop pre ind stateBetween true d
    ((if obj then "}" else "]")%char :: src)
  = (if obj then "}" else "]")%char
      :: indentLoop pre ind stateBetween false d src.
Proof. destruct obj; reflexivity. Qed.

Lemma indent_close (obj : bool) d src :
  indentLoop pre ind stateBetween false d
    ((if obj then "}" else "]")%char :: src)
  = newline pre ind (d - 1)
      ++ (if obj then "}" else "]")%char
      :: indentLoop pre ind stateBetween false (d - 1) src.
Proof. destruct obj; reflexivity. Qed.

Lemma indent_comma d src :
  indentLoop pre ind stateBetween false d (","%char :: src)
  = ","%char :: newline pre ind d
      ++ indentLoop pre ind stateBetween false d src.
Proof. reflexivity. Qed.

Lemma indent_colon d src :
  indentLoop pre ind stateBetween false d (":"%char :: src)
  = ":"%char :: " "%char :: indentLoop pre ind stateBetween false d src.
Proof. reflexivity. Qed.

(** After a literal, what follows is read as between tokens. *)
Lemma indent_after_literal d rest :
  follows rest = true ->
  indentLoop pre ind stateInLiteral false d rest
  = indentLoop pre ind stateBetween false d rest.
Proof.
  destruct rest as [| c rest]; [reflexivity |]. cbn [follows]. intros H.
  destruct (Ascii.eqb_spec c ","%char) as [-> | _]; [reflexivity |].
  destruct (Ascii.eqb_spec c "}"%char) as [-> | _]; [reflexivity |].
  destruct (Ascii.eqb_spec c "]"%char) as [-> | _]; [reflexivity |].
  discriminate.
Qed.

Lemma ends_indent d rest :
  follows rest = true ->
  ends (indentLoop pre ind stateBetween false d rest) = true.
Proof.
  destruct rest as [| c rest]; [reflexivity |]. cbn [follows]. intros H.
  destruct (Ascii.eqb_spec c ","%char) as [-> | _]; [reflexivity |].
  destruct (Ascii.eqb_spec c "}"%char) as [-> | _]; [reflexivity |].
  destruct (Ascii.eqb_spec c "]"%char) as [-> | _]; [reflexivity |].
  discriminate.
Qed.

End Layout.

(** *** The lexer on the indented text *)

Section Reading.

Variable pre ind : bytes.
Hypothesis Hpre : forallb isSpace pre = true.
Hypothesis Hind : forallb isSpace ind = true.

Lemma follows_tail {A : Type} (r : A -> bytes) (ms : list A) (obj : bool)
    (rest : bytes) :
  follows (List.concat (map (fun m => [","%char] ++ r m) ms)
           ++ (if obj then "}" else "]")%char :: rest) = true.
Proof. destruct ms; [now destruct obj | reflexivity]. Qed.

Lemma indent_tail {A : Type} (r : A -> bytes) (tk : A -> list token)
    (obj : bool) (ms : list A) (d : Z) (rest : bytes) :
  Forall (fun m => indentReads pre ind (r m) (tk m)) ms ->
  lex lexBetween
    (indentLoop pre ind stateBetween false (d + 1)
       (List.concat (map (fun m => [","%char] ++ r m) ms)
        ++ (if obj then "}" else "]")%char :: rest))
  = List.concat (map (fun m => [TComma] ++ tk m) ms)
      ++ (if obj then TEndObject else TEndArray)
      :: lex lexBetween (indentLoop pre ind stateBetween false d rest).
Proof.
  intros Hms. induction Hms as [| m ms Hm Hms IH].
  - cbn [map List.concat app]. rewrite indent_close.
    replace (d + 1 - 1) with d by lia.
    rewrite lex_newline by assumption.
    apply lex_punctuation. now destruct obj.
  - cbn [map List.concat]. rewrite <- !app_assoc. cbn [app].
    rewrite indent_comma.
    rewrite (lex_punctuation ","%char TComma) by reflexivity. f_equal.
    rewrite lex_newline by assumption.
    rewrite (Hm false (d + 1)) by apply follows_tail.
    f_equal. exact IH.
Qed.

Lemma indent_members {A : Type} (r : A -> bytes) (tk : A -> list token)
    (obj : bool) (ms : list A) :
  Forall (fun m => indentReads pre ind (r m) (tk m)) ms ->
  indentReads pre ind
    ((if obj then "{" else "[")%char
       :: join [","%char] (map r ms) ++ [(if obj then "}" else "]")%char])
    ((if obj then TBeginObject else TBeginArray)
       :: join [TComma] (map tk ms)
       ++ [if obj then TEndObject else TEndArray]).
Proof.
  intros Hms ni d rest Hrest. cbn [app]. rewrite <- !app_assoc. cbn [app].
  rewrite indent_open, lex_fired by assumption.
  rewrite (lex_punctuation _ (if obj then TBeginObject else TBeginArray))
    by now destruct obj.
  f_equal. destruct Hms as [| m ms Hm Hms].
  - cbn [map join app]. rewrite indent_close_empty.
    apply lex_punctuation. now destruct obj.
  - cbn [map]. rewrite (join_cons [","%char]), (join_cons [TComma]).
    rewrite !map_map, <- !app_assoc.
    rewrite (Hm true) by apply follows_tail.
    f_equal. now apply indent_tail.
Qed.

Lemma indent_literal text :
  text <> [] -> forallb literalByte text = true ->
  indentReads pre ind text [TLiteral text].
Proof.
  intros Hne Htext ni d rest Hrest.
  destruct text as [| c text]; [congruence |].
  cbn [forallb] in Htext. apply andb_true_iff in Htext.
  destruct Htext as [Hc Htext]. cbn [app].
  rewrite indent_literal_first by exact Hc.
  rewrite lex_fired by assumption.
  rewrite indent_literal_more by exact Htext.
  rewrite indent_after_literal by exact Hrest.
  change (c :: text ++ ?x) with ((c :: text) ++ x).
  apply lex_literal.
  - discriminate.
  - cbn [forallb]. now rewrite Hc, Htext.
  - now apply ends_indent.
Qed.

Lemma indent_quoted body :
  closed false body = true ->
  indentReads pre ind (dquote :: body ++ [dquote]) [TString body].
Proof.
  intros Hbody ni d rest Hrest. cbn [app]. rewrite <- app_assoc. cbn [app].
  rewrite indent_string by exact Hbody.
  rewrite lex_fired by assumption. now apply lex_string.
Qed.

(** The lexer reads what [Indent] makes of the compact text of a
    well-formed tree as the tokens of the tree. *)
Lemma lex_indent t :
  wellFormed t = true -> indentReads pre ind (render t) (tokensOf t).
Proof.
  induction t as [text | body | elems IH | fields IH] using jtree_nested_ind;
    intros Hwf.
  - cbn [wellFormed] in Hwf. cbn [render tokensOf].
    destruct text as [| c text]; [discriminate |].
    apply indent_literal; [discriminate | exact Hwf].
  - cbn [wellFormed] in Hwf. cbn [render tokensOf].
    now apply indent_quoted.
  - cbn [wellFormed] in Hwf. cbn [render tokensOf].
    apply (indent_members render tokensOf false).
    rewrite forallb_forall in Hwf. rewrite Forall_forall in IH |- *.
    intros e He. apply IH; [exact He | now apply Hwf].
  - cbn [wellFormed] in Hwf. cbn [render tokensOf].
    apply (indent_members
             (fun kv => renderField (fst kv, render (snd kv)))
             (fun kv => TString (fst kv) :: TColon :: tokensOf (snd kv))
             true).
    rewrite forallb_forall in Hwf. rewrite Forall_forall in IH |- *.
    intros kv Hkv ni d rest Hrest.
    specialize (Hwf kv Hkv). apply andb_true_iff in Hwf.
    destruct Hwf as [Hkey Hval].
    unfold renderField. cbn [fst snd app]. rewrite <- app_assoc. cbn [app].
    rewrite indent_string by exact Hkey.
    rewrite lex_fired by assumption.
    rewrite lex_string by exact Hkey. f_equal.
    rewrite indent_colon.
    rewrite (lex_punctuation ":"%char TColon) by reflexivity. f_equal.
    change (" "%char :: ?x) with ([" "%char] ++ x).
    rewrite (lex_spaces [" "%char]) by reflexivity.
    rewrite (IH kv Hkv Hval false) by exact Hrest. reflexivity.
Qed.

End Reading.

(** *** What the encoder writes is well formed *)

Lemma uint_literal d :
  forallb literalByte (bytesOf (NilEmpty.string_of_uint d)) = true.
Proof.
  induction d; cbn [NilEmpty.string_of_uint bytesOf list_ascii_of_string forallb];
    try reflexivity; unfold bytesOf in *; now rewrite IHd.
Qed.

Lemma uint_nonzero_literal d :
  bytesOf (NilZero.string_of_uint d) <> []
  /\ forallb literalByte (bytesOf (NilZero.string_of_uint d)) = true.
Proof.
  unfold NilZero.string_of_uint.
  destruct d; try (split; [discriminate | reflexivity]);
    (split; [discriminate | apply uint_literal]).
Qed.

Lemma int_literal i :
  bytesOf (NilZero.string_of_int i) <> []
  /\ forallb literalByte (bytesOf (NilZero.string_of_int i)) = true.
Proof.
  destruct i as [d | d]; cbn [NilZero.string_of_int].
  - apply uint_nonzero_literal.
  - split; [discriminate |]. cbn [bytesOf list_ascii_of_string forallb].
    destruct (uint_nonzero_literal d) as [_ H]. unfold bytesOf in H.
    now rewrite H.
Qed.

Lemma FormatInt_literal n :
  FormatInt n <> [] /\ forallb literalByte (FormatInt n) = true.
Proof. apply int_literal. Qed.

Lemma app_nonempty {A : Type} (x y : list A) : x <> [] -> x ++ y <> [].
Proof. destruct x; [congruence | discriminate]. Qed.

Lemma FormatFloat_literal d :
  FormatFloat d <> [] /\ forallb literalByte (FormatFloat d) = true.
Proof.
  assert (Hfrac : forall f, forallb literalByte (formatFraction f) = true).
  { intros f. unfold formatFraction.
    destruct f; try reflexivity; cbn [forallb];
      change (literalByte "."%char) with true; cbn [andb]; apply uint_literal. }
  assert (Hexp : forall e, forallb literalByte (formatExponent e) = true).
  { intros [u | u]; cbn [formatExponent forallb];
      [change (literalByte "+"%char) with true
      | change (literalByte "-"%char) with true];
      cbn [andb]; apply uint_nonzero_literal. }
  destruct d as [i f | i f e]; cbn [FormatFloat];
    destruct (int_literal i) as [Hne Hlit].
  - split; [now apply app_nonempty |].
    now rewrite forallb_app, Hlit, Hfrac.
  - split; [now apply app_nonempty |].
    rewrite !forallb_app, Hlit, Hfrac. cbn [forallb andb].
    change (literalByte "e"%char) with true. cbn [andb]. apply Hexp.
Qed.

Lemma closed_app x y :
  closed false x = true -> closed false (x ++ y) = closed false y.
Proof.
  assert (H : forall esc, closed esc x = true ->
                          closed esc (x ++ y) = closed false y).
  { induction x as [| c x IH]; intros esc Hx.
    - destruct esc; [discriminate | reflexivity].
    - cbn [closed app] in *. destruct esc; [now apply IH |].
      destruct (Ascii.eqb c dquote); [discriminate |].
      destruct (Ascii.eqb c backslash); now apply IH. }
  apply H.
Qed.

Lemma hexDigit_plain n : closed false [hexDigit n] = true.
Proof.
  unfold hexDigit. generalize (N.to_nat n). intros k.
  do 16 (destruct k as [| k]; [reflexivity |]).
  cbn [bytesOf list_ascii_of_string nth]. now destruct k.
Qed.

Lemma hexDigit_tail n rest :
  closed false (hexDigit n :: rest) = closed false rest.
Proof. apply (closed_app [hexDigit n] rest), hexDigit_plain. Qed.

Lemma escapeByte_closed b : closed false (escapeByte b) = true.
Proof.
  unfold escapeByte. destruct (htmlSafe b) eqn:Hsafe.
  - unfold htmlSafe in Hsafe. cbn [closed].
    destruct (Ascii.eqb_spec b dquote) as [-> | _]; [discriminate |].
    destruct (Ascii.eqb_spec b backslash) as [-> | _]; [discriminate |].
    reflexivity.
  - destruct (Ascii.eqb b backslash || Ascii.eqb b dquote); [reflexivity |].
    destruct (Ascii.eqb b newlineChar); [reflexivity |].
    destruct (Ascii.eqb b "013"%char); [reflexivity |].
    destruct (Ascii.eqb b "009"%char); [reflexivity |].
    change (closed false (backslash :: "u"%char :: "0"%char :: "0"%char
                            :: [hexDigit (N.shiftr (N_of_ascii b) 4);
                                hexDigit (N.land (N_of_ascii b) 15)]))
      with (closed false [hexDigit (N.shiftr (N_of_ascii b) 4);
                          hexDigit (N.land (N_of_ascii b) 15)]).
    rewrite hexDigit_tail. apply hexDigit_plain.
Qed.

Lemma high_byte_plain b rest :
  (N_of_ascii b <? 128)%N = false ->
  closed false (b :: rest) = closed false rest.
Proof.
  intros H. cbn [closed].
  destruct (Ascii.eqb_spec b dquote) as [-> | _]; [discriminate |].
  destruct (Ascii.eqb_spec b backslash) as [-> | _]; [discriminate |].
  reflexivity.
Qed.

Lemma escapeString_closed s : closed false (escapeString s) = true.
Proof.
  assert (H : forall n s, (List.length s <= n)%nat ->
                          closed false (escapeString s) = true).
  { clear s. induction n as [| n IH]; intros s Hlen.
    - destruct s; [reflexivity | cbn in Hlen; lia].
    - destruct s as [| b rest]; [reflexivity |].
      cbn [List.length] in Hlen. cbn [escapeString].
      destruct (N_of_ascii b <? 128)%N eqn:Hb.
      + rewrite closed_app by apply escapeByte_closed. apply IH. lia.
      + destruct rest as [| b2 [| b3 rest']].
        * now rewrite high_byte_plain.
        * rewrite high_byte_plain by exact Hb. apply IH.
          cbn in Hlen |- *. lia.
        * destruct (Ascii.eqb b "226"%char && Ascii.eqb b2 "128"%char
                    && (Ascii.eqb b3 "168"%char || Ascii.eqb b3 "169"%char)).
          -- change (closed false
                       (backslash :: "u"%char :: "2"%char :: "0"%char
                          :: "2"%char :: hexDigit (N.land (N_of_ascii b3) 15)
                          :: escapeString rest'))
               with (closed false
                       (hexDigit (N.land (N_of_ascii b3) 15)
                          :: escapeString rest')).
             rewrite hexDigit_tail. apply IH. cbn in Hlen. lia.
          -- rewrite high_byte_plain by exact Hb. apply IH.
             cbn in Hlen |- *. lia. }
  apply (H (List.length s) s). lia.
Qed.

Lemma sequence_inr {A : Type} (l : list (error + A)) xs :
  sequence l = inr xs -> l = map inr xs.
Proof.
  revert xs. induction l as [| [e | a] l IH]; intros xs H.
  - cbn in H. now inversion H.
  - discriminate.
  - cbn [sequence] in H. destruct (sequence l) as [e | ys]; [discriminate |].
    inversion H; subst. cbn [map]. f_equal. now apply IH.
Qed.

Lemma Forall_insertKey {A : Type} (P : string * A -> Prop) k a l :
  P (k, a) -> Forall P l -> Forall P (insertKey k a l).
Proof.
  intros Hka Hl. induction Hl as [| [k' a'] l Hx Hl IH]; cbn [insertKey].
  - now constructor.
  - destruct (String.ltb k k'); repeat constructor; auto.
Qed.

Lemma Forall_sortKeys {A : Type} (P : string * A -> Prop) l :
  Forall P l -> Forall P (sortKeys l).
Proof.
  intros Hl. induction Hl as [| [k a] l Hx Hl IH]; cbn [sortKeys].
  - constructor.
  - now apply Forall_insertKey.
Qed.

Lemma elems_trees elems bs :
  Forall encodesTree elems ->
  map encode elems = map inr bs ->
  exists ts, forallb wellFormed ts = true /\ map render ts = bs.
Proof.
  intros H. revert bs. induction H as [| e elems He Hes IH]; intros bs Heq.
  - destruct bs; [| discriminate]. now exists [].
  - destruct bs as [| b bs]; [discriminate |]. cbn [map] in Heq.
    inversion Heq as [[Hb Hbs]].
    destruct (He b Hb) as (t & Hwf & Ht).
    destruct (IH bs Hbs) as (ts & Hwfs & Hts).
    exists (t :: ts). cbn [forallb map]. rewrite Hwf, Hwfs, Ht, Hts. auto.
Qed.

Lemma fields_trees (l : list (string * (error + bytes))) kvs :
  Forall (fun kr => forall b, snd kr = inr b ->
                    exists t, wellFormed t = true /\ render t = b) l ->
  sequence (map withKey l) = inr kvs ->
  exists fs : list (bytes * jtree),
    forallb (fun kv => closed false (fst kv) && wellFormed (snd kv)) fs = true
    /\ map (fun kv => renderField (fst kv, render (snd kv))) fs
       = map encodeField kvs.
Proof.
  intros H. revert kvs. induction H as [| [k r] l Hkr Hl IH]; intros kvs Heq.
  - cbn in Heq. inversion Heq; subst. now exists [].
  - cbn [map sequence] in Heq. unfold withKey at 1 in Heq. cbn [fst snd] in Heq.
    destruct r as [e | b]; [discriminate |].
    destruct (sequence (map withKey l)) as [e | kvs']; [discriminate |].
    inversion Heq; subst.
    destruct (Hkr b eq_refl) as (t & Hwf & Ht).
    destruct (IH kvs' eq_refl) as (fs & Hwfs & Hfs).
    exists ((escapeString (bytesOf k), t) :: fs).
    cbn [forallb map fst snd].
    rewrite escapeString_closed, Hwf, Hwfs, Hfs, Ht. split; [reflexivity |].
    f_equal. unfold renderField, encodeField, encodeString. cbn [fst snd app].
    now rewrite <- app_assoc.
Qed.

Lemma encode_tree v : encodesTree v.
Proof.
  induction v as [| b | n | f | s | elems IH | fields IH]
    using value_nested_ind; intros out Hout; cbn [encode] in Hout.
  - inversion Hout; subst. now exists (JLiteral (bytesOf "null")).
  - inversion Hout; subst.
    exists (JLiteral (bytesOf (if b then "true" else "false"))).
    now destruct b.
  - inversion Hout; subst. exists (JLiteral (FormatInt n)).
    destruct (FormatInt_literal n) as [Hne Hlit]. cbn [wellFormed render].
    split; [| reflexivity]. destruct (FormatInt n); [congruence | exact Hlit].
  - destruct f as [| negative | d]; try discriminate.
    inversion Hout; subst. exists (JLiteral (FormatFloat d)).
    destruct (FormatFloat_literal d) as [Hne Hlit]. cbn [wellFormed render].
    split; [| reflexivity]. destruct (FormatFloat d); [congruence | exact Hlit].
  - inversion Hout; subst. exists (JString (escapeString (bytesOf s))).
    cbn [wellFormed render]. split; [apply escapeString_closed | reflexivity].
  - destruct (sequence (map encode elems)) as [e | bs] eqn:Hseq;
      [discriminate |].
    inversion Hout; subst.
    destruct (elems_trees elems bs IH (sequence_inr _ _ Hseq))
      as (ts & Hwf & Hts).
    exists (JArray ts). cbn [wellFormed render]. now rewrite Hts.
  - cbn zeta in Hout.
    destruct (sequence
                (map withKey
                   (sortKeys (map (fun kv => (fst kv, encode (snd kv))) fields))))
      as [e | kvs] eqn:Hseq; [discriminate |].
    inversion Hout; subst.
    assert (Hall :
      Forall (fun kr : string * (error + bytes) =>
                forall b, snd kr = inr b ->
                          exists t, wellFormed t = true /\ render t = b)
        (sortKeys (map (fun kv => (fst kv, encode (snd kv))) fields))).
    { apply Forall_sortKeys. rewrite Forall_map.
      eapply Forall_impl; [| exact IH]. intros kv Hkv b. cbn [snd]. apply Hkv. }
    destruct (fields_trees _ kvs Hall Hseq) as (fs & Hwf & Hfs).
    exists (JObject fs). cbn [wellFormed render]. now rewrite Hfs.
Qed.

Lemma Marshal_tree d b :
  Marshal d = inr b ->
  exists fs, wellFormed (JObject fs) = true /\ render (JObject fs) = b.
Proof.
  unfold Marshal. cbn [encode]. cbn zeta. intros Hout.
  destruct (sequence
              (map withKey
                 (sortKeys (map (fun kv => (fst kv, encode (snd kv))) d))))
    as [e | kvs] eqn:Hseq; [discriminate |].
  inversion Hout; subst.
  assert (Hall :
    Forall (fun kr : string * (error + bytes) =>
              forall b, snd kr = inr b ->
                        exists t, wellFormed t = true /\ render t = b)
      (sortKeys (map (fun kv => (fst kv, encode (snd kv))) d))).
  { apply Forall_sortKeys. rewrite Forall_map. apply Forall_forall.
    intros kv _ b. cbn [snd]. apply encode_tree. }
  destruct (fields_trees _ kvs Hall Hseq) as (fs & Hwf & Hfs).
  exists fs. cbn [wellFormed render]. now rewrite Hfs.
Qed.

(** *** The parser on the tokens of a tree *)

Lemma tokensOf_head t :
  exists h tl,
    tokensOf t = h :: tl /\ h <> TEndArray /\ h <> TEndObject.
Proof.
  destruct t; cbn [tokensOf]; eexists _, _;
    (split; [reflexivity | split; discriminate]).
Qed.

Lemma parse_elems_back es :
  Forall parsesBack es ->
  forall fuel rest,
    (List.length (List.concat (map (fun e => TComma :: tokensOf e) es)) < fuel)%nat ->
    parseElems fuel
      (List.concat (map (fun e => TComma :: tokensOf e) es)
       ++ TEndArray :: rest)
    = Some (es, rest).
Proof.
  intros H. induction H as [| e es He Hes IH]; intros fuel rest Hfuel.
  - destruct fuel as [| fuel]; [cbn in Hfuel; lia | reflexivity].
  - cbn [map List.concat] in Hfuel |- *.
    rewrite !length_app in Hfuel. cbn [List.length] in Hfuel.
    destruct fuel as [| fuel]; [lia |].
    rewrite <- !app_assoc. cbn [app parseElems].
    rewrite He by lia. cbn [andThen fst snd].
    rewrite IH by lia. reflexivity.
Qed.

Lemma parse_fields_back fs :
  Forall (fun kv => parsesBack (snd kv)) fs ->
  forall fuel rest,
    (List.length
       (List.concat
          (map (fun kv => TComma :: TString (fst kv) :: TColon
                                       :: tokensOf (snd kv)) fs)) < fuel)%nat ->
    parseFields fuel
      (List.concat
         (map (fun kv => TComma :: TString (fst kv) :: TColon
                                      :: tokensOf (snd kv)) fs)
       ++ TEndObject :: rest)
    = Some (fs, rest).
Proof.
  intros H. induction H as [| [k v] fs Hv Hfs IH]; intros fuel rest Hfuel.
  - destruct fuel as [| fuel]; [cbn in Hfuel; lia | reflexivity].
  - cbn [map List.concat fst snd] in Hfuel |- *.
    rewrite !length_app in Hfuel. cbn [List.length] in Hfuel.
    destruct fuel as [| fuel]; [lia |].
    rewrite <- !app_assoc. cbn [app parseFields].
    cbn [snd] in Hv. rewrite Hv by lia. cbn [andThen fst snd].
    rewrite IH by lia. reflexivity.
Qed.

Lemma parse_back t : parsesBack t.
Proof.
  induction t as [text | body | elems IH | fields IH] using jtree_nested_ind;
    intros fuel rest Hfuel; cbn [tokensOf] in Hfuel |- *.
  - destruct fuel as [| fuel]; [cbn in Hfuel; lia | reflexivity].
  - destruct fuel as [| fuel]; [cbn in Hfuel; lia | reflexivity].
  - cbn [List.length] in Hfuel. destruct fuel as [| fuel]; [lia |].
    destruct IH as [| e es He Hes]; [reflexivity |].
    cbn [map] in Hfuel |- *. rewrite join_cons, map_map in Hfuel |- *.
    rewrite !length_app in Hfuel. cbn [List.length app] in Hfuel.
    destruct (tokensOf_head e) as (h & tl & Hh & Harr & Hobj).
    cbn [app]. rewrite <- !app_assoc.
    assert (Hstep :
      parseValue (S fuel)
        (TBeginArray :: tokensOf e
           ++ List.concat (map (fun x => TComma :: tokensOf x) es)
           ++ [TEndArray] ++ rest)
      = andThen (parseValue fuel
                   (tokensOf e
                    ++ List.concat (map (fun x => TComma :: tokensOf x) es)
                    ++ [TEndArray] ++ rest))
          (fun r =>
             andThen (parseElems fuel (snd r))
               (fun rs => Some (JArray (fst r :: fst rs), snd rs)))).
    { rewrite Hh. cbn [app parseValue]. destruct h; congruence. }
    assert (Hf : (List.length (tokensOf e) <= fuel)%nat) by lia.
    rewrite Hstep, (He fuel _ Hf). cbn [andThen fst snd].
    cbn [app]. rewrite parse_elems_back by (exact Hes || lia).
    reflexivity.
  - cbn [List.length] in Hfuel. destruct fuel as [| fuel]; [lia |].
    destruct IH as [| [k v] fs Hv Hfs]; [reflexivity |].
    cbn [map fst snd] in Hfuel |- *. rewrite join_cons, map_map in Hfuel |- *.
    rewrite !length_app in Hfuel. cbn [List.length app] in Hfuel.
    cbn [app parseValue]. rewrite <- !app_assoc.
    cbn [snd] in Hv. rewrite Hv by lia. cbn [andThen fst snd].
    cbn [app]. rewrite parse_fields_back by (exact Hfs || lia).
    reflexivity.
Qed.

Lemma parseJSON_tokens text t :
  lex lexBetween (bytesOf text) = tokensOf t -> parseJSON text = Some t.
Proof.
  intros H. unfold parseJSON. rewrite H.
  rewrite <- (app_nil_r (tokensOf t)) at 2.
  rewrite parse_back by lia. reflexivity.
Qed.

(** *** The tokens written out are the compact text *)

Lemma withoutSpace_app ts1 ts2 :
  withoutSpace (ts1 ++ ts2) = withoutSpace ts1 ++ withoutSpace ts2.
Proof. unfold withoutSpace. now rewrite map_app, concat_app. Qed.

Lemma withoutSpace_join {A : Type} (tk : A -> list token) (r : A -> bytes) ms :
  Forall (fun m => withoutSpace (tk m) = r m) ms ->
  withoutSpace (join [TComma] (map tk ms)) = join [","%char] (map r ms).
Proof.
  intros H. induction H as [| m ms Hm Hms IH]; [reflexivity |].
  destruct ms as [| m' ms'].
  - cbn [map join]. exact Hm.
  - cbn [map] in IH |- *. rewrite (join_two [TComma]), (join_two [","%char]).
    rewrite !withoutSpace_app, Hm, IH. reflexivity.
Qed.

Lemma withoutSpace_tokensOf t : withoutSpace (tokensOf t) = render t.
Proof.
  induction t as [text | body | elems IH | fields IH] using jtree_nested_ind;
    cbn [tokensOf render].
  - unfold withoutSpace. cbn. apply app_nil_r.
  - unfold withoutSpace. cbn [map List.concat tokenText]. apply app_nil_r.
  - change (TBeginArray :: ?x) with ([TBeginArray] ++ x).
    rewrite !withoutSpace_app.
    rewrite (withoutSpace_join tokensOf render) by exact IH. reflexivity.
  - change (TBeginObject :: ?x) with ([TBeginObject] ++ x).
    rewrite !withoutSpace_app.
    rewrite (withoutSpace_join
               (fun kv => TString (fst kv) :: TColon :: tokensOf (snd kv))
               (fun kv => renderField (fst kv, render (snd kv)))).
    + reflexivity.
    + eapply Forall_impl; [| exact IH]. intros [k v] Hv. cbn [fst snd] in *.
      change (TString k :: TColon :: tokensOf v)
        with ([TString k; TColon] ++ tokensOf v).
      rewrite withoutSpace_app, Hv. unfold renderField, withoutSpace.
      cbn [map List.concat tokenText fst snd app].
      rewrite <- !app_assoc. reflexivity.
Qed.

(** *** The claim *)

Lemma jsonString_json d inv s :
  jsonString d inv s
  = Returned
      (match json (prettyprint inv s) d with
       | inl err =>
           (EmptyString,
            Some (withMessage err "unable to marshal document to json"))
       | inr b => (string_of_list_ascii b, None)
       end) s.
Proof.
  unfold jsonString, viper_GetBool_prettyprint, bind, json.
  destruct (prettyprint inv s).
  - now destruct (MarshalIndent d "" "  ").
  - now destruct (Marshal d).
Qed.

Lemma bytesOf_string b : bytesOf (string_of_list_ascii b) = b.
Proof. apply list_ascii_of_string_of_list_ascii. Qed.

(** The two texts of a document: both read as the tokens of one well
    formed object. *)
Lemma json_tokens d pretty compact :
  json true d = inr pretty -> json false d = inr compact ->
  exists fields,
    wellFormed (JObject fields) = true
    /\ compact = render (JObject fields)
    /\ lex lexBetween pretty = tokensOf (JObject fields)
    /\ lex lexBetween compact = tokensOf (JObject fields).
Proof.
  unfold json, MarshalIndent. intros Hp Hc. rewrite Hc in Hp.
  inversion Hp; subst. clear Hp.
  destruct (Marshal_tree d compact Hc) as (fields & Hwf & Hrender).
  exists fields. split; [exact Hwf |]. split; [now symmetry |].
  rewrite <- Hrender. split.
  - unfold Indent.
    rewrite <- (app_nil_r (render (JObject fields))).
    rewrite (lex_indent (bytesOf "") (bytesOf "  ") eq_refl eq_refl
               (JObject fields) Hwf false 0 []) by reflexivity.
    apply app_nil_r.
  - rewrite <- (app_nil_r (render (JObject fields))).
    rewrite (lex_render (JObject fields) Hwf []) by reflexivity.
    apply app_nil_r.
Qed.

(** C5.  When [jsonString] returns a text for a document with
    [prettyprint] set and a text with [prettyprint] unset, the two
    texts differ in white space only: the lexer finds the same tokens in
    both, and those tokens written out with nothing between them are the
    compact text.  Parsing either text yields the same field map, with
    the same keys and the same values. *)
Theorem prettyprint_changes_white_space_only :
  forall (d : docData) (inv1 inv2 : Invocation) (s1 s2 s1' s2' : State)
         (pretty compact : string),
    prettyprint inv1 s1 = true ->
    prettyprint inv2 s2 = false ->
    jsonString d inv1 s1 = Returned (pretty, None) s1' ->
    jsonString d inv2 s2 = Returned (compact, None) s2' ->
    lex lexBetween (bytesOf pretty) = lex lexBetween (bytesOf compact)
    /\ withoutSpace (lex lexBetween (bytesOf pretty)) = bytesOf compact
    /\ exists fields,
         parseJSON pretty = Some (JObject fields)
         /\ parseJSON compact = Some (JObject fields).
Proof.
  intros d inv1 inv2 s1 s2 s1' s2' pretty compact Hpp1 Hpp2 Hp Hc.
  rewrite jsonString_json, Hpp1 in Hp. rewrite jsonString_json, Hpp2 in Hc.
  destruct (json true d) as [e1 | p] eqn:Hjp; [discriminate |].
  destruct (json false d) as [e2 | c] eqn:Hjc; [discriminate |].
  inversion Hp; subst. inversion Hc; subst. clear Hp Hc.
  destruct (json_tokens d p c Hjp Hjc) as (fields & Hwf & Hrender & Hlp & Hlc).
  rewrite !bytesOf_string. split; [congruence |]. split.
  - rewrite Hlp, Hrender. apply withoutSpace_tokensOf.
  - exists fields. split; apply parseJSON_tokens; now rewrite bytesOf_string.
Qed.

(** The sample document, pretty and compact. *)
Lemma prettyprint_changes_white_space_only_witness :
  lex lexBetween (bytesOf (sampleText true))
  = lex lexBetween (bytesOf (sampleText false))
  /\ exists fields,
       parseJSON (sampleText true) = Some (JObject fields)
       /\ parseJSON (sampleText false) = Some (JObject fields).
Proof.
  destruct (prettyprint_changes_white_space_only (Data (sampleDoc 30))
              (streaming 1 false []) (streaming 1 false [])
              prettyState initial prettyState initial
              (sampleText true) (sampleText false))
    as (Hlex & _ & Hparse).
  - reflexivity.
  - reflexivity.
  - reflexivity.
  - reflexivity.
  - split; [exact Hlex | exact Hparse].
Defined.

(** * Further properties of the program *)

(** ** [get] *)

Lemma get_exact documentID more inv s :
  client s <> None ->
  get getCmd (documentID :: more) inv s
  = match store_get inv (setting inv s "collection") documentID with
    | inl err =>
        Returned (Some (withMessage err "unable to get document"))
          (fetching inv s documentID)
    | inr docSnap =>
        match json (prettyprint inv s) (Data docSnap) with
        | inl err =>
            Returned
              (Some (withMessage err "unable to marshal document to json"))
              (fetching inv s documentID)
        | inr b =>
            Returned None
              (write (string_of_list_ascii b +++ nl)
                 (fetching inv s documentID))
        end
    end.
Proof.
  intros Hclient. destruct (client s) as [p |] eqn:Hp; [| congruence].
  unfold get, collection, Doc_Get, jsonString, viper_GetBool_prettyprint.
  unfold viper_GetString, fmt_Print, fmt_Println, fetching.
  unfold bind, ret, ask, get_state, modify.
  destruct (verbose s); cbn [client write]; rewrite Hp;
    cbn [ref_path Client_Collection];
    match goal with
    | |- context [store_get inv ?col documentID] =>
        change col with (setting inv s "collection");
        destruct (store_get inv (setting inv s "collection") documentID)
          as [err | docSnap]
    end;
    try reflexivity;
    match goal with
    | |- context [if ?b then MarshalIndent _ _ _ else _] =>
        change b with (prettyprint inv s)
    end;
    fold (json (prettyprint inv s) (Data docSnap));
    destruct (json (prettyprint inv s) (Data docSnap)); reflexivity.
Qed.

Lemma fetching_prepared inv s1 documentID :
  stdout (fetching inv (prepared inv s1) documentID)
  = stdout s1 ++ found inv documentID s1
  /\ calls (fetching inv (prepared inv s1) documentID)
     = calls s1
         ++ [CallNewClient (setting inv s1 "project");
             CallGet (setting inv s1 "collection") documentID].
Proof.
  unfold fetching, found, prepared. cbn [verbose set_client record set_verbose].
  destruct (flag_verbose inv); cbn; rewrite <- ?app_assoc;
    split; try reflexivity; now rewrite app_nil_r.
Qed.

(** ** The loop of [iterate], whatever the stream *)

(** Every run of the loop prints the lines of a leading run [docs] of
    the stream, and ends at the item after it for one of four reasons. *)
Lemma iterateLoop_shape limit unlimited iter c inv s r s' :
  iterateLoop limit unlimited iter c inv s = Returned r s' ->
  exists docs rest,
    iter = map inr docs ++ rest
    /\ Forall (serializes (prettyprint inv s)) docs
    /\ stdout s' = stdout s ++ map (line (prettyprint inv s)) docs
    /\ (unlimited = false -> - 2 ^ 63 <= c -> limit <= 2 ^ 63 - 1 ->
        Z.of_nat (List.length docs) <= Z.max 1 (limit - c + 1))
    /\ (r = None ->
        rest = []
        \/ (unlimited = false /\ docs <> []
            /\ (- 2 ^ 63 <= c -> limit <= 2 ^ 63 - 1 ->
                Z.of_nat (List.length docs) = Z.max 1 (limit - c + 1))))
    /\ (forall e, r = Some e ->
        (exists err rest',
           rest = inl err :: rest'
           /\ e = withMessage err "unable to iterate documents")
        \/ (exists doc err rest',
              rest = inr doc :: rest'
              /\ json (prettyprint inv s) (Data doc) = inl err
              /\ e = withMessage err "unable to marshal document to json")).
Proof.
  revert c s. induction iter as [| [err | doc] iter IH]; intros c s.
  - rewrite iterateLoop_done. intros [= <- <-]. exists [], [].
    cbn. rewrite app_nil_r. repeat split; auto; try lia; discriminate.
  - rewrite iterateLoop_error. intros [= <- <-]. exists [], (inl err :: iter).
    cbn. rewrite app_nil_r. repeat split; auto; try lia; try discriminate.
    intros e [= <-]. left. eauto.
  - rewrite iterateLoop_doc.
    destruct (json (prettyprint inv s) (Data doc)) as [err | b] eqn:Hjson.
    + intros [= <- <-]. exists [], (inr doc :: iter).
      cbn. rewrite app_nil_r. repeat split; auto; try lia; try discriminate.
      intros e [= <-]. right. eauto 6.
    + assert (Hser : serializes (prettyprint inv s) doc) by (now exists b).
      assert (Hline : line (prettyprint inv s) doc
                      = string_of_list_ascii b +++ nl).
      { unfold line. now rewrite Hjson. }
      cbv zeta.
      destruct (negb unlimited && (c >=? limit)) eqn:Hstop.
      * intros [= <- <-]. exists [doc], iter.
        apply andb_true_iff in Hstop. destruct Hstop as [Hun Hge].
        apply negb_true_iff in Hun. rewrite Z.geb_leb in Hge.
        apply Z.leb_le in Hge.
        cbn [map app List.length stdout write record]. rewrite Hline.
        repeat split; auto; try lia; try discriminate.
        intros _. right. repeat split; auto; try discriminate. lia.
      * intros Hrun. apply IH in Hrun.
        destruct Hrun as (docs & rest & -> & Hdocs & Hout & Hle & Hnone & Hsome).
        rewrite prettyprint_write, prettyprint_record in *.
        exists (doc :: docs), rest.
        assert (Hc : unlimited = false -> - 2 ^ 63 <= c ->
                     limit <= 2 ^ 63 - 1 ->
                     c < limit /\ int (c + 1) = c + 1).
        { intros -> Hlow Hhigh. cbn [negb andb] in Hstop.
          rewrite Z.geb_leb in Hstop. apply Z.leb_gt in Hstop.
          split; [exact Hstop |]. unfold int. apply int64_small. lia. }
        split; [reflexivity |]. split; [now constructor |].
        split; [| split; [| split]].
        -- rewrite Hout. cbn [stdout write record map]. rewrite Hline.
           now rewrite <- app_assoc.
        -- intros Hun Hlow Hhigh. destruct (Hc Hun Hlow Hhigh) as [Hlt Hint].
           specialize (Hle Hun). rewrite Hint in Hle.
           cbn [List.length]. lia.
        -- intros Hr. destruct (Hnone Hr) as [-> | (Hun & Hne & Heq)];
             [now left |].
           right. repeat split; auto; try discriminate.
           intros Hlow Hhigh. destruct (Hc Hun Hlow Hhigh) as [Hlt Hint].
           rewrite Hint in Heq. cbn [List.length]. lia.
        -- exact Hsome.
Qed.

(** The same for a streaming operation. *)
Lemma operation_shape cmd args inv s :
  cmd <> getCmd -> ValidateArgs cmd args = None -> client s <> None ->
  namesCollection (setting inv s "collection") = true ->
  exists r s' docs rest,
    RunE cmd args inv s = Returned r s'
    /\ store_documents inv (opQuery inv s cmd args) = map inr docs ++ rest
    /\ Forall (serializes (prettyprint inv s)) docs
    /\ stdout s'
       = stdout (opStart inv s cmd args) ++ map (line (prettyprint inv s)) docs
    /\ (flag_unlimited inv = false -> flag_limit inv <= 2 ^ 63 - 1 ->
        Z.of_nat (List.length docs) <= Z.max 1 (flag_limit inv))
    /\ (r = None ->
        rest = []
        \/ (flag_unlimited inv = false /\ docs <> []
            /\ (flag_limit inv <= 2 ^ 63 - 1 ->
                Z.of_nat (List.length docs) = Z.max 1 (flag_limit inv))))
    /\ (forall e, r = Some e ->
        (exists err rest',
           rest = inl err :: rest'
           /\ e = withMessage err "unable to iterate documents")
        \/ (exists doc err rest',
              rest = inr doc :: rest'
              /\ json (prettyprint inv s) (Data doc) = inl err
              /\ e = withMessage err "unable to marshal document to json")).
Proof.
  intros Hcmd Hargs Hclient Hpath.
  destruct (opStart_same inv s cmd args) as (notice & _ & _ & Hpp & _).
  set (s0 := record (CallDocuments (opQuery inv s cmd args))
               (opStart inv s cmd args)).
  assert (Hpp0 : prettyprint inv s0 = prettyprint inv s).
  { subst s0. now rewrite prettyprint_record. }
  destruct (iterateLoop_returns (flag_limit inv) (flag_unlimited inv)
              (store_documents inv (opQuery inv s cmd args)) 1 inv s0)
    as (r & s1 & Hloop).
  destruct (iterateLoop_shape _ _ _ _ _ _ _ _ Hloop)
    as (docs & rest & Hstore & Hdocs & Hout & Hle & Hnone & Hsome).
  rewrite Hpp0 in *.
  exists r, (record CallStop s1), docs, rest.
  split; [apply (operation_opens cmd args inv s _ _ Hcmd Hargs Hclient Hpath Hloop) |].
  split; [exact Hstore |]. split; [exact Hdocs |].
  split; [exact Hout |]. split; [| split].
  - intros Hun Hhigh. specialize (Hle Hun). lia.
  - intros Hr. destruct (Hnone Hr) as [-> | (Hun & Hne & Heq)]; [now left |].
    right. repeat split; auto. intros Hhigh. specialize (Heq ltac:(lia) Hhigh).
    lia.
  - exact Hsome.
Qed.

(** A streaming operation whose loop reaches the tail of the stream and
    ends there at once: the lines before stay, [Next] was called for
    each document and once for the tail, and the stream is stopped. *)
Lemma operation_ends cmd args inv s docs tail r :
  cmd <> getCmd -> ValidateArgs cmd args = None -> client s <> None ->
  namesCollection (setting inv s "collection") = true ->
  store_documents inv (opQuery inv s cmd args) = map inr docs ++ tail ->
  Forall (serializes (prettyprint inv s)) docs ->
  reaches inv (List.length docs) ->
  (forall c s0,
     iterateLoop (flag_limit inv) (flag_unlimited inv) tail c inv s0
     = Returned r (record CallNext s0)) ->
  exists s',
    RunE cmd args inv s = Returned r s'
    /\ stdout s'
       = stdout (opStart inv s cmd args) ++ map (line (prettyprint inv s)) docs
    /\ calls s'
       = calls s ++ streamed (opQuery inv s cmd args) (S (List.length docs)).
Proof.
  intros Hcmd Hargs Hclient Hpath Hstore Hser Hreach Hlast.
  destruct (opStart_same inv s cmd args) as (notice & _ & Hcalls & Hpp & _).
  set (s0 := record (CallDocuments (opQuery inv s cmd args))
               (opStart inv s cmd args)).
  assert (Hpp0 : prettyprint inv s0 = prettyprint inv s).
  { subst s0. now rewrite prettyprint_record. }
  rewrite <- Hpp0 in Hser.
  destruct (loop_reaches inv s0 docs tail Hser Hreach) as [c Hrun].
  rewrite Hlast, <- Hstore in Hrun. eexists. split; [| split].
  - apply (operation_opens cmd args inv s _ _ Hcmd Hargs Hclient Hpath Hrun).
  - cbn [stdout record]. rewrite printed_stdout, Hpp0. reflexivity.
  - cbn [calls record]. rewrite printed_calls. subst s0. cbn [calls record].
    rewrite Hcalls. unfold streamed. cbn [repeat].
    rewrite <- !app_assoc. cbn [app]. now rewrite repeat_snoc.
Qed.

(** X1.  Whatever the stream of the collection holds (the configured
    path names a collection), [documents] and [where] print the lines of
    a leading run of its documents, in the order of the stream
    and nothing else after the notice of [where]: no document is skipped,
    repeated or printed out of turn, also when the run ends in an error.
    With [unlimited] unset the run has at most [max 1 limit] documents. *)
Theorem streaming_prints_leading_documents :
  forall (cmd : Command) (args : list string) (inv : Invocation) (s : State),
    cmd <> getCmd ->
    ValidateArgs cmd args = None ->
    client s <> None ->
    namesCollection (setting inv s "collection") = true ->
    exists r s' docs rest,
      RunE cmd args inv s = Returned r s'
      /\ store_documents inv (opQuery inv s cmd args) = map inr docs ++ rest
      /\ Forall (serializes (prettyprint inv s)) docs
      /\ stdout s'
         = stdout (opStart inv s cmd args)
             ++ map (line (prettyprint inv s)) docs
      /\ (flag_unlimited inv = false -> flag_limit inv <= 2 ^ 63 - 1 ->
          Z.of_nat (List.length docs) <= Z.max 1 (flag_limit inv)).
Proof.
  intros cmd args inv s Hcmd Hargs Hclient Hpath.
  destruct (operation_shape cmd args inv s Hcmd Hargs Hclient Hpath)
    as (r & s' & docs & rest & Hrun & Hstore & Hser & Hout & Hle & _).
  exists r, s', docs, rest. auto.
Qed.

(** X2.  The result of [documents] and [where] on a collection (the
    configured path names one) tells where the loop stopped.  When the operation returns no error, it has printed every
    document of the stream, or [unlimited] is unset and it has printed
    exactly [max 1 limit] of them.  When it returns an error, the item
    after the printed documents is an error of the stream, wrapped with
    "unable to iterate documents", or a document that does not
    serialize, with the encoder's error wrapped by [jsonString]. *)
Theorem streaming_result_tells_where_it_stopped :
  forall (cmd : Command) (args : list string) (inv : Invocation) (s : State)
         (r : option error) (s' : State),
    cmd <> getCmd ->
    ValidateArgs cmd args = None ->
    client s <> None ->
    namesCollection (setting inv s "collection") = true ->
    RunE cmd args inv s = Returned r s' ->
    exists docs rest,
      store_documents inv (opQuery inv s cmd args) = map inr docs ++ rest
      /\ stdout s'
         = stdout (opStart inv s cmd args)
             ++ map (line (prettyprint inv s)) docs
      /\ (r = None ->
          rest = []
          \/ (flag_unlimited inv = false /\ docs <> []
              /\ (flag_limit inv <= 2 ^ 63 - 1 ->
                  Z.of_nat (List.length docs) = Z.max 1 (flag_limit inv))))
      /\ (forall e, r = Some e ->
          (exists err rest',
             rest = inl err :: rest'
             /\ e = withMessage err "unable to iterate documents")
          \/ (exists doc err rest',
                rest = inr doc :: rest'
                /\ json (prettyprint inv s) (Data doc) = inl err
                /\ e = withMessage err "unable to marshal document to json")).
Proof.
  intros cmd args inv s r s' Hcmd Hargs Hclient Hpath Hrun.
  destruct (operation_shape cmd args inv s Hcmd Hargs Hclient Hpath)
    as (r0 & s0 & docs & rest & Hrun0 & Hstore & _ & Hout & _ & Hnone & Hsome).
  rewrite Hrun in Hrun0. injection Hrun0 as <- <-.
  exists docs, rest. auto.
Qed.

(** X3.  When the stream of the collection (the configured path names
    one) ends before the bound is reached, with [unlimited] set or with
    fewer documents than [limit], a streaming operation prints every document and returns no error; [Next] has
    been called once for each document and once more, for the end of the
    stream, and the stream is stopped. *)
Theorem short_stream_renders_all :
  forall (cmd : Command) (args : list string) (inv : Invocation) (s : State)
         (docs : list DocumentSnapshot),
    cmd <> getCmd ->
    ValidateArgs cmd args = None ->
    client s <> None ->
    namesCollection (setting inv s "collection") = true ->
    store_documents inv (opQuery inv s cmd args) = map inr docs ->
    Forall (serializes (prettyprint inv s)) docs ->
    flag_unlimited inv = true
    \/ Z.of_nat (List.length docs) < flag_limit inv <= 2 ^ 63 - 1 ->
    exists s',
      RunE cmd args inv s = Returned None s'
      /\ stdout s'
         = stdout (opStart inv s cmd args)
             ++ map (line (prettyprint inv s)) docs
      /\ calls s'
         = calls s ++ streamed (opQuery inv s cmd args) (S (List.length docs)).
Proof.
  intros cmd args inv s docs Hcmd Hargs Hclient Hpath Hstore Hser Hreach.
  apply (operation_ends cmd args inv s docs [] None Hcmd Hargs Hclient Hpath).
  - now rewrite app_nil_r.
  - exact Hser.
  - exact Hreach.
  - intros c s0. apply iterateLoop_done.
Qed.

(** X4.  When the stream of the collection (the configured path names
    one) answers an error after [k] documents that serialize, and the bound lets the loop ask for the next item, a
    streaming operation returns that error wrapped with "unable to
    iterate documents"; the [k] lines printed before stay on standard
    output, [Next] was called [k + 1] times and never again, and the
    stream is stopped. *)
Theorem stream_error_aborts_stream :
  forall (cmd : Command) (args : list string) (inv : Invocation) (s : State)
         (before : list DocumentSnapshot) (err : error)
         (rest : DocumentIterator),
    cmd <> getCmd ->
    ValidateArgs cmd args = None ->
    client s <> None ->
    namesCollection (setting inv s "collection") = true ->
    store_documents inv (opQuery inv s cmd args)
    = map inr before ++ inl err :: rest ->
    Forall (serializes (prettyprint inv s)) before ->
    flag_unlimited inv = true
    \/ Z.of_nat (List.length before) < flag_limit inv <= 2 ^ 63 - 1 ->
    exists s',
      RunE cmd args inv s
      = Returned (Some (withMessage err "unable to iterate documents")) s'
      /\ stdout s'
         = stdout (opStart inv s cmd args)
             ++ map (line (prettyprint inv s)) before
      /\ calls s'
         = calls s
             ++ streamed (opQuery inv s cmd args) (S (List.length before)).
Proof.
  intros cmd args inv s before err rest Hcmd Hargs Hclient Hpath Hstore Hser
    Hreach.
  apply (operation_ends cmd args inv s before (inl err :: rest) _
           Hcmd Hargs Hclient Hpath).
  - exact Hstore.
  - exact Hser.
  - exact Hreach.
  - intros c s0. apply iterateLoop_error.
Qed.

(** [where] over the sample stream with a limit of two prints the first
    two documents. *)
Lemma streaming_prints_leading_documents_witness :
  exists r s' docs rest,
    RunE whereCmd ["age"; ">"; "18"]%string
      (streaming 2 false sampleStream) ready
    = Returned r s'
    /\ sampleStream = map inr docs ++ rest
    /\ stdout s' = map (line false) docs
    /\ Z.of_nat (List.length docs) <= 2.
Proof.
  destruct (streaming_prints_leading_documents whereCmd
              ["age"; ">"; "18"]%string (streaming 2 false sampleStream)
              ready)
    as (r & s' & docs & rest & Hrun & Hstore & _ & Hout & Hle).
  - discriminate.
  - reflexivity.
  - discriminate.
  - reflexivity.
  - exists r, s', docs, rest. split; [exact Hrun |]. split; [exact Hstore |].
    split; [exact Hout |]. apply Hle; [reflexivity | cbn; lia].
Defined.

(** A stream that fails at its second item. *)
Lemma streaming_result_tells_where_it_stopped_witness :
  exists docs rest,
    [inr (sampleDoc 30); inl (errorString "deadline exceeded")]
    = map inr docs ++ rest
    /\ ((exists err rest',
           rest = inl err :: rest'
           /\ withMessage (errorString "deadline exceeded")
                "unable to iterate documents"
              = withMessage err "unable to iterate documents")
        \/ (exists doc err rest',
              rest = inr doc :: rest'
              /\ json false (Data doc) = inl err
              /\ withMessage (errorString "deadline exceeded")
                   "unable to iterate documents"
                 = withMessage err "unable to marshal document to json")).
Proof.
  destruct (streaming_result_tells_where_it_stopped documentsCmd []
              (streaming 100 false
                 [inr (sampleDoc 30); inl (errorString "deadline exceeded")])
              ready
              (Some (withMessage (errorString "deadline exceeded")
                       "unable to iterate documents"))
              (record CallStop
                 (record CallNext
                    (printed false [sampleDoc 30]
                       (record
                          (CallDocuments
                             {| q_collection := "users"; q_where := None |})
                          ready)))))
    as (docs & rest & Hstore & _ & _ & Hsome).
  - discriminate.
  - reflexivity.
  - discriminate.
  - reflexivity.
  - reflexivity.
  - exists docs, rest. split; [exact Hstore |]. apply Hsome. reflexivity.
Defined.

(** [documents] over the three sample documents with the default limit of
    a hundred. *)
Lemma short_stream_renders_all_witness :
  exists s',
    RunE documentsCmd [] (streaming 100 false sampleStream) ready
    = Returned None s'
    /\ stdout s' = map (line false) [sampleDoc 30; sampleDoc 41; sampleDoc 52]
    /\ calls s'
       = [CallDocuments {| q_collection := "users"; q_where := None |};
          CallNext; CallNext; CallNext; CallNext; CallStop].
Proof.
  destruct (short_stream_renders_all documentsCmd []
              (streaming 100 false sampleStream) ready
              [sampleDoc 30; sampleDoc 41; sampleDoc 52])
    as (s' & Hrun & Hout & Hcalls).
  - discriminate.
  - reflexivity.
  - discriminate.
  - reflexivity.
  - reflexivity.
  - repeat constructor; apply sampleDoc_serializes.
  - right. cbn. lia.
  - exists s'. split; [exact Hrun |]. split; [exact Hout | exact Hcalls].
Defined.

(** A stream that fails after its first document. *)
Lemma stream_error_aborts_stream_witness :
  exists s',
    RunE documentsCmd []
      (streaming 100 false
         [inr (sampleDoc 30); inl (errorString "deadline exceeded");
          inr (sampleDoc 52)]) ready
    = Returned
        (Some (withMessage (errorString "deadline exceeded")
                 "unable to iterate documents")) s'
    /\ stdout s' = [line false (sampleDoc 30)]
    /\ calls s'
       = [CallDocuments {| q_collection := "users"; q_where := None |};
          CallNext; CallNext; CallStop].
Proof.
  destruct (stream_error_aborts_stream documentsCmd []
              (streaming 100 false
                 [inr (sampleDoc 30); inl (errorString "deadline exceeded");
                  inr (sampleDoc 52)])
              ready [sampleDoc 30] (errorString "deadline exceeded")
              [inr (sampleDoc 52)])
    as (s' & Hrun & Hout & Hcalls).
  - discriminate.
  - reflexivity.
  - discriminate.
  - reflexivity.
  - reflexivity.
  - repeat constructor; apply sampleDoc_serializes.
  - right. cbn. lia.
  - exists s'. split; [exact Hrun |]. split; [exact Hout | exact Hcalls].
Defined.

(** ** [get], from the command line *)

(** A run of [get] that reaches the store. *)
Lemma main_get documentID inv s1 :
  initConfig inv initial = Returned tt s1 ->
  setting inv s1 "project" <> EmptyString ->
  setting inv s1 "collection" <> EmptyString ->
  new_client inv = None ->
  exists r s0,
    get getCmd [documentID] inv (prepared inv s1) = Returned r s0
    /\ main getCmd [documentID] inv initial
       = match r with
         | Some err => Exited 1 (write (Error err +++ nl) s0)
         | None => Returned tt s0
         end
    /\ match store_get inv (setting inv s1 "collection") documentID with
       | inl err =>
           r = Some (withMessage err "unable to get document")
           /\ stdout s0 = stdout s1 ++ found inv documentID s1
       | inr docSnap =>
           match json (prettyprint inv s1) (Data docSnap) with
           | inl err =>
               r = Some (withMessage err "unable to marshal document to json")
               /\ stdout s0 = stdout s1 ++ found inv documentID s1
           | inr b =>
               r = None
               /\ stdout s0
                  = stdout s1 ++ found inv documentID s1
                      ++ [line (prettyprint inv s1) docSnap]
           end
       end
    /\ calls s0
       = [CallNewClient (setting inv s1 "project");
          CallGet (setting inv s1 "collection") documentID].
Proof.
  intros Hinit Hproject Hcollection Hnew.
  pose proof (undefinedKey_none inv s1 Hproject Hcollection) as Hkey.
  destruct (Execute_runs getCmd [documentID] inv s1 Hinit eq_refl Hkey Hnew)
    as [Hexec Hclient].
  change (RunE getCmd [documentID]) with (get getCmd [documentID]) in Hexec.
  destruct (initConfig_returned inv initial s1 Hinit) as (Hcalls & _).
  destruct (prepared_same inv s1) as (_ & _ & Hpp & Hset & _).
  destruct (fetching_prepared inv s1 documentID) as [Hout0 Hcalls0].
  rewrite Hcalls in Hcalls0. cbn [calls initial app] in Hcalls0.
  pose proof (get_exact documentID [] inv (prepared inv s1) Hclient) as Hget.
  rewrite Hset, Hpp in Hget.
  destruct (store_get inv (setting inv s1 "collection") documentID)
    as [err | docSnap].
  - eexists _, _. split; [exact Hget |]. split; [| split; [split |]].
    + exact (main_of_Execute _ _ _ _ _ _ (eq_trans Hexec Hget)).
    + reflexivity.
    + exact Hout0.
    + exact Hcalls0.
  - unfold line.
    destruct (json (prettyprint inv s1) (Data docSnap)) as [err | b].
    + eexists _, _. split; [exact Hget |]. split; [| split; [split |]].
      * exact (main_of_Execute _ _ _ _ _ _ (eq_trans Hexec Hget)).
      * reflexivity.
      * exact Hout0.
      * exact Hcalls0.
    + eexists _, _. split; [exact Hget |]. split; [| split; [split |]].
      * exact (main_of_Execute _ _ _ _ _ _ (eq_trans Hexec Hget)).
      * reflexivity.
      * cbn [stdout write]. rewrite Hout0. now rewrite <- app_assoc.
      * exact Hcalls0.
Qed.

(** X5.  [get <id>] with the settings defined, a client and a document
    that the store finds and that serializes: the program asks for the
    client, then for the document [id] of the configured collection, and
    for nothing else; it prints the line of the document, after the
    notice "Finding ..." when [--verbose] is given, and ends with
    status 0. *)
Theorem get_renders_the_document :
  forall (documentID : string) (inv : Invocation) (s1 : State)
         (docSnap : DocumentSnapshot),
    initConfig inv initial = Returned tt s1 ->
    setting inv s1 "project" <> EmptyString ->
    setting inv s1 "collection" <> EmptyString ->
    new_client inv = None ->
    store_get inv (setting inv s1 "collection") documentID = inr docSnap ->
    serializes (prettyprint inv s1) docSnap ->
    exists s',
      main getCmd [documentID] inv initial = Returned tt s'
      /\ exitCode (main getCmd [documentID] inv initial) = 0
      /\ stdout s'
         = stdout s1 ++ found inv documentID s1
             ++ [line (prettyprint inv s1) docSnap]
      /\ calls s'
         = [CallNewClient (setting inv s1 "project");
            CallGet (setting inv s1 "collection") documentID].
Proof.
  intros documentID inv s1 docSnap Hinit Hproject Hcollection Hnew Hstore
    [b Hjson].
  destruct (main_get documentID inv s1 Hinit Hproject Hcollection Hnew)
    as (r & s0 & _ & Hmain & Hcase & Hcalls).
  rewrite Hstore, Hjson in Hcase. destruct Hcase as [-> Hout].
  exists s0. rewrite Hmain. auto.
Qed.

(** X6.  [get <id>] prints no document when it fails.  When the fetch
    answers an error, the program prints, after the notice of
    [--verbose], only "unable to get document: " and the error, and exits
    with status 1; when the document does not serialize, only "unable to
    marshal document to json: " and the encoder's error.  In both runs the
    store was asked for the client and for the document, once each. *)
Theorem get_failure_renders_no_document :
  forall (documentID : string) (inv : Invocation) (s1 : State),
    initConfig inv initial = Returned tt s1 ->
    setting inv s1 "project" <> EmptyString ->
    setting inv s1 "collection" <> EmptyString ->
    new_client inv = None ->
    forall (step : string) (err : error),
      (store_get inv (setting inv s1 "collection") documentID = inl err
       /\ step = "unable to get document"%string)
      \/ (exists docSnap,
            store_get inv (setting inv s1 "collection") documentID
            = inr docSnap
            /\ json (prettyprint inv s1) (Data docSnap) = inl err
            /\ step = "unable to marshal document to json"%string) ->
      exists s',
        main getCmd [documentID] inv initial = Exited 1 s'
        /\ stdout s'
           = stdout s1 ++ found inv documentID s1
               ++ [step +++ ": " +++ Error err +++ nl]
        /\ calls s'
           = [CallNewClient (setting inv s1 "project");
              CallGet (setting inv s1 "collection") documentID].
Proof.
  intros documentID inv s1 Hinit Hproject Hcollection Hnew step err Hfail.
  destruct (main_get documentID inv s1 Hinit Hproject Hcollection Hnew)
    as (r & s0 & _ & Hmain & Hcase & Hcalls).
  destruct Hfail as [[Hstore ->] | (docSnap & Hstore & Hjson & ->)];
    rewrite Hstore in Hcase; [| rewrite Hjson in Hcase];
    destruct Hcase as [-> Hout]; eexists; (split; [exact Hmain |]);
    cbn [stdout calls write Error]; rewrite Hout, <- app_assoc, append_assoc;
    auto.
Qed.

(** The sample store holds the document. *)
Lemma get_renders_the_document_witness :
  exists s',
    main getCmd ["ada"%string] (fetchRun true (inr (sampleDoc 30))) initial
    = Returned tt s'
    /\ stdout s'
       = [configNotFound;
          "Finding (ProjectID:demo, CollectionPath:users, ID:ada, "
          +++ "Emulator:false)" +++ nl;
          line false (sampleDoc 30)]
    /\ calls s' = [CallNewClient "demo"; CallGet "users" "ada"].
Proof.
  destruct (get_renders_the_document "ada"%string
              (fetchRun true (inr (sampleDoc 30)))
              (write configNotFound initial) (sampleDoc 30))
    as (s' & Hrun & _ & Hout & Hcalls).
  - reflexivity.
  - discriminate.
  - discriminate.
  - reflexivity.
  - reflexivity.
  - apply sampleDoc_serializes.
  - exists s'. split; [exact Hrun |]. split; [exact Hout | exact Hcalls].
Defined.

(** The sample store does not hold the document. *)
Lemma get_failure_renders_no_document_witness :
  exists s',
    main getCmd ["ada"%string]
      (fetchRun false (inl (errorString "not found"))) initial
    = Exited 1 s'
    /\ stdout s' = [configNotFound; "unable to get document: not found" +++ nl]
    /\ calls s' = [CallNewClient "demo"; CallGet "users" "ada"].
Proof.
  destruct (get_failure_renders_no_document "ada"%string
              (fetchRun false (inl (errorString "not found")))
              (write configNotFound initial))
    with (step := "unable to get document"%string)
         (err := errorString "not found")
    as (s' & Hrun & Hout & Hcalls).
  - reflexivity.
  - discriminate.
  - discriminate.
  - reflexivity.
  - left. split; reflexivity.
  - exists s'. split; [exact Hrun |]. split; [exact Hout | exact Hcalls].
Defined.

(** ** The arguments of the commands *)

Lemma ValidateArgs_get args :
  ValidateArgs getCmd args = None -> exists documentID, args = [documentID].
Proof.
  unfold ValidateArgs. destruct args as [| documentID [| ? ?]];
    cbn [List.length Nat.eqb]; try discriminate. eauto.
Qed.

(** X7.  [get] takes exactly one argument and [where] exactly three;
    [documents] takes any.  With another number of arguments the run
    ends before [preRunE]: the program prints "accepts n arg(s), received
    m" and exits with status 1, without validating the settings, asking
    for a client or calling the store, so that [get] and [where] never
    index their arguments out of range. *)
Theorem wrong_arity_stops_before_preRunE :
  forall (cmd : Command) (args : list string) (inv : Invocation) (s1 : State)
         (n : nat),
    initConfig inv initial = Returned tt s1 ->
    cmd = getCmd /\ n = 1%nat \/ cmd = whereCmd /\ n = 3%nat ->
    List.length args <> n ->
    main cmd args inv initial
    = Exited 1
        (write ("accepts " +++ NilZero.string_of_uint (Nat.to_uint n)
                +++ " arg(s), received "
                +++ NilZero.string_of_uint (Nat.to_uint (List.length args))
                +++ nl) s1)
    /\ calls (finalState (main cmd args inv initial)) = []
    /\ client (finalState (main cmd args inv initial)) = None
    /\ ValidateArgs documentsCmd args = None.
Proof.
  intros cmd args inv s1 n Hinit Hcmd Hlen.
  destruct (initConfig_returned inv initial s1 Hinit) as (Hcalls & Hclient & _).
  assert (Hargs :
    ValidateArgs cmd args
    = Some (errorString
              ("accepts " +++ NilZero.string_of_uint (Nat.to_uint n)
               +++ " arg(s), received "
               +++ NilZero.string_of_uint (Nat.to_uint (List.length args))))).
  { apply Nat.eqb_neq in Hlen.
    destruct Hcmd as [[-> ->] | [-> ->]]; unfold ValidateArgs;
      now rewrite Hlen. }
  assert (Hexec : Execute cmd args inv initial
                  = Returned (ValidateArgs cmd args) s1).
  { rewrite (Execute_after_init cmd args inv initial s1 Hinit), Hargs.
    reflexivity. }
  rewrite Hargs in Hexec.
  rewrite (main_of_Execute _ _ _ _ _ _ Hexec).
  cbn [Error finalState calls client write].
  rewrite !append_assoc. auto.
Qed.

(** [get] with two arguments and no settings: the number of arguments is
    what the program reports. *)
Lemma wrong_arity_stops_before_preRunE_witness :
  main getCmd ["a"; "b"]%string
    (sampleRun None None 100 false (inr "/home/ada"%string) None []) initial
  = Exited 1
      (write ("accepts 1 arg(s), received 2" +++ nl)
         (write configNotFound initial)).
Proof.
  destruct (wrong_arity_stops_before_preRunE getCmd ["a"; "b"]%string
              (sampleRun None None 100 false (inr "/home/ada"%string) None [])
              (write configNotFound initial) 1%nat)
    as (Hmain & _).
  - reflexivity.
  - left. split; reflexivity.
  - cbn. lia.
  - exact Hmain.
Defined.

(** ** Every run *)

(** The calls of a streaming operation. *)
Lemma operation_calls cmd args inv s :
  cmd <> getCmd -> ValidateArgs cmd args = None -> client s <> None ->
  namesCollection (setting inv s "collection") = true ->
  exists r s' n,
    RunE cmd args inv s = Returned r s'
    /\ calls s' = calls s ++ streamed (opQuery inv s cmd args) n.
Proof.
  intros Hcmd Hargs Hclient Hpath.
  destruct (opStart_same inv s cmd args) as (notice & _ & Hcalls & _ & _).
  set (s0 := record (CallDocuments (opQuery inv s cmd args))
               (opStart inv s cmd args)).
  destruct (iterateLoop_returns (flag_limit inv) (flag_unlimited inv)
              (store_documents inv (opQuery inv s cmd args)) 1 inv s0)
    as (r & s1 & Hloop).
  destruct (iterateLoop_calls _ _ _ _ _ _ _ _ Hloop) as [n Hn].
  exists r, (record CallStop s1), (S n). split.
  - apply (operation_opens cmd args inv s _ _ Hcmd Hargs Hclient Hpath Hloop).
  - cbn [calls record]. rewrite Hn. subst s0. cbn [calls record].
    rewrite Hcalls. unfold streamed. rewrite <- !app_assoc. reflexivity.
Qed.

(** The calls of [get]. *)
Lemma get_calls documentID inv s :
  client s <> None ->
  exists r s',
    get getCmd [documentID] inv s = Returned r s'
    /\ calls s' = calls s ++ [CallGet (setting inv s "collection") documentID].
Proof.
  intros Hclient.
  pose proof (get_exact documentID [] inv s Hclient) as Hget.
  assert (Hcalls : calls (fetching inv s documentID)
                   = calls s
                       ++ [CallGet (setting inv s "collection") documentID]).
  { unfold fetching. cbn [calls record]. now destruct (verbose s). }
  destruct (store_get inv (setting inv s "collection") documentID)
    as [err | docSnap];
    [| destruct (json (prettyprint inv s) (Data docSnap))];
    eexists _, _; (split; [exact Hget | exact Hcalls]).
Qed.

(** How [initConfig] ends, by the home directory and the search for the
    configuration file. *)
Lemma initConfig_outcome inv s :
  (exists err,
     home_dir inv = inl err
     /\ initConfig inv s = Exited 1 (write (Error err +++ nl) s))
  \/ (exists home err,
        home_dir inv = inr home
        /\ config_file inv = Some (inl err)
        /\ (forall name locations,
              err <> ConfigFileNotFoundError name locations)
        /\ initConfig inv s
           = Panicked
               ("Fatal error config file: " +++ Error err +++ " " +++ nl) s)
  \/ (exists s1, initConfig inv s = Returned tt s1).
Proof.
  destruct (home_dir inv) as [err | home] eqn:Hhome.
  - left. exists err. split; [reflexivity |].
    now apply initConfig_no_home.
  - right. destruct (config_file inv) as [[err | f] |] eqn:Hfile.
    + assert (Hdec :
        (exists name locations, err = ConfigFileNotFoundError name locations)
        \/ forall name locations,
             err <> ConfigFileNotFoundError name locations).
      { destruct err; try (right; discriminate). left. eauto. }
      destruct Hdec as [(name & locations & ->) | Hother].
      * right. eexists. unfold initConfig, homedir_Dir, viper_ReadInConfig.
        unfold bind, ask, ret. rewrite Hhome, Hfile. reflexivity.
      * left. exists home, err. repeat split; auto.
        now apply (initConfig_unreadable inv s home).
    + right. eexists. apply (initConfig_loaded inv s home f Hhome Hfile).
    + right. eexists. apply (initConfig_not_found inv s home Hhome Hfile).
Qed.

(** How a run ends once [initConfig] has returned: [main] returns, or
    exits with status 1, or panics where [documents] and [where]
    dereference a [nil] collection reference; and the store was called as
    far as the run went. *)
Lemma main_after_init cmd args inv s1 :
  initConfig inv initial = Returned tt s1 ->
  exists s',
    (main cmd args inv initial = Returned tt s'
     \/ main cmd args inv initial = Exited 1 s'
     \/ (main cmd args inv initial = Panicked nilDereference s'
         /\ ValidateArgs cmd args = None /\ cmd <> getCmd
         /\ undefinedKey inv s1 = None /\ new_client inv = None
         /\ namesCollection (setting inv s1 "collection") = false
         /\ calls s' = [CallNewClient (setting inv s1 "project")]))
    /\ (calls s' = []
        \/ calls s' = [CallNewClient (setting inv s1 "project")]
        \/ (exists documentID,
              cmd = getCmd /\ args = [documentID]
              /\ calls s'
                 = [CallNewClient (setting inv s1 "project");
                    CallGet (setting inv s1 "collection") documentID])
        \/ (exists n,
              cmd <> getCmd
              /\ calls s'
                 = CallNewClient (setting inv s1 "project")
                     :: streamed (opQuery inv s1 cmd args) n)).
Proof.
  intros Hinit.
  destruct (initConfig_returned inv initial s1 Hinit) as (Hcalls & _).
  cbn [calls initial] in Hcalls.
  pose proof (Execute_after_init cmd args inv initial s1 Hinit) as Hexec.
  destruct (ValidateArgs cmd args) as [e |] eqn:Hargs.
  { rewrite (main_of_Execute _ _ _ _ _ _ Hexec).
    eexists. split; [right; left; reflexivity |]. left. exact Hcalls. }
  destruct (undefinedKey inv s1) as [key |] eqn:Hkey.
  { rewrite (preRunE_undefined _ _ _ _ _ Hkey) in Hexec.
    rewrite (main_of_Execute _ _ _ _ _ _ Hexec).
    eexists. split; [right; left; reflexivity |]. left. exact Hcalls. }
  rewrite (preRunE_defined _ _ _ _ Hkey) in Hexec.
  destruct (prepared_same inv s1) as (_ & Hcalls1 & _ & Hset & _).
  rewrite Hcalls in Hcalls1. cbn [app] in Hcalls1.
  destruct (new_client inv) as [err |] eqn:Hnew.
  { rewrite (main_of_Execute _ _ _ _ _ _ Hexec).
    eexists. split; [right; left; reflexivity |]. right. left. exact Hcalls1. }
  assert (Hclient : client (prepared inv s1) <> None).
  { unfold prepared. rewrite Hnew. discriminate. }
  assert (Hend : forall r s0,
            RunE cmd args inv (prepared inv s1) = Returned r s0 ->
            exists s',
              (main cmd args inv initial = Returned tt s'
               \/ main cmd args inv initial = Exited 1 s')
              /\ calls s' = calls s0).
  { intros r s0 Hrun. rewrite Hrun in Hexec.
    rewrite (main_of_Execute _ _ _ _ _ _ Hexec).
    destruct r; eexists;
      (split; [(right; reflexivity) || (left; reflexivity) | reflexivity]). }
  destruct (Command_eq_getCmd cmd) as [-> | Hcmd].
  - destruct (ValidateArgs_get args Hargs) as [documentID ->].
    destruct (get_calls documentID inv (prepared inv s1) Hclient)
      as (r & s0 & Hrun & Hcalls0).
    destruct (Hend r s0 Hrun) as (s' & Hmain & Hsame).
    exists s'. split; [tauto |]. right. right. left.
    exists documentID. repeat split.
    rewrite Hsame, Hcalls0, Hcalls1, Hset. reflexivity.
  - destruct (namesCollection (setting inv s1 "collection")) eqn:Hpath.
    + destruct (operation_calls cmd args inv (prepared inv s1)
                  Hcmd Hargs Hclient Hpath)
        as (r & s0 & n & Hrun & Hcalls0).
      destruct (Hend r s0 Hrun) as (s' & Hmain & Hsame).
      exists s'. split; [tauto |]. right. right. right.
      exists n. split; [exact Hcmd |].
      rewrite Hsame, Hcalls0, Hcalls1.
      assert (Hq : opQuery inv (prepared inv s1) cmd args
                   = opQuery inv s1 cmd args).
      { unfold opQuery, filtered, allDocuments. now rewrite Hset. }
      rewrite Hq. reflexivity.
    + cbv beta iota in Hexec.
      rewrite (operation_nil cmd args inv (prepared inv s1)
                 Hcmd Hargs Hclient Hpath) in Hexec.
      destruct (opStart_same inv (prepared inv s1) cmd args)
        as (notice & _ & Hcalls0 & _ & _).
      rewrite Hcalls1 in Hcalls0.
      exists (opStart inv (prepared inv s1) cmd args).
      split; [| right; left; exact Hcalls0].
      right. right.
      split; [now apply main_of_Execute_panicked |].
      repeat match goal with |- _ /\ _ => split end;
        reflexivity || assumption.
Qed.

(** X8.  The calls of a run follow one protocol, whatever the command
    line, the configuration and the store.  The program calls nothing;
    or asks for a client of the configured project and stops; or asks
    for the client and then, for [get], fetches the one document named
    by its argument and, for [documents] and [where], opens one stream,
    calls [Next] on it some number of times and stops it last.  No run
    asks for a second client, fetches a second document or opens a
    second stream. *)
Theorem store_calls_follow_protocol :
  forall (cmd : Command) (args : list string) (inv : Invocation),
    let s' := finalState (main cmd args inv initial) in
    calls s' = []
    \/ (exists project,
          calls s' = [CallNewClient project]
          \/ (exists col documentID,
                cmd = getCmd /\ args = [documentID]
                /\ calls s' = [CallNewClient project; CallGet col documentID])
          \/ (exists q n,
                cmd <> getCmd
                /\ calls s' = CallNewClient project :: streamed q n)).
Proof.
  intros cmd args inv s'. subst s'.
  destruct (initConfig_outcome inv initial)
    as [(err & _ & Hinit) | [(home & err & _ & _ & _ & Hinit) | [s1 Hinit]]].
  - left. destruct (main_stops_in_initConfig cmd args inv initial) as [Hexit _].
    now rewrite (Hexit _ _ Hinit).
  - left. destruct (main_stops_in_initConfig cmd args inv initial) as [_ Hpanic].
    now rewrite (Hpanic _ _ Hinit).
  - destruct (main_after_init cmd args inv s1 Hinit) as (s' & Hmain & Hcalls).
    assert (Hfinal : finalState (main cmd args inv initial) = s').
    { destruct Hmain as [-> | [-> | [-> _]]]; reflexivity. }
    rewrite Hfinal.
    destruct Hcalls as [H | [H | [(documentID & Hcmd & Hargs & H) | (n & Hcmd & H)]]].
    + now left.
    + right. eexists. left. exact H.
    + right. eexists. right. left. eauto.
    + right. eexists. right. right. eauto.
Qed.

(** X9.  The program panics in two cases only.  The configuration file
    is there and cannot be read: the panic is that of [initConfig],
    before anything is printed or called.  Or [documents] or [where]
    runs with the settings defined and a client, and the collection path
    names no collection (an ID is empty, or the IDs end in a document):
    the [nil] reference is dereferenced where the stream would be
    opened, after the one call that asks for the client.  In that second
    case the program does panic; [get] does not.  No run dereferences a
    [nil] client or indexes the arguments out of range. *)
Theorem main_panics_in_two_cases_only :
  forall (cmd : Command) (args : list string) (inv : Invocation),
    (forall (v : string) (s' : State),
       main cmd args inv initial = Panicked v s' ->
       (exists home err,
          home_dir inv = inr home
          /\ config_file inv = Some (inl err)
          /\ (forall name locations,
                err <> ConfigFileNotFoundError name locations)
          /\ v = "Fatal error config file: " +++ Error err +++ " " +++ nl
          /\ s' = initial)
       \/ (exists s1,
             initConfig inv initial = Returned tt s1
             /\ ValidateArgs cmd args = None /\ cmd <> getCmd
             /\ undefinedKey inv s1 = None /\ new_client inv = None
             /\ namesCollection (setting inv s1 "collection") = false
             /\ v = nilDereference
             /\ calls s' = [CallNewClient (setting inv s1 "project")]))
    /\ (forall s1 : State,
          initConfig inv initial = Returned tt s1 ->
          ValidateArgs cmd args = None -> cmd <> getCmd ->
          undefinedKey inv s1 = None -> new_client inv = None ->
          namesCollection (setting inv s1 "collection") = false ->
          main cmd args inv initial
          = Panicked nilDereference (opStart inv (prepared inv s1) cmd args)).
Proof.
  intros cmd args inv. split.
  - intros v s' Hmain.
    destruct (initConfig_outcome inv initial)
      as [(err & _ & Hinit)
         | [(home & err & Hhome & Hfile & Hother & Hinit) | [s1 Hinit]]].
    + destruct (main_stops_in_initConfig cmd args inv initial) as [Hexit _].
      rewrite (Hexit _ _ Hinit) in Hmain. discriminate.
    + destruct (main_stops_in_initConfig cmd args inv initial) as [_ Hpanic].
      rewrite (Hpanic _ _ Hinit) in Hmain. injection Hmain as <- <-.
      left. exists home, err. auto.
    + destruct (main_after_init cmd args inv s1 Hinit)
        as (s0 & [H | [H | (H & Hargs & Hcmd & Hkey & Hnew & Hpath & Hcalls)]]
            & _);
        rewrite H in Hmain; try discriminate.
      injection Hmain as <- <-. right. exists s1. auto 10.
  - intros s1 Hinit Hargs Hcmd Hkey Hnew Hpath.
    destruct (Execute_runs _ _ _ _ Hinit Hargs Hkey Hnew) as [Hrun Hclient].
    rewrite (operation_nil cmd args inv (prepared inv s1) Hcmd Hargs Hclient
               Hpath) in Hrun.
    now apply main_of_Execute_panicked.
Qed.

(** An unreadable configuration file; and [documents] on the path of a
    document. *)
Lemma main_panics_in_two_cases_only_witness :
  (exists home err,
     home_dir
       (sampleRun (Some "demo"%string) (Some "users"%string) 100 false
          (inr "/home/ada"%string)
          (Some (inl (errorString "permission denied"))) sampleStream)
     = inr home
     /\ "Fatal error config file: permission denied " +++ nl
        = "Fatal error config file: " +++ Error err +++ " " +++ nl)
  /\ main documentsCmd []
       (sampleRun (Some "demo"%string) (Some "users/ada"%string) 100 false
          (inr "/home/ada"%string) None sampleStream) initial
     = Panicked nilDereference
         (set_client (Some "demo"%string)
            (record (CallNewClient "demo") (write configNotFound initial))).
Proof.
  split.
  - destruct (proj1
                (main_panics_in_two_cases_only documentsCmd []
                   (sampleRun (Some "demo"%string) (Some "users"%string) 100
                      false (inr "/home/ada"%string)
                      (Some (inl (errorString "permission denied")))
                      sampleStream))
                ("Fatal error config file: permission denied " +++ nl) initial)
      as [(home & err & Hhome & _ & _ & Hv & _) | (s1 & Hinit & _)].
    + reflexivity.
    + exists home, err. split; [exact Hhome | exact Hv].
    + discriminate.
  - apply (proj2
             (main_panics_in_two_cases_only documentsCmd []
                (sampleRun (Some "demo"%string) (Some "users/ada"%string) 100
                   false (inr "/home/ada"%string) None sampleStream))
             (write configNotFound initial)).
    + reflexivity.
    + reflexivity.
    + discriminate.
    + reflexivity.
    + reflexivity.
    + reflexivity.
Defined.

(** ** [--unlimited] and [--limit] *)

(** With [unlimited] set the loop reads neither the limit nor its
    counter. *)
Lemma iterateLoop_unlimited limit1 limit2 iter c1 c2 inv1 inv2 s :
  (forall s0, prettyprint inv1 s0 = prettyprint inv2 s0) ->
  iterateLoop limit1 true iter c1 inv1 s
  = iterateLoop limit2 true iter c2 inv2 s.
Proof.
  intros Hpp. revert c1 c2 s.
  induction iter as [| [err | doc] iter IH]; intros c1 c2 s.
  - now rewrite !iterateLoop_done.
  - now rewrite !iterateLoop_error.
  - rewrite !iterateLoop_doc, Hpp.
    destruct (json (prettyprint inv2 s) (Data doc)); [reflexivity |].
    cbn [negb andb]. apply IH.
Qed.

Lemma iterate_withLimit cmd iter inv s limit :
  flag_unlimited inv = true ->
  iterate cmd iter (withLimit limit inv) s = iterate cmd iter inv s.
Proof.
  intros Hun. destruct cmd; [reflexivity | |];
    rewrite !iterate_bound by reflexivity;
    cbn [flag_limit flag_unlimited withLimit]; rewrite Hun;
    now apply iterateLoop_unlimited.
Qed.

Lemma defer_Stop_withLimit iter cmd inv s limit :
  flag_unlimited inv = true ->
  defer (Stop iter) (iterate cmd iter) (withLimit limit inv) s
  = defer (Stop iter) (iterate cmd iter) inv s.
Proof.
  intros Hun. unfold defer. now rewrite iterate_withLimit.
Qed.

Lemma RunE_withLimit cmd args inv s limit :
  flag_unlimited inv = true ->
  RunE cmd args (withLimit limit inv) s = RunE cmd args inv s.
Proof.
  intros Hun. destruct cmd; cbn [RunE].
  - destruct args as [| documentID more]; [reflexivity |].
    destruct (client s) as [p |] eqn:Hclient.
    + rewrite !get_exact by (rewrite Hclient; discriminate). reflexivity.
    + unfold get, bind, get_state.
      destruct (verbose s); unfold collection, viper_GetString, fmt_Print;
        unfold bind, ret, ask, get_state, modify; cbn [client write];
        rewrite Hclient; reflexivity.
  - destruct args as [| path [| op [| arg more]]]; try reflexivity.
    unfold where_, collection, Documents, viper_GetString, Flags_GetBool.
    unfold CollectionRef_Query, Client_Collection, panic.
    unfold fmt_Print, bind, ret, ask, get_state, modify.
    cbn [String.eqb Ascii.eqb Bool.eqb flag_verbose withLimit].
    destruct (flag_verbose inv); cbn [client write];
      destruct (client s); try reflexivity; cbn [ref_nil ref_path];
      repeat match goal with
        | |- context [namesCollection ?path] =>
            lazymatch path with
            | setting inv s "collection"%string => fail
            | _ => change path with (setting inv s "collection")
            end
        end;
      destruct (namesCollection (setting inv s "collection"));
      try reflexivity;
      apply (defer_Stop_withLimit _ whereCmd inv _ limit Hun).
  - unfold documents, collection, Documents, viper_GetString.
    unfold CollectionRef_Query, Client_Collection, panic.
    unfold bind, ret, ask, get_state, modify.
    destruct (client s); try reflexivity. cbn [ref_nil ref_path].
    change (setting (withLimit limit inv) s "collection")
      with (setting inv s "collection").
    destruct (namesCollection (setting inv s "collection"));
      try reflexivity.
    apply (defer_Stop_withLimit _ documentsCmd inv _ limit Hun).
Qed.

Lemma initConfig_withLimit inv s limit :
  initConfig (withLimit limit inv) s = initConfig inv s.
Proof.
  unfold initConfig, homedir_Dir, viper_ReadInConfig, bind, ask, ret.
  cbv beta iota.
  change (home_dir (withLimit limit inv)) with (home_dir inv).
  destruct (home_dir inv); [reflexivity |]. cbv beta iota.
  change (config_file (withLimit limit inv)) with (config_file inv).
  destruct (config_file inv) as [[err | f] |]; try reflexivity.
  destruct err; reflexivity.
Qed.

Lemma preRunE_withLimit cmd args inv s limit :
  preRunE cmd args (withLimit limit inv) s = preRunE cmd args inv s.
Proof.
  destruct (undefinedKey inv s) as [key |] eqn:Hkey.
  - rewrite (preRunE_undefined cmd args (withLimit limit inv) s key Hkey).
    now rewrite (preRunE_undefined cmd args inv s key Hkey).
  - rewrite (preRunE_defined cmd args (withLimit limit inv) s Hkey).
    now rewrite (preRunE_defined cmd args inv s Hkey).
Qed.

(** X10.  [--unlimited] makes [--limit] void: with [unlimited] set, the
    whole run, what it prints, what it calls and how it ends, is the same
    for every value of [limit]. *)
Theorem unlimited_ignores_limit :
  forall (cmd : Command) (args : list string) (inv : Invocation) (limit : Z),
    flag_unlimited inv = true ->
    main cmd args (withLimit limit inv) initial = main cmd args inv initial.
Proof.
  intros cmd args inv limit Hun.
  assert (Hexec : Execute cmd args (withLimit limit inv) initial
                  = Execute cmd args inv initial).
  { unfold Execute, bind. rewrite initConfig_withLimit.
    destruct (initConfig inv initial) as [[] s1 | |]; try reflexivity.
    destruct (ValidateArgs cmd args); [reflexivity |].
    rewrite preRunE_withLimit.
    destruct (preRunE cmd args inv s1) as [[e |] s2 | |]; try reflexivity.
    now apply RunE_withLimit. }
  unfold main, bind. rewrite Hexec.
  destruct (Execute cmd args inv initial) as [[e |] s' | |]; reflexivity.
Qed.

(** [documents --unlimited] with a limit of one and with the default
    limit. *)
Lemma unlimited_ignores_limit_witness :
  main documentsCmd [] (streaming 1 true sampleStream) initial
  = main documentsCmd [] (streaming 100 true sampleStream) initial.
Proof.
  apply (unlimited_ignores_limit documentsCmd []
           (streaming 100 true sampleStream) 1).
  reflexivity.
Defined.

(** ** The query value of [where], printed and read again *)

(** The value of a literal, in the words used for the statement about
    [where]. *)
Lemma whereValue_decimalInteger arg :
  whereValue arg
  = match decimalInteger arg with
    | Some n => if inInt32 n then VInt n else VString arg
    | None => VString arg
    end.
Proof.
  unfold whereValue. rewrite ParseInt_signedOf.
  unfold decimalInteger. destruct (bytesOf arg) as [| c rest]; [reflexivity |].
  destruct (Ascii.eqb c "-"%char) eqn:Hminus.
  - rewrite orb_true_r, value_of_signed.
    destruct (unsignedDecimal rest); reflexivity.
  - rewrite orb_false_r. destruct (Ascii.eqb c "+"%char) eqn:Hplus.
    + rewrite value_of_signed. destruct (unsignedDecimal rest); reflexivity.
    + rewrite value_of_signed.
      destruct (unsignedDecimal (c :: rest)); reflexivity.
Qed.

Lemma digitsFrom_cons n c ds :
  digitsFrom n (c :: ds) = digitsFrom (10 * n + digitValue c) ds.
Proof. reflexivity. Qed.

(** The digits that [FormatInt] writes denote the number written. *)
Lemma digitsFrom_of_uint_acc d acc :
  digitsFrom (Z.pos acc) (bytesOf (NilEmpty.string_of_uint d))
  = Z.pos (Pos.of_uint_acc d acc).
Proof.
  revert acc. induction d; intros acc;
    cbn [NilEmpty.string_of_uint bytesOf list_ascii_of_string Pos.of_uint_acc];
    [reflexivity | ..];
    rewrite digitsFrom_cons; fold (bytesOf (NilEmpty.string_of_uint d));
    rewrite <- IHd; f_equal; unfold digitValue; simpl (Z.of_N _); lia.
Qed.

Lemma digitsFrom_of_uint d :
  digitsFrom 0 (bytesOf (NilEmpty.string_of_uint d)) = Z.of_N (Pos.of_uint d).
Proof.
  induction d;
    cbn [NilEmpty.string_of_uint bytesOf list_ascii_of_string Pos.of_uint];
    [reflexivity | ..];
    rewrite digitsFrom_cons; fold (bytesOf (NilEmpty.string_of_uint d));
    [exact IHd | ..];
    apply (digitsFrom_of_uint_acc d).
Qed.

Lemma string_of_uint_digits d :
  forallb isDigit (bytesOf (NilEmpty.string_of_uint d)) = true.
Proof.
  induction d;
    cbn [NilEmpty.string_of_uint bytesOf list_ascii_of_string forallb];
    [reflexivity | ..];
    fold (bytesOf (NilEmpty.string_of_uint d)); rewrite IHd; reflexivity.
Qed.

Lemma unsignedDecimal_of_uint d :
  d <> Decimal.Nil ->
  NilZero.string_of_uint d = NilEmpty.string_of_uint d
  /\ unsignedDecimal (bytesOf (NilEmpty.string_of_uint d))
     = Some (Z.of_N (Pos.of_uint d)).
Proof.
  intros Hd. split; [destruct d; [contradiction | reflexivity ..] |].
  pose proof (string_of_uint_digits d) as Hdigits.
  pose proof (digitsFrom_of_uint d) as Hvalue.
  unfold unsignedDecimal. rewrite Hdigits, Hvalue.
  destruct d; [contradiction | reflexivity ..].
Qed.

Lemma isDigit_not_sign c :
  isDigit c = true -> Ascii.eqb c "-"%char = false /\ Ascii.eqb c "+"%char = false.
Proof.
  intros Hc. split.
  - destruct (Ascii.eqb_spec c "-"%char) as [-> |]; [discriminate | reflexivity].
  - destruct (Ascii.eqb_spec c "+"%char) as [-> |]; [discriminate | reflexivity].
Qed.

Lemma decimalInteger_digits s :
  forallb isDigit (bytesOf s) = true ->
  decimalInteger s = unsignedDecimal (bytesOf s).
Proof.
  unfold decimalInteger. destruct (bytesOf s) as [| c rest]; [reflexivity |].
  cbn [forallb]. intros H. apply andb_true_iff in H. destruct H as [Hc _].
  destruct (isDigit_not_sign c Hc) as [-> ->]. reflexivity.
Qed.

Lemma decimalInteger_FormatInt n :
  decimalInteger (string_of_list_ascii (FormatInt n)) = Some n.
Proof.
  unfold FormatInt, bytesOf. rewrite string_of_list_ascii_of_string.
  destruct n as [| p | p]; [reflexivity | |];
    cbn [Z.to_int NilZero.string_of_int];
    destruct (unsignedDecimal_of_uint (Pos.to_uint p)
                (DecimalPos.Unsigned.to_uint_nonnil p)) as [-> Hvalue];
    rewrite DecimalPos.Unsigned.of_to in Hvalue.
  - rewrite decimalInteger_digits by apply string_of_uint_digits.
    exact Hvalue.
  - unfold decimalInteger. cbn [bytesOf list_ascii_of_string].
    change (Ascii.eqb "-" "-") with true. cbv iota.
    fold (bytesOf (NilEmpty.string_of_uint (Pos.to_uint p))).
    now rewrite Hvalue.
Qed.

(** X11.  The value of a query reads back from what [--verbose] prints
    of it.  An integer of 32 bits, printed in decimal, is the integer
    again when it is given to [where] as the literal; and for every
    literal, [where] makes the same query value of the literal and of
    what it prints for that value in the notice "Querying ...". *)
Theorem query_value_reads_back :
  (forall n : Z,
     inInt32 n = true -> whereValue (formatValue (VInt n)) = VInt n)
  /\ (forall arg : string,
        whereValue (formatValue (whereValue arg)) = whereValue arg).
Proof.
  assert (Hint : forall n : Z,
            inInt32 n = true -> whereValue (formatValue (VInt n)) = VInt n).
  { intros n Hn. cbn [formatValue].
    now rewrite whereValue_decimalInteger, decimalInteger_FormatInt, Hn. }
  split; [exact Hint |].
  intros arg. pose proof (whereValue_decimalInteger arg) as Harg.
  destruct (decimalInteger arg) as [n |].
  - destruct (inInt32 n) eqn:Hn; rewrite Harg.
    + now apply Hint.
    + cbn [formatValue]. exact Harg.
  - rewrite Harg. cbn [formatValue]. exact Harg.
Qed.

(** The witness of the round trip: thirty. *)
Lemma query_value_reads_back_witness :
  whereValue (formatValue (VInt 30)) = VInt 30.
Proof.
  apply (proj1 query_value_reads_back 30). reflexivity.
Defined.

(** ** [--verbose] *)

(** Two runs of the loop over the same stream, under the same setting of
    [prettyprint], end alike and add the same lines and calls. *)
Lemma iterateLoop_frame limit unlimited iter :
  forall c inv1 inv2 s1 s2,
    prettyprint inv1 s1 = prettyprint inv2 s2 ->
    exists r out cs s1' s2',
      iterateLoop limit unlimited iter c inv1 s1 = Returned r s1'
      /\ iterateLoop limit unlimited iter c inv2 s2 = Returned r s2'
      /\ stdout s1' = stdout s1 ++ out /\ stdout s2' = stdout s2 ++ out
      /\ calls s1' = calls s1 ++ cs /\ calls s2' = calls s2 ++ cs.
Proof.
  induction iter as [| [err | doc] iter IH]; intros c inv1 inv2 s1 s2 Hpp.
  - rewrite !iterateLoop_done. exists None, [], [CallNext]. eexists _, _.
    cbn [stdout calls record]. rewrite !app_nil_r. repeat split.
  - rewrite !iterateLoop_error. eexists _, [], [CallNext]. eexists _, _.
    cbn [stdout calls record]. rewrite !app_nil_r. repeat split.
  - rewrite !iterateLoop_doc, Hpp.
    destruct (json (prettyprint inv2 s2) (Data doc)) as [err | b].
    + eexists _, [], [CallNext]. eexists _, _.
      cbn [stdout calls record]. rewrite !app_nil_r. repeat split.
    + cbv zeta. destruct (negb unlimited && (c >=? limit)).
      * eexists _, [_], [CallNext]. eexists _, _.
        cbn [stdout calls record write]. repeat split.
      * destruct (IH (int (c + 1)) inv1 inv2
                    (write (string_of_list_ascii b +++ nl) (record CallNext s1))
                    (write (string_of_list_ascii b +++ nl) (record CallNext s2)))
          as (r & out & cs & s1' & s2' & H1 & H2 & Ho1 & Ho2 & Hc1 & Hc2).
        { now rewrite !prettyprint_write, !prettyprint_record. }
        exists r, ((string_of_list_ascii b +++ nl) :: out), (CallNext :: cs).
        exists s1', s2'. cbn [stdout calls record write] in Ho1, Ho2, Hc1, Hc2.
        rewrite <- app_assoc in Ho1, Ho2, Hc1, Hc2.
        repeat split; assumption.
Qed.

Lemma initConfig_withVerbose inv s b :
  initConfig (withVerbose b inv) s = initConfig inv s.
Proof.
  unfold initConfig, homedir_Dir, viper_ReadInConfig, bind, ask, ret.
  cbv beta iota.
  change (home_dir (withVerbose b inv)) with (home_dir inv).
  destruct (home_dir inv); [reflexivity |]. cbv beta iota.
  change (config_file (withVerbose b inv)) with (config_file inv).
  destruct (config_file inv) as [[err | f] |]; try reflexivity.
  destruct err; reflexivity.
Qed.

(** What a streaming operation prints before it opens the stream: at
    most the notice of [where]. *)
Lemma opStart_notice inv s cmd args :
  cmd <> getCmd ->
  exists notice,
    stdout (opStart inv s cmd args) = stdout s ++ notice
    /\ (List.length notice <= 1)%nat
    /\ (flag_verbose inv = false -> notice = [])
    /\ (cmd = documentsCmd -> notice = [])
    /\ calls (opStart inv s cmd args) = calls s
    /\ prettyprint inv (opStart inv s cmd args) = prettyprint inv s.
Proof.
  intros Hcmd.
  assert (Hsame : exists notice : list string,
            stdout s = stdout s ++ notice /\ (List.length notice <= 1)%nat
            /\ (flag_verbose inv = false -> notice = [])
            /\ (cmd = documentsCmd -> notice = [])
            /\ calls s = calls s /\ prettyprint inv s = prettyprint inv s).
  { exists []. rewrite app_nil_r. cbn. repeat split; auto. }
  destruct cmd; [congruence | | exact Hsame].
  destruct args as [| path [| op [| arg more]]]; try exact Hsame.
  cbn [opStart]. unfold announced.
  destruct (flag_verbose inv); [| exact Hsame].
  eexists [_]. cbn [stdout calls write List.length].
  rewrite prettyprint_write. repeat split; auto; discriminate.
Qed.

(** How [main] ends after [Execute] has returned. *)
Lemma main_end cmd args inv s r s' :
  Execute cmd args inv s = Returned r s' ->
  exitCode (main cmd args inv s) = match r with Some _ => 1 | None => 0 end
  /\ calls (finalState (main cmd args inv s)) = calls s'
  /\ stdout (finalState (main cmd args inv s))
     = stdout s' ++ match r with
                    | Some e => [Error e +++ nl]
                    | None => []
                    end.
Proof.
  intros Hexec. rewrite (main_of_Execute _ _ _ _ _ _ Hexec).
  destruct r; cbn [exitCode finalState calls stdout write];
    rewrite ?app_nil_r; auto.
Qed.

Lemma undefinedKey_settings inv s :
  undefinedKey inv s = None ->
  setting inv s "project" <> EmptyString
  /\ setting inv s "collection" <> EmptyString.
Proof.
  unfold undefinedKey.
  destruct (String.eqb_spec (setting inv s "project") EmptyString);
    [discriminate |].
  destruct (String.eqb_spec (setting inv s "collection") EmptyString);
    [discriminate |].
  auto.
Qed.

(** Two runs in which [Execute] ends alike, by returning the same
    result or by the same panic, end alike in [main]: with the same
    status, and the same last line where [main] prints the error. *)
Lemma main_end_alike cmd args inv1 inv2 s
    (how : State -> Outcome (option error)) s1' s2' :
  (exists r, how = Returned r) \/ (exists v, how = Panicked v) ->
  Execute cmd args inv1 s = how s1' ->
  Execute cmd args inv2 s = how s2' ->
  exitCode (main cmd args inv2 s) = exitCode (main cmd args inv1 s)
  /\ calls (finalState (main cmd args inv1 s)) = calls s1'
  /\ calls (finalState (main cmd args inv2 s)) = calls s2'
  /\ exists last,
       stdout (finalState (main cmd args inv1 s)) = stdout s1' ++ last
       /\ stdout (finalState (main cmd args inv2 s)) = stdout s2' ++ last.
Proof.
  intros [[r ->] | [v ->]] H1 H2.
  - destruct (main_end _ _ _ _ _ _ H1) as (He1 & Hc1 & Ho1).
    destruct (main_end _ _ _ _ _ _ H2) as (He2 & Hc2 & Ho2).
    rewrite He1, He2. repeat split; auto. eauto.
  - rewrite (main_of_Execute_panicked _ _ _ _ _ _ H1).
    rewrite (main_of_Execute_panicked _ _ _ _ _ _ H2).
    cbn [exitCode finalState]. repeat split; auto.
    exists []. now rewrite !app_nil_r.
Qed.

(** A run with [--verbose] and the same run without it, once
    [initConfig] has returned: [Execute] ends alike in both, with the
    same result or at the same panic, after the same calls, and the run
    with [--verbose] has printed one notice more, at most. *)
Lemma Execute_verbose cmd args inv s1 :
  initConfig inv initial = Returned tt s1 ->
  exists how sQ sL notice after,
    ((exists r, how = Returned r) \/ (exists v, how = Panicked v))
    /\ Execute cmd args (withVerbose false inv) initial = how sQ
    /\ Execute cmd args (withVerbose true inv) initial = how sL
    /\ calls sL = calls sQ
    /\ stdout sQ = stdout s1 ++ after
    /\ stdout sL = stdout s1 ++ notice ++ after
    /\ (List.length notice <= 1)%nat
    /\ (cmd = documentsCmd -> notice = []).
Proof.
  intros Hinit.
  set (invQ := withVerbose false inv). set (invL := withVerbose true inv).
  assert (HinitQ : initConfig invQ initial = Returned tt s1).
  { subst invQ. now rewrite initConfig_withVerbose. }
  assert (HinitL : initConfig invL initial = Returned tt s1).
  { subst invL. now rewrite initConfig_withVerbose. }
  pose proof (Execute_after_init cmd args invQ initial s1 HinitQ) as HQ.
  pose proof (Execute_after_init cmd args invL initial s1 HinitL) as HL.
  destruct (ValidateArgs cmd args) as [e |] eqn:Hargs.
  { exists (Returned (Some e)), s1, s1, [], []. rewrite !app_nil_r.
    cbn [List.length]. split; [left; eauto |]. repeat split; auto. }
  destruct (undefinedKey inv s1) as [key |] eqn:Hkey.
  { rewrite (preRunE_undefined cmd args invQ s1 key Hkey) in HQ.
    rewrite (preRunE_undefined cmd args invL s1 key Hkey) in HL.
    cbv beta iota in HQ, HL.
    eexists (Returned _), s1, s1, [], []. rewrite !app_nil_r.
    cbn [List.length]. split; [left; eauto |].
    split; [exact HQ |]. split; [exact HL |]. repeat split; auto. }
  rewrite (preRunE_defined cmd args invQ s1 Hkey) in HQ.
  rewrite (preRunE_defined cmd args invL s1 Hkey) in HL.
  change (new_client invQ) with (new_client inv) in HQ.
  change (new_client invL) with (new_client inv) in HL.
  assert (Hcalls : calls (prepared invL s1) = calls (prepared invQ s1))
    by reflexivity.
  destruct (new_client inv) as [err |] eqn:Hnew.
  { cbv beta iota in HQ, HL.
    eexists (Returned _), (prepared invQ s1), (prepared invL s1), [], [].
    rewrite !app_nil_r. cbn [List.length]. split; [left; eauto |].
    split; [exact HQ |]. split; [exact HL |]. repeat split; auto. }
  cbv beta iota in HQ, HL.
  assert (HclientQ : client (prepared invQ s1) <> None).
  { unfold prepared. change (new_client invQ) with (new_client inv).
    rewrite Hnew. discriminate. }
  assert (HclientL : client (prepared invL s1) <> None).
  { unfold prepared. change (new_client invL) with (new_client inv).
    rewrite Hnew. discriminate. }
  destruct (Command_eq_getCmd cmd) as [-> | Hcmd].
  - destruct (ValidateArgs_get args Hargs) as [documentID ->].
    change (RunE getCmd [documentID]) with (get getCmd [documentID]) in HQ, HL.
    rewrite (get_exact documentID [] invQ _ HclientQ) in HQ.
    rewrite (get_exact documentID [] invL _ HclientL) in HL.
    destruct (fetching_prepared invQ s1 documentID) as [HoutQ HcallsQ].
    destruct (fetching_prepared invL s1 documentID) as [HoutL HcallsL].
    change (found invQ documentID s1) with (@nil string) in HoutQ.
    change (found invL documentID s1) with [finding inv s1 documentID]
      in HoutL.
    change (store_get invQ (setting invQ (prepared invQ s1) "collection"))
      with (store_get inv (setting inv s1 "collection")) in HQ.
    change (store_get invL (setting invL (prepared invL s1) "collection"))
      with (store_get inv (setting inv s1 "collection")) in HL.
    change (prettyprint invQ (prepared invQ s1)) with (prettyprint inv s1)
      in HQ.
    change (prettyprint invL (prepared invL s1)) with (prettyprint inv s1)
      in HL.
    assert (Hsame : calls (fetching invL (prepared invL s1) documentID)
                    = calls (fetching invQ (prepared invQ s1) documentID)).
    { now rewrite HcallsQ, HcallsL. }
    destruct (store_get inv (setting inv s1 "collection") documentID)
      as [err | docSnap];
      [| destruct (json (prettyprint inv s1) (Data docSnap)) as [err | b]].
    + eexists (Returned _), _, _, [finding inv s1 documentID], [].
      split; [left; eauto |]. split; [exact HQ |]. split; [exact HL |].
      rewrite HoutQ, HoutL. cbn [List.length]. repeat split; auto.
      discriminate.
    + eexists (Returned _), _, _, [finding inv s1 documentID], [].
      split; [left; eauto |]. split; [exact HQ |]. split; [exact HL |].
      rewrite HoutQ, HoutL. cbn [List.length]. repeat split; auto.
      discriminate.
    + eexists (Returned _), _, _, [finding inv s1 documentID],
        [string_of_list_ascii b +++ nl].
      split; [left; eauto |]. split; [exact HQ |]. split; [exact HL |].
      cbn [stdout calls write]. rewrite HoutQ, HoutL, <- !app_assoc.
      cbn [List.length]. repeat split; auto. discriminate.
  - destruct (opStart_notice invQ (prepared invQ s1) cmd args Hcmd)
      as (noticeQ & HoutQ & _ & HquietQ & _ & HcallsQ & HppQ).
    destruct (opStart_notice invL (prepared invL s1) cmd args Hcmd)
      as (noticeL & HoutL & Hlen & _ & Hdocuments & HcallsL & HppL).
    rewrite (HquietQ eq_refl), app_nil_r in HoutQ.
    destruct (namesCollection (setting inv s1 "collection")) eqn:Hpath.
    + set (q := opQuery inv s1 cmd args).
      destruct (iterateLoop_frame (flag_limit inv) (flag_unlimited inv)
                  (store_documents inv q) 1 invQ invL
                  (record (CallDocuments q)
                     (opStart invQ (prepared invQ s1) cmd args))
                  (record (CallDocuments q)
                     (opStart invL (prepared invL s1) cmd args)))
        as (r & out & cs & sQ & sL & HrunQ & HrunL & HoQ & HoL & HcQ & HcL).
      { now rewrite !prettyprint_record, HppQ, HppL. }
      pose proof (operation_opens cmd args invQ (prepared invQ s1) r sQ
                    Hcmd Hargs HclientQ Hpath HrunQ) as HopQ.
      pose proof (operation_opens cmd args invL (prepared invL s1) r sL
                    Hcmd Hargs HclientL Hpath HrunL) as HopL.
      rewrite HopQ in HQ. rewrite HopL in HL.
      exists (Returned r), (record CallStop sQ), (record CallStop sL),
        noticeL, out.
      split; [left; eauto |]. split; [exact HQ |]. split; [exact HL |].
      cbn [stdout calls record] in *.
      rewrite HcQ, HcL, HcallsQ, HcallsL, HoQ, HoL, HoutQ, HoutL, Hcalls.
      rewrite <- !app_assoc. repeat split; auto.
    + rewrite (operation_nil cmd args invQ (prepared invQ s1)
                 Hcmd Hargs HclientQ Hpath) in HQ.
      rewrite (operation_nil cmd args invL (prepared invL s1)
                 Hcmd Hargs HclientL Hpath) in HL.
      exists (Panicked nilDereference),
        (opStart invQ (prepared invQ s1) cmd args),
        (opStart invL (prepared invL s1) cmd args), noticeL, [].
      split; [right; eauto |]. split; [exact HQ |]. split; [exact HL |].
      rewrite HcallsQ, HcallsL, HoutQ, HoutL, !app_nil_r.
      repeat split; auto.
Qed.

(** X12.  [--verbose] adds a notice and changes nothing else.  A run
    with [--verbose] and the same run without it make the same calls and
    end with the same status; what the run with [--verbose] prints is
    what the other prints with at most one line more, the notice of
    [get] or of [where], and with no line more for [documents]. *)
Theorem verbose_only_adds_a_notice :
  forall (cmd : Command) (args : list string) (inv : Invocation),
    let quiet := main cmd args (withVerbose false inv) initial in
    let loud := main cmd args (withVerbose true inv) initial in
    exitCode loud = exitCode quiet
    /\ calls (finalState loud) = calls (finalState quiet)
    /\ exists before notice after,
         stdout (finalState quiet) = before ++ after
         /\ stdout (finalState loud) = before ++ notice ++ after
         /\ (List.length notice <= 1)%nat
         /\ (cmd = documentsCmd -> notice = []).
Proof.
  intros cmd args inv quiet loud. subst quiet loud.
  assert (Hstop : forall o : Outcome unit,
            (forall b, main cmd args (withVerbose b inv) initial = o) ->
            exitCode (main cmd args (withVerbose true inv) initial)
            = exitCode (main cmd args (withVerbose false inv) initial)
            /\ calls (finalState (main cmd args (withVerbose true inv) initial))
               = calls
                   (finalState (main cmd args (withVerbose false inv) initial))
            /\ exists before notice after,
                 stdout
                   (finalState (main cmd args (withVerbose false inv) initial))
                 = before ++ after
                 /\ stdout
                      (finalState
                         (main cmd args (withVerbose true inv) initial))
                    = before ++ notice ++ after
                 /\ (List.length notice <= 1)%nat
                 /\ (cmd = documentsCmd -> notice = [])).
  { intros o Ho. rewrite !Ho. split; [reflexivity |]. split; [reflexivity |].
    exists (stdout (finalState o)), [], []. rewrite !app_nil_r.
    cbn [List.length]. repeat split; auto. }
  destruct (initConfig_outcome inv initial)
    as [(err & _ & Hinit) | [(home & err & _ & _ & _ & Hinit) | [s1 Hinit]]].
  - apply (Hstop (Exited 1 (write (Error err +++ nl) initial))). intros b.
    destruct (main_stops_in_initConfig cmd args (withVerbose b inv) initial)
      as [Hexit _].
    apply Hexit. now rewrite initConfig_withVerbose.
  - apply (Hstop (Panicked ("Fatal error config file: " +++ Error err +++ " "
                            +++ nl) initial)). intros b.
    destruct (main_stops_in_initConfig cmd args (withVerbose b inv) initial)
      as [_ Hpanic].
    apply Hpanic. now rewrite initConfig_withVerbose.
  - destruct (Execute_verbose cmd args inv s1 Hinit)
      as (how & sQ & sL & notice & after & Hhow & HQ & HL & Hcalls & HoutQ
          & HoutL & Hlen & Hdocuments).
    destruct (main_end_alike _ _ _ _ _ _ _ _ Hhow HQ HL)
      as (Hexit & HcallsQ & HcallsL & last & HstdoutQ & HstdoutL).
    rewrite Hexit, HcallsQ, HcallsL, HstdoutQ, HstdoutL.
    split; [reflexivity |]. split; [exact Hcalls |].
    exists (stdout s1), notice, (after ++ last).
    rewrite HoutQ, HoutL, <- !app_assoc. repeat split; auto.
Qed.

(** ** [--prettyprint] *)

(** Both encoders fail on the same documents, with the same error. *)
Lemma json_Marshal pp d :
  json pp d
  = match Marshal d with
    | inl err => inl err
    | inr b => inr (if pp then Indent b "" "  " else b)
    end.
Proof.
  unfold json, MarshalIndent. destruct pp, (Marshal d); reflexivity.
Qed.

(** The line of a document that [Marshal] encodes. *)
Lemma line_Marshal pp doc b :
  Marshal (Data doc) = inr b ->
  serializes pp doc
  /\ line pp doc
     = string_of_list_ascii (if pp then Indent b "" "  " else b) +++ nl.
Proof.
  intros HM. unfold serializes, line. rewrite json_Marshal, HM. eauto.
Qed.

(** Two runs of the loop over the same stream end alike and make the
    same calls, whatever the setting of [prettyprint] in each; they
    print the lines of the same documents. *)
Lemma iterateLoop_alike limit unlimited iter :
  forall c inv1 inv2 s1 s2,
    exists r ds cs s1' s2',
      iterateLoop limit unlimited iter c inv1 s1 = Returned r s1'
      /\ iterateLoop limit unlimited iter c inv2 s2 = Returned r s2'
      /\ Forall (serializes (prettyprint inv1 s1)) ds
      /\ stdout s1' = stdout s1 ++ map (line (prettyprint inv1 s1)) ds
      /\ stdout s2' = stdout s2 ++ map (line (prettyprint inv2 s2)) ds
      /\ calls s1' = calls s1 ++ cs /\ calls s2' = calls s2 ++ cs.
Proof.
  induction iter as [| [err | doc] iter IH]; intros c inv1 inv2 s1 s2.
  - rewrite !iterateLoop_done. exists None, [], [CallNext]. eexists _, _.
    cbn [stdout calls record map]. rewrite !app_nil_r. repeat split.
    constructor.
  - rewrite !iterateLoop_error. eexists _, [], [CallNext]. eexists _, _.
    cbn [stdout calls record map]. rewrite !app_nil_r. repeat split.
    constructor.
  - rewrite !iterateLoop_doc, !json_Marshal.
    destruct (Marshal (Data doc)) as [err | b] eqn:HM.
    + eexists _, [], [CallNext]. eexists _, _.
      cbn [stdout calls record map]. rewrite !app_nil_r. repeat split.
      constructor.
    + destruct (line_Marshal (prettyprint inv1 s1) doc b HM) as [Hser Hl1].
      destruct (line_Marshal (prettyprint inv2 s2) doc b HM) as [_ Hl2].
      cbv zeta. destruct (negb unlimited && (c >=? limit)).
      * eexists _, [doc], [CallNext]. eexists _, _.
        cbn [stdout calls record write map]. rewrite Hl1, Hl2.
        repeat split. now constructor.
      * match goal with
        | |- context [iterateLoop _ _ _ _ inv1 ?t1] =>
            match goal with
            | |- context [iterateLoop _ _ _ _ inv2 ?t2] =>
                destruct (IH (int (c + 1)) inv1 inv2 t1 t2)
                  as (r & ds & cs & s1' & s2'
                      & H1 & H2 & Hds & Ho1 & Ho2 & Hc1 & Hc2)
            end
        end.
        rewrite !prettyprint_write, !prettyprint_record in *.
        cbn [stdout calls record write] in Ho1, Ho2, Hc1, Hc2.
        rewrite <- app_assoc in Ho1, Ho2, Hc1, Hc2.
        exists r, (doc :: ds), (CallNext :: cs), s1', s2'.
        cbn [map]. rewrite Hl1, Hl2. repeat split; try assumption.
        now constructor.
Qed.

Lemma initConfig_withPrettyprint inv s b :
  initConfig (withPrettyprint b inv) s = initConfig inv s.
Proof.
  unfold initConfig, homedir_Dir, viper_ReadInConfig, bind, ask, ret.
  cbv beta iota.
  change (home_dir (withPrettyprint b inv)) with (home_dir inv).
  destruct (home_dir inv); [reflexivity |]. cbv beta iota.
  change (config_file (withPrettyprint b inv)) with (config_file inv).
  destruct (config_file inv) as [[err | f] |]; try reflexivity.
  destruct err; reflexivity.
Qed.

(** A run and the same run with [--prettyprint] given, as [true] or
    [false], once [initConfig] has returned: [Execute] ends alike in
    both, with the same result or at the same panic, after the same
    calls, and the two runs have printed the same notice and then the
    lines of the same documents. *)
Lemma Execute_prettyprint cmd args inv b s1 :
  initConfig inv initial = Returned tt s1 ->
  exists how sA sB notice ds,
    ((exists r, how = Returned r) \/ (exists v, how = Panicked v))
    /\ Execute cmd args inv initial = how sA
    /\ Execute cmd args (withPrettyprint b inv) initial = how sB
    /\ calls sB = calls sA
    /\ Forall (serializes (prettyprint inv s1)) ds
    /\ stdout sA
       = stdout s1 ++ notice ++ map (line (prettyprint inv s1)) ds
    /\ stdout sB = stdout s1 ++ notice ++ map (line b) ds.
Proof.
  intros Hinit.
  set (invB := withPrettyprint b inv).
  assert (HinitB : initConfig invB initial = Returned tt s1).
  { subst invB. now rewrite initConfig_withPrettyprint. }
  pose proof (Execute_after_init cmd args inv initial s1 Hinit) as HA.
  pose proof (Execute_after_init cmd args invB initial s1 HinitB) as HB.
  destruct (ValidateArgs cmd args) as [e |] eqn:Hargs.
  { exists (Returned (Some e)), s1, s1, [], []. cbn [map].
    rewrite !app_nil_r. split; [left; eauto |]. repeat split; auto. }
  destruct (undefinedKey inv s1) as [key |] eqn:Hkey.
  { rewrite (preRunE_undefined cmd args inv s1 key Hkey) in HA.
    rewrite (preRunE_undefined cmd args invB s1 key Hkey) in HB.
    cbv beta iota in HA, HB.
    eexists (Returned _), s1, s1, [], []. cbn [map]. rewrite !app_nil_r.
    split; [left; eauto |].
    split; [exact HA |]. split; [exact HB |]. repeat split; auto. }
  rewrite (preRunE_defined cmd args inv s1 Hkey) in HA.
  rewrite (preRunE_defined cmd args invB s1 Hkey) in HB.
  change (new_client invB) with (new_client inv) in HB.
  assert (Hcalls : calls (prepared invB s1) = calls (prepared inv s1))
    by reflexivity.
  destruct (new_client inv) as [err |] eqn:Hnew.
  { cbv beta iota in HA, HB.
    eexists (Returned _), (prepared inv s1), (prepared invB s1), [], [].
    cbn [map]. rewrite !app_nil_r. split; [left; eauto |].
    split; [exact HA |]. split; [exact HB |]. repeat split; auto. }
  cbv beta iota in HA, HB.
  assert (HclientA : client (prepared inv s1) <> None).
  { unfold prepared. rewrite Hnew. discriminate. }
  assert (HclientB : client (prepared invB s1) <> None).
  { unfold prepared. change (new_client invB) with (new_client inv).
    rewrite Hnew. discriminate. }
  destruct (Command_eq_getCmd cmd) as [-> | Hcmd].
  - destruct (ValidateArgs_get args Hargs) as [documentID ->].
    change (RunE getCmd [documentID]) with (get getCmd [documentID]) in HA, HB.
    rewrite (get_exact documentID [] inv _ HclientA) in HA.
    rewrite (get_exact documentID [] invB _ HclientB) in HB.
    destruct (fetching_prepared inv s1 documentID) as [HoutA HcallsA].
    destruct (fetching_prepared invB s1 documentID) as [HoutB HcallsB].
    change (found invB documentID s1) with (found inv documentID s1) in HoutB.
    change (store_get inv (setting inv (prepared inv s1) "collection"))
      with (store_get inv (setting inv s1 "collection")) in HA.
    change (store_get invB (setting invB (prepared invB s1) "collection"))
      with (store_get inv (setting inv s1 "collection")) in HB.
    change (prettyprint inv (prepared inv s1)) with (prettyprint inv s1) in HA.
    change (prettyprint invB (prepared invB s1)) with b in HB.
    assert (Hsame : calls (fetching invB (prepared invB s1) documentID)
                    = calls (fetching inv (prepared inv s1) documentID)).
    { now rewrite HcallsA, HcallsB. }
    destruct (store_get inv (setting inv s1 "collection") documentID)
      as [err | docSnap];
      [| rewrite !json_Marshal in HA, HB;
         destruct (Marshal (Data docSnap)) as [err | text] eqn:HM].
    + eexists (Returned _), _, _, (found inv documentID s1), [].
      split; [left; eauto |].
      split; [exact HA |]. split; [exact HB |]. cbn [map].
      rewrite HoutA, HoutB, !app_nil_r. repeat split; auto.
    + eexists (Returned _), _, _, (found inv documentID s1), [].
      split; [left; eauto |].
      split; [exact HA |]. split; [exact HB |]. cbn [map].
      rewrite HoutA, HoutB, !app_nil_r. repeat split; auto.
    + destruct (line_Marshal (prettyprint inv s1) docSnap text HM)
        as [Hser HlA].
      destruct (line_Marshal b docSnap text HM) as [_ HlB].
      eexists (Returned _), _, _, (found inv documentID s1), [docSnap].
      split; [left; eauto |]. split; [exact HA |]. split; [exact HB |].
      cbn [stdout calls write map]. rewrite HoutA, HoutB, HlA, HlB.
      rewrite <- !app_assoc. repeat split; auto.
  - destruct (opStart_notice inv (prepared inv s1) cmd args Hcmd)
      as (notice & HoutA & _ & _ & _ & HcallsA & HppA).
    assert (HoutB : stdout (opStart invB (prepared invB s1) cmd args)
                    = stdout (prepared inv s1) ++ notice).
    { rewrite <- HoutA. destruct cmd; [congruence | | reflexivity].
      destruct args as [| path [| op [| arg more]]]; reflexivity. }
    assert (HcallsB : calls (opStart invB (prepared invB s1) cmd args)
                      = calls (prepared inv s1)).
    { rewrite <- HcallsA. destruct cmd; [congruence | | reflexivity].
      destruct args as [| path [| op [| arg more]]]; reflexivity. }
    assert (HppB : prettyprint invB (opStart invB (prepared invB s1) cmd args)
                   = b) by reflexivity.
    destruct (namesCollection (setting inv s1 "collection")) eqn:Hpath;
      [| rewrite (operation_nil cmd args inv (prepared inv s1)
                    Hcmd Hargs HclientA Hpath) in HA;
         rewrite (operation_nil cmd args invB (prepared invB s1)
                    Hcmd Hargs HclientB Hpath) in HB;
         exists (Panicked nilDereference),
           (opStart inv (prepared inv s1) cmd args),
           (opStart invB (prepared invB s1) cmd args), notice, [];
         split; [right; eauto |]; split; [exact HA |]; split; [exact HB |];
         cbn [map]; rewrite HcallsA, HcallsB, HoutA, HoutB, !app_nil_r;
         repeat split; auto].
    set (q := opQuery inv s1 cmd args).
    assert (HqA : opQuery inv (prepared inv s1) cmd args = q).
    { subst q. destruct cmd; [congruence | | reflexivity].
      destruct args as [| path [| op [| arg more]]]; reflexivity. }
    assert (HqB : opQuery invB (prepared invB s1) cmd args = q).
    { subst q. destruct cmd; [congruence | | reflexivity].
      destruct args as [| path [| op [| arg more]]]; reflexivity. }
    destruct (iterateLoop_alike (flag_limit inv) (flag_unlimited inv)
                (store_documents inv q) 1 inv invB
                (record (CallDocuments q)
                   (opStart inv (prepared inv s1) cmd args))
                (record (CallDocuments q)
                   (opStart invB (prepared invB s1) cmd args)))
      as (r & ds & cs & sA & sB
          & HrunA & HrunB & Hds & HoA & HoB & HcA & HcB).
    rewrite prettyprint_record in Hds, HoA, HoB.
    rewrite HppA in Hds, HoA. rewrite HppB in HoB.
    change (prettyprint inv (prepared inv s1)) with (prettyprint inv s1)
      in Hds, HoA.
    rewrite <- HqA in HrunA at 1 2. rewrite <- HqB in HrunB at 1 2.
    pose proof (operation_opens cmd args inv (prepared inv s1) r sA
                  Hcmd Hargs HclientA Hpath HrunA) as HopA.
    pose proof (operation_opens cmd args invB (prepared invB s1) r sB
                  Hcmd Hargs HclientB Hpath HrunB) as HopB.
    rewrite HopA in HA. rewrite HopB in HB.
    exists (Returned r), (record CallStop sA), (record CallStop sB), notice,
      ds.
    split; [left; eauto |]. split; [exact HA |]. split; [exact HB |].
    cbn [stdout calls record] in *.
    rewrite HcA, HcB, HcallsA, HcallsB, HoA, HoB, HoutA, HoutB.
    rewrite <- !app_assoc. repeat split; auto.
Qed.

(** X13.  [--prettyprint] changes the text of the document lines and
    nothing else.  A run and the same run with [--prettyprint] given, as
    [true] or [false], make the same calls and end with the same status;
    they print the same lines before the documents and the same error
    line after them, and in between the lines of the same documents, each
    run under its own setting. *)
Theorem prettyprint_only_changes_document_lines :
  forall (cmd : Command) (args : list string) (inv : Invocation) (b : bool),
    let one := main cmd args inv initial in
    let other := main cmd args (withPrettyprint b inv) initial in
    exitCode other = exitCode one
    /\ calls (finalState other) = calls (finalState one)
    /\ exists pp before ds after,
         Forall (serializes pp) ds
         /\ stdout (finalState one) = before ++ map (line pp) ds ++ after
         /\ stdout (finalState other) = before ++ map (line b) ds ++ after.
Proof.
  intros cmd args inv b one other. subst one other.
  assert (Hstop : forall o : Outcome unit,
            main cmd args inv initial = o ->
            main cmd args (withPrettyprint b inv) initial = o ->
            exitCode (main cmd args (withPrettyprint b inv) initial)
            = exitCode (main cmd args inv initial)
            /\ calls
                 (finalState (main cmd args (withPrettyprint b inv) initial))
               = calls (finalState (main cmd args inv initial))
            /\ exists pp before ds after,
                 Forall (serializes pp) ds
                 /\ stdout (finalState (main cmd args inv initial))
                    = before ++ map (line pp) ds ++ after
                 /\ stdout
                      (finalState
                         (main cmd args (withPrettyprint b inv) initial))
                    = before ++ map (line b) ds ++ after).
  { intros o Ho Ho'. rewrite Ho, Ho'.
    split; [reflexivity |]. split; [reflexivity |].
    exists false, (stdout (finalState o)), [], []. cbn [map].
    rewrite !app_nil_r. repeat split; auto. }
  destruct (initConfig_outcome inv initial)
    as [(err & _ & Hinit) | [(home & err & _ & _ & _ & Hinit) | [s1 Hinit]]].
  - apply (Hstop (Exited 1 (write (Error err +++ nl) initial))).
    + now apply main_stops_in_initConfig.
    + apply main_stops_in_initConfig. now rewrite initConfig_withPrettyprint.
  - apply (Hstop (Panicked ("Fatal error config file: " +++ Error err +++ " "
                            +++ nl) initial)).
    + now apply main_stops_in_initConfig.
    + apply main_stops_in_initConfig. now rewrite initConfig_withPrettyprint.
  - destruct (Execute_prettyprint cmd args inv b s1 Hinit)
      as (how & sA & sB & notice & ds & Hhow & HA & HB & Hcalls & Hds & HoutA
          & HoutB).
    destruct (main_end_alike _ _ _ _ _ _ _ _ Hhow HA HB)
      as (Hexit & HcallsA & HcallsB & last & HstdoutA & HstdoutB).
    rewrite Hexit, HcallsA, HcallsB, HstdoutA, HstdoutB.
    split; [reflexivity |]. split; [exact Hcalls |].
    exists (prettyprint inv s1), (stdout s1 ++ notice), ds, last.
    rewrite HoutA, HoutB, <- !app_assoc. repeat split; auto.
Qed.

(** ** The project and the collection of a run *)

(** What [viper.GetString] answers after [initConfig]. *)
Lemma initConfig_setting inv s1 key :
  initConfig inv initial = Returned tt s1 ->
  setting inv s1 key = merged inv key.
Proof.
  unfold initConfig, homedir_Dir, viper_ReadInConfig, bind, ask, ret.
  unfold setting, merged.
  destruct (home_dir inv) as [err | home]; [discriminate |].
  destruct (config_file inv) as [[err | f] |].
  - destruct err; try discriminate. intros [= <-]. reflexivity.
  - intros [= <-]. reflexivity.
  - intros [= <-]. reflexivity.
Qed.

(** X14.  A run talks to the project and the collection that the flags
    name and, where a flag is not given, the configuration file that
    [initConfig] found.  When both are defined and the arguments suit
    the command, the first call of the run asks for a client of that
    project.  With the client, [get] fetches the document from that
    collection; [documents] and [where] open their stream on that
    collection, [where] with its filter, when the path names a
    collection, and call nothing more when it names none. *)
Theorem run_uses_flag_then_file :
  forall (cmd : Command) (args : list string) (inv : Invocation) (s1 : State),
    initConfig inv initial = Returned tt s1 ->
    ValidateArgs cmd args = None ->
    merged inv "project" <> EmptyString ->
    merged inv "collection" <> EmptyString ->
    exists more,
      calls (finalState (main cmd args inv initial))
      = CallNewClient (merged inv "project") :: more
      /\ (new_client inv <> None -> more = [])
      /\ (new_client inv = None ->
          (forall documentID,
             cmd = getCmd -> args = [documentID] ->
             more = [CallGet (merged inv "collection") documentID])
          /\ (cmd = documentsCmd ->
              namesCollection (merged inv "collection") = true ->
              exists n,
                more
                = streamed {| q_collection := merged inv "collection";
                              q_where := None |} n)
          /\ (forall path op arg,
                cmd = whereCmd -> args = [path; op; arg] ->
                namesCollection (merged inv "collection") = true ->
                exists n,
                  more
                  = streamed
                      {| q_collection := merged inv "collection";
                         q_where := Some (path, op, whereValue arg) |} n)
          /\ (cmd <> getCmd ->
              namesCollection (merged inv "collection") = false ->
              more = [])).
Proof.
  intros cmd args inv s1 Hinit Hargs Hproject Hcollection.
  pose proof (initConfig_setting inv s1 "project" Hinit) as Hp.
  pose proof (initConfig_setting inv s1 "collection" Hinit) as Hc.
  rewrite <- Hp in Hproject. rewrite <- Hc in Hcollection.
  pose proof (undefinedKey_none inv s1 Hproject Hcollection) as Hkey.
  destruct (initConfig_returned inv initial s1 Hinit) as (Hcalls & _).
  cbn [calls initial] in Hcalls.
  destruct (prepared_same inv s1) as (_ & Hcalls1 & _ & Hset & _).
  rewrite Hcalls, Hp in Hcalls1. cbn [app] in Hcalls1.
  pose proof (Execute_after_init cmd args inv initial s1 Hinit) as Hexec.
  rewrite Hargs, (preRunE_defined cmd args inv s1 Hkey) in Hexec.
  destruct (new_client inv) as [err |] eqn:Hnew.
  { cbv beta iota in Hexec.
    destruct (main_end _ _ _ _ _ _ Hexec) as (_ & Hend & _).
    exists []. rewrite Hend. split; [exact Hcalls1 |].
    split; [reflexivity | discriminate]. }
  cbv beta iota in Hexec.
  assert (Hclient : client (prepared inv s1) <> None).
  { unfold prepared. rewrite Hnew. discriminate. }
  destruct (Command_eq_getCmd cmd) as [-> | Hcmd].
  - destruct (ValidateArgs_get args Hargs) as [documentID ->].
    destruct (get_calls documentID inv (prepared inv s1) Hclient)
      as (r & s0 & Hrun & Hcalls0).
    change (RunE getCmd [documentID]) with (get getCmd [documentID]) in Hexec.
    rewrite Hrun in Hexec.
    destruct (main_end _ _ _ _ _ _ Hexec) as (_ & Hend & _).
    rewrite Hset, Hc, Hcalls1 in Hcalls0. cbn [app] in Hcalls0.
    eexists. rewrite Hend. split; [exact Hcalls0 |].
    split; [congruence |]. intros _. split; [| split; [| split]].
    + now intros ? _ [= <-].
    + discriminate.
    + discriminate.
    + congruence.
  - destruct (namesCollection (merged inv "collection")) eqn:Hpath.
    + rewrite <- Hc in Hpath.
      destruct (operation_calls cmd args inv (prepared inv s1)
                  Hcmd Hargs Hclient Hpath)
        as (r & s0 & n & Hrun & Hcalls0).
      rewrite Hrun in Hexec.
      destruct (main_end _ _ _ _ _ _ Hexec) as (_ & Hend & _).
      rewrite Hcalls1 in Hcalls0. cbn [app] in Hcalls0.
      eexists. rewrite Hend. split; [exact Hcalls0 |].
      split; [congruence |]. intros _. split; [| split; [| split]].
      * congruence.
      * intros -> _. exists n. unfold opQuery, allDocuments.
        now rewrite Hset, Hc.
      * intros path op arg -> -> _. exists n. unfold opQuery, filtered.
        now rewrite Hset, Hc.
      * discriminate.
    + rewrite <- Hc in Hpath.
      rewrite (operation_nil cmd args inv (prepared inv s1)
                 Hcmd Hargs Hclient Hpath) in Hexec.
      rewrite (main_of_Execute_panicked _ _ _ _ _ _ Hexec).
      destruct (opStart_same inv (prepared inv s1) cmd args)
        as (notice & _ & Hcalls0 & _ & _).
      rewrite Hcalls1 in Hcalls0.
      exists []. cbn [finalState]. split; [exact Hcalls0 |].
      split; [reflexivity |]. intros _. split; [| split; [| split]].
      * congruence.
      * discriminate.
      * discriminate.
      * reflexivity.
Qed.

(** The flag [--collection] is given and [--project] is not: the
    project comes from the configuration file. *)
Lemma run_uses_flag_then_file_witness :
  exists n,
    calls
      (finalState
         (main documentsCmd []
            (configuredRun None (Some "users"%string) sampleStream) initial))
    = CallNewClient "filed"
        :: streamed {| q_collection := "users"; q_where := None |} n.
Proof.
  destruct (run_uses_flag_then_file documentsCmd []
              (configuredRun None (Some "users"%string) sampleStream)
              (set_viper_config
                 (Some {| file_project := Some "filed"%string;
                          file_collection := Some "archive"%string;
                          file_prettyprint := None |}) initial))
    as (more & Hcalls & _ & Hmore).
  - reflexivity.
  - reflexivity.
  - discriminate.
  - discriminate.
  - destruct (Hmore eq_refl) as (_ & Hdocuments & _).
    destruct (Hdocuments eq_refl eq_refl) as [n ->].
    exists n. exact Hcalls.
Defined.
